(** * MOFA2 inference engine: orchestrator and noise-precision node

    A shallow embedding of [mofapy2/core/BayesNet.py] (classes [BayesNet]
    and [StochasticBayesNet]) and of [biofam/core/nodes/Tau_nodes.py]
    (class [TauD_Node]), with the properties of the design document stated
    and settled against it.

    Numbers.  Python floats and numpy float64 values are IEEE binary64; the
    control-flow parts of the code (threshold tests, mini-batch bounds,
    variance-explained comparisons) are embedded over Rocq's primitive
    binary64 floats, so that they evaluate exactly as the program does.  The
    analytic parts (the Gamma update of the noise-precision node, its ELBO
    and the step-size schedule) are embedded over the real numbers: they are
    statements of algebra and analysis about what the float code
    approximates.  The mini-batch sampler is written once over the
    arithmetic it uses and read both in binary64 and in exact rational
    arithmetic.  Python integers are [Z]. *)

From Stdlib Require Import ZArith List Bool Lia Reals Lra Floats.
From Stdlib Require Import QArith Qround Psatz.
From stdpp Require Import gmap strings list.

Set Warnings "-inexact-float".

(** ** Outcomes of Python calls *)

(** A call returns a value, raises an exception (named by its class and
    message), or terminates the process through [exit()]. *)
Inductive py_result (A : Type) : Type :=
| Returns (a : A)
| Raises (exn : string)
| Exits.
Arguments Returns {A} a.
Arguments Raises {A} exn.
Arguments Exits {A}.

Definition py_bind {A B : Type} (r : py_result A) (k : A → py_result B)
  : py_result B :=
  match r with
  | Returns a => k a
  | Raises e => Raises e
  | Exits => Exits
  end.

#[global] Instance py_result_bind : MBind py_result :=
  fun A B k r => py_bind r k.
#[global] Instance py_result_ret : MRet py_result := fun A a => Returns a.

(** ** Python number conversions on binary64 *)

#[global] Instance float_inhabited : Inhabited float := populate 0%float.

Module PyFloat.

(** [float(z)] for a Python int, as [int * float] and [int / int] coerce
    their integer operands: exact below 2^53, and meant for integers below
    2^63. *)
Definition of_Z (z : Z) : float :=
  if (z <? 0)%Z
  then PrimFloat.opp (PrimFloat.of_uint63 (Uint63.of_Z (- z)))
  else PrimFloat.of_uint63 (Uint63.of_Z z).

(** [int(f)]: truncation toward zero; [OverflowError]/[ValueError] on
    infinities and NaN. *)
Definition to_int (f : float) : py_result Z :=
  match Prim2SF f with
  | S754_zero _ => Returns 0%Z
  | S754_finite s m e =>
      let v := if (0 <=? e)%Z then (Z.pos m * 2 ^ e)%Z
               else (Z.pos m / 2 ^ (- e))%Z in
      Returns (if s then (- v)%Z else v)
  | S754_infinity _ => Raises "OverflowError: cannot convert float infinity to integer"
  | S754_nan => Raises "ValueError: cannot convert float NaN to integer"
  end.

(** [math.ceil(f)]. *)
Definition ceil (f : float) : py_result Z :=
  match Prim2SF f with
  | S754_zero _ => Returns 0%Z
  | S754_finite s m e =>
      if (0 <=? e)%Z
      then let v := (Z.pos m * 2 ^ e)%Z in Returns (if s then (- v)%Z else v)
      else let d := (2 ^ (- e))%Z in
           Returns (if s then (- (Z.pos m / d))%Z
                    else ((Z.pos m + d - 1) / d)%Z)
  | S754_infinity _ => Raises "OverflowError: cannot convert float infinity to integer"
  | S754_nan => Raises "ValueError: cannot convert float NaN to integer"
  end.

End PyFloat.

(** ** Two-dimensional arrays *)

(** numpy arrays are held row by row.  [entry A i j] is [A[i,j]], and
    [shape n m A] says that [A] has [n] rows of [m] entries. *)
Definition entry {X : Type} `{!Inhabited X} (A : list (list X)) (i j : nat) : X :=
  (A !!! i) !!! j.

Definition shape {X : Type} (n m : nat) (A : list (list X)) : Prop :=
  length A = n ∧ Forall (λ row, length row = m) A.

(** ** Training options: [BayesNet.setTrainOptions] *)

Module TrainOptions.

(** Values stored in the options dictionary. *)
Inductive pyval : Type :=
| PInt (z : Z)
| PFloat (f : float)
| PBool (b : bool)
| PStr (s : string)
| PSchedule (names : list string)
| PDrop (min_r2 : option float).

(** The part of a [BayesNet] object that [setTrainOptions] touches. *)
Record BayesNet : Type := mkBayesNet {
  dim : gmap string Z;
  options : option (gmap string pyval);
  trained : bool;
  simulated : bool
}.

(** [BayesNet.__init__] *)
Definition init (d : gmap string Z) : BayesNet :=
  {| dim := d; options := None; trained := false; simulated := false |}.

(** The sanity checks of [setTrainOptions], in source order: the key each
    [assert] tests and the message it raises with.  The last message names
    ['gpu_mode'] in the source as well. *)
Definition sanity_checks : list (string * string) :=
  [ ("maxiter", "'maxiter' not found in the training options dictionary");
    ("start_drop", "'start_drop' not found in the training options dictionary");
    ("freq_drop", "'freq_drop' not found in the training options dictionary");
    ("verbose", "'verbose' not found in the training options dictionary");
    ("quiet", "'quiet' not found in the training options dictionary");
    ("tolerance", "'tolerance' not found in the training options dictionary");
    ("convergence_mode", "'convergence_mode' not found in the training options dictionary");
    ("forceiter", "'forceiter' not found in the training options dictionary");
    ("schedule", "'schedule' not found in the training options dictionary");
    ("start_sparsity", "'start_sparsity' not found in the training options dictionary");
    ("gpu_mode", "'gpu_mode' not found in the training options dictionary");
    ("start_elbo", "'gpu_mode' not found in the training options dictionary") ].

(** [assert k in train_opts, msg] for each check in turn. *)
Fixpoint run_asserts (checks : list (string * string))
    (train_opts : gmap string pyval) : py_result unit :=
  match checks with
  | [] => Returns tt
  | (k, msg) :: rest =>
      match train_opts !! k with
      | Some _ => run_asserts rest train_opts
      | None => Raises msg
      end
  end.

Definition setTrainOptions (self : BayesNet) (train_opts : gmap string pyval)
    : py_result BayesNet :=
  _ ← run_asserts sanity_checks train_opts;
  Returns {| dim := dim self; options := Some train_opts;
             trained := trained self; simulated := simulated self |}.

(** The keys the design document lists as required. *)
Definition spec_required_keys : list string :=
  [ "maxiter"; "start_drop"; "freq_drop"; "verbose"; "quiet"; "tolerance";
    "convergence_mode"; "forceiter"; "schedule"; "start_sparsity";
    "gpu_mode"; "start_elbo"; "elbofreq"; "drop"; "stochastic" ].

(** The keys the code asserts. *)
Definition asserted_keys : list string := sanity_checks.*1.

(** A complete options dictionary for a full-batch run. *)
Definition full_opts : gmap string pyval :=
  list_to_map
    [ ("maxiter", PInt 50); ("start_drop", PInt 1); ("freq_drop", PInt 1);
      ("verbose", PBool false); ("quiet", PBool false);
      ("tolerance", PFloat 0.01); ("convergence_mode", PStr "medium");
      ("forceiter", PBool true); ("schedule", PSchedule ["Y"; "W"; "Z"; "Tau"]);
      ("start_sparsity", PInt 1); ("gpu_mode", PBool false);
      ("start_elbo", PInt 0); ("elbofreq", PInt 1);
      ("drop", PDrop (Some 0.01%float)); ("stochastic", PBool false) ].

End TrainOptions.

(** ** Convergence monitor: [BayesNet.assess_convergence] *)

Module Convergence.

(** The threshold selected by [options["convergence_mode"]]; [None] is the
    [else] branch (message and [exit()]). *)
Definition convergence_threshold (mode : string) : option float :=
  if decide (mode = "fast") then Some 0.00001%float
  else if decide (mode = "medium") then Some 0.000001%float
  else if decide (mode = "slow") then Some 0.0000001%float
  else None.

(** [100*abs(delta_elbo/first_elbo)] on numpy float64: a zero
    [first_elbo] gives an infinity or a NaN, not an exception. *)
Definition relDelta (delta_elbo first_elbo : float) : float :=
  (100 * PrimFloat.abs (delta_elbo / first_elbo))%float.

Definition assess_convergence (mode : string) (delta_elbo first_elbo : float)
    (convergence_token : Z) : py_result (Z * bool) :=
  match convergence_threshold mode with
  | None => Exits
  | Some convergence_threshold =>
      if PrimFloat.ltb (relDelta delta_elbo first_elbo) convergence_threshold
      then let convergence_token := (convergence_token + 1)%Z in
           Returns (convergence_token, (convergence_token =? 5)%Z)
      else Returns (1%Z, false)
  end.

(** The checkpoint is below the threshold of a recognised mode. *)
Definition below (mode : string) (first_elbo delta_elbo : float) : bool :=
  match convergence_threshold mode with
  | Some thr => PrimFloat.ltb (relDelta delta_elbo first_elbo) thr
  | None => false
  end.

(** A sequence of [delta_elbo] values fed to [assess_convergence] one
    check after the other, the token threaded through as [iterate] does
    and the feed stopped at the first [converged]; the result is the
    1-based position of the check that declared convergence. *)
Fixpoint feed (mode : string) (first_elbo : float) (deltas : list float)
    (convergence_token : Z) : py_result (option nat) :=
  match deltas with
  | [] => Returns None
  | delta_elbo :: rest =>
      '(convergence_token, converged) ←
        assess_convergence mode delta_elbo first_elbo convergence_token;
      if converged : bool then Returns (Some 1%nat)
      else k ← feed mode first_elbo rest convergence_token;
           Returns (option_map S k)
  end.

(** Position [k] (1-based) ends a window of four consecutive
    sub-threshold checks, [t - 1] of which may lie before the sequence
    (checks already counted by a token [t]). *)
Definition window (t : Z) (flags : list bool) (k : nat) : Prop :=
  (Z.to_nat (5 - t) ≤ k)%nat ∧
  ∀ j : nat, (k - 4 ≤ j)%nat → (j < k)%nat → flags !! j = Some true.

(** [k] is the end of the first such window. *)
Definition first_window (t : Z) (flags : list bool) (k : nat) : Prop :=
  window t flags k ∧ ∀ k' : nat, (k' < k)%nat → ¬ window t flags k'.

(** The property as the design document states it: five consecutive
    sub-threshold checks, convergence declared on the fifth. *)
Definition declared_on_fifth : Prop :=
  ∀ (mode : string) (first_elbo : float) (deltas : list float),
    is_Some (convergence_threshold mode) →
    length deltas = 5%nat →
    Forall (λ d, below mode first_elbo d = true) deltas →
    feed mode first_elbo deltas 1 = Returns (Some 5%nat).

End Convergence.

(** ** The training loop: ELBO checkpoints in [iterate] *)

Module Training.

(** The options the checkpoint logic of [iterate] reads. *)
Record train_options : Type := mkOptions {
  maxiter : Z;
  start_elbo : Z;
  elbofreq : Z;
  forceiter : bool;
  convergence_mode : string
}.

(** What [iterate] keeps between iterations: the nodes (an abstract
    world), the ["total"] column of the [elbo] data frame and the
    convergence token. *)
Record loop_state (world : Type) : Type := mkState {
  nodes : world;
  elbo : list float;
  convergence_token : Z
}.
Arguments mkState {world} _ _ _.
Arguments nodes {world} _.
Arguments elbo {world} _.
Arguments convergence_token {world} _.

(** [a % b] on Python ints. *)
Definition py_mod (a b : Z) : py_result Z :=
  if (b =? 0)%Z then Raises "ZeroDivisionError: integer division or modulo by zero"
  else Returns (a mod b)%Z.

(** Positional row access [elbo.iloc[j]["total"]], negative positions
    counted from the end. *)
Definition iloc_pos (col : list float) (j : Z) : py_result nat :=
  let n := Z.of_nat (length col) in
  if ((0 <=? j) && (j <? n))%Z then Returns (Z.to_nat j)
  else if ((- n <=? j) && (j <? 0))%Z then Returns (Z.to_nat (n + j))
  else Raises "IndexError: single positional indexer is out-of-bounds".

Definition iloc_get (col : list float) (j : Z) : py_result float :=
  p ← iloc_pos col j;
  match col !! p with
  | Some v => Returns v
  | None => Raises "IndexError: single positional indexer is out-of-bounds"
  end.

Definition iloc_set (col : list float) (j : Z) (v : float)
    : py_result (list float) :=
  p ← iloc_pos col j; Returns (<[p := v]> col).

(** [range(1, maxiter)] *)
Definition iterations (maxiter : Z) : list Z :=
  (λ n, Z.of_nat n) <$> seq 1 (Z.to_nat (maxiter - 1)).

Section Iterate.
Context {world : Type}.
(** [self.precompute()]: the set-up of the nodes, which leaves them in a
    new state, and the ["total"] of the ELBO record that the call
    returns. *)
Variable precompute : world → py_result (world * float).
(** The part of iteration [i] before the ELBO checkpoint: mini-batch
    sampling (stochastic class), factor pruning and the node updates of
    the schedule. *)
Variable prune_and_update : Z → world → py_result world.
(** [self.calculateELBO()["total"]] *)
Variable calculateELBO_total : world → py_result float.
Variable opts : train_options.

(** One pass through the body of the [for] loop; the boolean is
    [converged], on which the loop breaks. *)
Definition iteration (i : Z) (st : loop_state world)
    : py_result (loop_state world * bool) :=
  w ← prune_and_update i (nodes st);
  is_checkpoint ←
    (if (start_elbo opts <=? i)%Z
     then r ← py_mod (i - start_elbo opts) (elbofreq opts);
          Returns (r =? 0)%Z
     else Returns false);
  if is_checkpoint : bool then
    total_i ← calculateELBO_total w;
    col ← iloc_set (elbo st) i total_i;
    elbo_i ← iloc_get col i;
    elbo_0 ← iloc_get col 0;
    delta_elbo ←
      (if (i =? start_elbo opts)%Z then Returns (elbo_i - elbo_0)%float
       else prev ← iloc_get col (i - elbofreq opts);
            Returns (elbo_i - prev)%float);
    if (start_elbo opts <? i)%Z && negb (forceiter opts) then
      '(token, converged) ←
        Convergence.assess_convergence (convergence_mode opts)
          delta_elbo elbo_0 (convergence_token st);
      Returns (mkState w col token, converged)
    else Returns (mkState w col (convergence_token st), false)
  else Returns (mkState w (elbo st) (convergence_token st), false).

(** The [for] loop with its [break]; on convergence at iteration [i] the
    ledger is cut to its first [i] rows ([elbo = elbo[:i]]). *)
Fixpoint loop (todo : list Z) (st : loop_state world)
    : py_result (loop_state world * option Z) :=
  match todo with
  | [] => Returns (st, None)
  | i :: rest =>
      '(st, converged) ← iteration i st;
      if converged : bool
      then Returns (mkState (nodes st) (take (Z.to_nat i) (elbo st))
                      (convergence_token st), Some i)
      else loop rest st
  end.

(** [iterate]: the ledger starts as [maxiter+1] NaN rows, row 0 is set to
    the record that [precompute] returns ([elbo.iloc[0] =
    self.precompute()]), the token starts at 1. *)
Definition iterate (w0 : world) : py_result (loop_state world * option Z) :=
  if (maxiter opts + 1 <? 0)%Z
  then Raises "ValueError: negative dimensions are not allowed"
  else
    let col := replicate (Z.to_nat (maxiter opts + 1)) PrimFloat.nan in
    '(w, total_0) ← precompute w0;
    col ← iloc_set col 0 total_0;
    loop (iterations (maxiter opts)) (mkState w col 1%Z).

End Iterate.

(** A run used as an example: the world counts the passes made, the ELBO
    is constant, a checkpoint every second iteration from iteration 3. *)
Definition demo_opts : train_options :=
  {| maxiter := 20; start_elbo := 3; elbofreq := 2; forceiter := false;
     convergence_mode := "medium" |}.

Definition demo_run : py_result (loop_state nat * option Z) :=
  iterate (λ w, Returns (w, (-1234.5)%float)) (λ _ w, Returns (S w))
    (λ _, Returns (-1234.5)%float) demo_opts 0%nat.

(** A second run, with a checkpoint at every iteration from the first: the
    ELBO is -100 before training, -50 after one pass, and -40 from the
    second pass on. *)
Definition plateau_opts : train_options :=
  {| maxiter := 20; start_elbo := 1; elbofreq := 1; forceiter := false;
     convergence_mode := "medium" |}.

Definition plateau_run : py_result (loop_state nat * option Z) :=
  iterate (λ w, Returns (w, (-100)%float)) (λ _ w, Returns (S w))
    (λ w, Returns (match w with
                   | 0%nat => (-100)%float
                   | 1%nat => (-50)%float
                   | _ => (-40)%float
                   end))
    plateau_opts 0%nat.

End Training.

(** ** ELBO records: [BayesNet.calculateELBO] *)

Module Elbo.

(** A node of the registry, as [calculateELBO] sees it: whether it is an
    instance of [Variational_Node], and the value of
    [float(node.calculateELBO())]. *)
Record node : Type := mkNode {
  variational : bool;
  node_elbo : float
}.

(** The registry [self.nodes]: a dict, in insertion order. *)
Abbreviation registry := (list (string * node)).

(** A [pd.Series] of floats with a label index. *)
Abbreviation series := (list (string * float)).

Definition labelled (label : string) (e : string * float) : Prop :=
  e.1 = label.
#[global] Instance labelled_dec label e : Decision (labelled label e).
Proof. unfold labelled. apply _. Defined.

(** [s[label]] read as a scalar.  With a label that occurs more than once
    pandas returns a sub-series instead; that case is kept apart as an
    error. *)
Definition series_get (s : series) (label : string) : py_result float :=
  match filter (labelled label) s with
  | [] => Raises "KeyError"
  | [e] => Returns e.2
  | _ :: _ :: _ => Raises "TypeError: label is not unique"
  end.

(** [s[label] = v]: every entry with that label is set; a new label is
    appended. *)
Definition series_set (s : series) (label : string) (v : float) : series :=
  match filter (labelled label) s with
  | [] => s ++ [(label, v)]
  | _ :: _ => (λ e, if decide (labelled label e) then (e.1, v) else e) <$> s
  end.

(** [self.getVariationalNodes().keys()] *)
Definition getVariationalNodes (nodes : registry) : registry :=
  filter (λ e, variational e.2 = true) nodes.

(** [self.nodes[name]] *)
Definition registry_get (nodes : registry) (name : string) : py_result node :=
  match list_find (λ e, e.1 = name) nodes with
  | Some (_, e) => Returns e.2
  | None => Raises "KeyError"
  end.

(** The contribution [calculateELBO] reads for a registered name. *)
Definition contribution (nodes : registry) (name : string) : float :=
  match registry_get nodes name with
  | Returns n => node_elbo n
  | _ => 0%float
  end.

(** The body of the [for] loop of [calculateELBO]. *)
Definition add_node (nodes : registry) (elbo : series) (name : string)
    : py_result series :=
  n ← registry_get nodes name;
  let elbo := series_set elbo name (node_elbo n) in
  total ← series_get elbo "total";
  v ← series_get elbo name;
  Returns (series_set elbo "total" (total + v)%float).

Fixpoint add_nodes (nodes : registry) (elbo : series) (names : list string)
    : py_result series :=
  match names with
  | [] => Returns elbo
  | name :: rest => elbo ← add_node nodes elbo name; add_nodes nodes elbo rest
  end.

(** [calculateELBO(self, *nodes)]; [names] is the argument tuple. *)
Definition calculateELBO (nodes : registry) (names : list string)
    : py_result series :=
  let names := if decide (length names = 0%nat)
               then (getVariationalNodes nodes).*1 else names in
  let elbo := (λ name, (name, 0%float)) <$> (names ++ ["total"]) in
  add_nodes nodes elbo names.

(** The per-node values of a record: every field but ["total"]. *)
Definition node_values (elbo : series) : list float :=
  (filter (λ e, ¬ labelled "total" e) elbo).*2.

(** Their sum, accumulated from [0.] in the order of the record. *)
Definition sum_values (vs : list float) : float :=
  fold_left PrimFloat.add vs 0%float.

Definition demo_registry : registry :=
  [ ("Y", mkNode true (-100.5)%float); ("W", mkNode true 2.25%float);
    ("Sigma", mkNode false 7%float); ("Z", mkNode true (-3.125)%float);
    ("Tau", mkNode true 0.1%float) ].

End Elbo.

(** ** Stochastic inference: [StochasticBayesNet] *)

Module Stochastic.

(** The options the stochastic part of [iterate] reads.  The batch size
    drives integer mini-batch bounds and is kept as the binary64 value the
    program holds; the learning and forgetting rates enter the step size
    only and are real numbers here. *)
Record stochastic_options : Type := mkStochasticOptions {
  batch_size : float;
  learning_rate : R;
  forgetting_rate : R;
  start_stochastic : Z;
  start_sparsity : Z;
  schedule : list string
}.

(** The attributes [sample_mini_batch_no_replace] reads and writes:
    [self.dim['N']], [self.shuffled_ix] (unset until the first shuffle) and
    the mini-batch last handed to the nodes by [define_mini_batch]. *)
Record sampler : Type := mkSampler {
  dim_N : Z;
  shuffled_ix : option (list Z);
  mini_batch : option (list Z)
}.

(** [l[lo:hi]] *)
Definition py_slice {A : Type} (l : list A) (lo hi : Z) : list A :=
  let n := Z.of_nat (length l) in
  let clamp x := if (x <? 0)%Z then Z.max 0 (x + n) else Z.min x n in
  take (Z.to_nat (clamp hi - clamp lo)) (drop (Z.to_nat (clamp lo)) l).

(** [1./b] on Python floats *)
Definition py_inverse (b : float) : py_result float :=
  if PrimFloat.eqb b 0 then Raises "ZeroDivisionError: float division by zero"
  else Returns (1 / b)%float.

(** [a / b] on Python ints *)
Definition py_truediv (a b : Z) : py_result float :=
  if (b =? 0)%Z then Raises "ZeroDivisionError: division by zero"
  else Returns (PyFloat.of_Z a / PyFloat.of_Z b)%float.

(** The arithmetic that the mini-batch sampler does with the batch size:
    [1./x], [math.ceil(x)], [x * n] for an int [n], [int(x)], and [a / b]
    for ints [a] and [b]. *)
Class BatchArith (num : Type) : Type := mkBatchArith {
  inverse : num → py_result num;
  ceiling : num → py_result Z;
  times : num → Z → num;
  truncate : num → py_result Z;
  ratio : Z → Z → py_result num
}.

(** The arithmetic of the program: binary64. *)
#[global] Instance float_arith : BatchArith float :=
  {| inverse := py_inverse;
     ceiling := PyFloat.ceil;
     times x n := (x * PyFloat.of_Z n)%float;
     truncate := PyFloat.to_int;
     ratio := py_truediv |}.

(** The same operations on rational numbers, without rounding: the
    arithmetic the program approximates. *)
Definition exact_arith : BatchArith Q :=
  {| inverse x :=
       if Qeq_bool x 0 then Raises "ZeroDivisionError: float division by zero"
       else Returns (1 / x)%Q;
     ceiling x := Returns (Qceiling x);
     times x n := (x * inject_Z n)%Q;
     truncate x := Returns (if Qle_bool 0 x then Qfloor x else Qceiling x);
     ratio a b :=
       if (b =? 0)%Z then Raises "ZeroDivisionError: division by zero"
       else Returns (inject_Z a / inject_Z b)%Q |}.

(** [sample_mini_batch_no_replace(self, i)].  [permutation] is what
    [s.random.choice(range(N), size=N, replace=False)] returns if it is
    called. *)
Definition sample_mini_batch_no_replace {num : Type} `{!BatchArith num}
    (batch_size : num) (permutation : list Z) (self : sampler) (i : Z)
    : py_result (sampler * (list Z * Z)) :=
  let i := (i - 1)%Z in
  inv ← inverse batch_size;
  n_batches ← ceiling inv;
  let S := times batch_size (dim_N self) in
  batch_ix ← Training.py_mod i n_batches;
  q ← ratio i n_batches;
  epoch ← truncate q;
  let shuffled :=
    if (batch_ix =? 0)%Z then Some permutation else shuffled_ix self in
  min ← truncate (times S batch_ix);
  max ← truncate (times S (batch_ix + 1));
  let max := if (dim_N self <? max)%Z then dim_N self else max in
  match shuffled with
  | None => Raises "AttributeError: 'StochasticBayesNet' object has no attribute 'shuffled_ix'"
  | Some l =>
      let ix := py_slice l min max in
      Returns ({| dim_N := dim_N self; shuffled_ix := Some l;
                  mini_batch := Some ix |}, (ix, epoch))
  end.

(** Consecutive calls with the arguments [args], each given the permutation
    the generator holds for it; the mini-batches are collected in order. *)
Fixpoint sample_all {num : Type} `{!BatchArith num} (batch_size : num)
    (permutation : Z → list Z) (self : sampler) (args : list Z)
    : py_result (list (list Z)) :=
  match args with
  | [] => Returns []
  | i :: rest =>
      '(self, (ix, _)) ←
        sample_mini_batch_no_replace batch_size (permutation i) self i;
      batches ← sample_all batch_size permutation self rest;
      Returns (ix :: batches)
  end.

(** [range(lo, lo + n)] *)
Definition zrange (lo : Z) (n : nat) : list Z :=
  (λ k, (lo + Z.of_nat k)%Z) <$> seq 0 n.

(** The mini-batches of the first epoch of a run over [N] samples: calls
    1 to [n_batches] on a fresh sampler. *)
Definition first_epoch {num : Type} `{!BatchArith num} (batch_size : num)
    (N : Z) (n_batches : nat) (permutation : list Z)
    : py_result (list (list Z)) :=
  sample_all batch_size (λ _, permutation)
    {| dim_N := N; shuffled_ix := None; mini_batch := None |}
    (zrange 1 n_batches).

(** In exact arithmetic, the position at which mini-batch [b] of an epoch
    starts: [int(S * b)] with [S = batch_size * N], capped at [N]. *)
Definition exact_cut (batch_size : Q) (N b : Z) : Z :=
  Z.min N (Qfloor (batch_size * inject_Z N * inject_Z b)).

(** The positions from one cut to the next. *)
Definition exact_chunk (batch_size : Q) (N : Z) (permutation : list Z)
    (b : Z) : list Z :=
  take (Z.to_nat (exact_cut batch_size N (b + 1) - exact_cut batch_size N b))
    (drop (Z.to_nat (exact_cut batch_size N b)) permutation).

(** [x ** y] for a float base and a fractional exponent, on a positive
    base.  With a zero base the quotient of [step_size2] divides by zero,
    and the power of a negative base is not a real number: the model stops
    in both cases. *)
Definition py_pow (x y : R) : py_result R :=
  if Rlt_dec 0 x then Returns (Rpower x y)
  else Raises "the base of the power is not positive".

(** [step_size2(self, i)] *)
Definition step_size2 (learning_rate forgetting_rate : R) (i : Z)
    : py_result R :=
  p ← py_pow (1 + forgetting_rate * IZR i) (3 / 4);
  Returns (learning_rate / p)%R.

(** A call [self.nodes[node].update(ix, ro)] *)
Record update_call : Type := mkCall {
  target : string;
  batch : option (list Z);
  rho : R
}.

Definition skipped (start_sparsity i : Z) (node : string) : Prop :=
  (node = "ThetaW" ∨ node = "ThetaZ") ∧ (i < start_sparsity)%Z.
#[global] Instance skipped_dec s i node : Decision (skipped s i node).
Proof. unfold skipped. apply _. Defined.

(** The update loop over the schedule in iteration [i]. *)
Definition scheduled_updates (opts : stochastic_options) (i : Z)
    (ix : option (list Z)) (ro : R) : list update_call :=
  (λ node, mkCall node ix ro)
    <$> filter (λ node, ¬ skipped (start_sparsity opts) i node) (schedule opts).

(** The head of the loop body of [StochasticBayesNet.iterate]: the
    mini-batch and the step size of iteration [i], and the update calls it
    makes.  [ix] is the variable of that name, [None] before the stochastic
    phase.  The pruning step that sits between the sampling and the updates
    reads neither [ix] nor [ro] and is not part of this view. *)
Definition stochastic_iteration (opts : stochastic_options)
    (permutation : list Z) (self : sampler) (ix : option (list Z)) (i : Z)
    : py_result (sampler * option (list Z) * R * list update_call) :=
  '(self, ix, ro) ←
    (if (start_stochastic opts <=? i)%Z then
       '(self, (ix, epoch)) ←
         sample_mini_batch_no_replace (batch_size opts) permutation self
           (i - (start_stochastic opts - 1))%Z;
       ro ← step_size2 (learning_rate opts) (forgetting_rate opts) epoch;
       Returns (self, Some ix, ro)
     else Returns (self, ix, 1%R));
  Returns (self, ix, ro, scheduled_updates opts i ix ro).

(** An example: half of four samples per mini-batch, the stochastic phase
    from iteration 2, the sparsity nodes from iteration 10. *)
Definition demo_opts : stochastic_options :=
  {| batch_size := 0.5; learning_rate := 1; forgetting_rate := 0.5;
     start_stochastic := 2; start_sparsity := 10;
     schedule := ["Y"; "W"; "ThetaW"; "Z"; "Tau"] |}.

Definition demo_sampler : sampler :=
  {| dim_N := 4; shuffled_ix := None; mini_batch := None |}.

End Stochastic.

(** ** Factor pruning: [calculate_variance_explained] and
    [removeInactiveFactors] *)

Module Pruning.

(** numpy arrays of float64, row by row.  The model is meant for arrays
    whose shapes agree with the dimension registry (where numpy would raise
    on a mismatch, the list operations below truncate). *)
Abbreviation matrix := (list (list float)).

(** One view [m]: the data [Y[m]] with its missing-value mask ([true] is
    missing) and the loadings [W[m]], one row per feature. *)
Record view : Type := mkView {
  Y_data : matrix;
  Y_mask : list (list bool);
  W_m : matrix
}.

(** What [calculate_variance_explained] collects from the nodes:
    [Z] (one row per sample), the views, and the group of every sample. *)
Record expectations : Type := mkExpectations {
  Z_E : matrix;
  views : list view;
  groups : list nat
}.

(** Rows [A[gg,:]] for the boolean index [gg = groups==g]. *)
Definition select_group {A : Type} (groups : list nat) (g : nat)
    (rows : list A) : list A :=
  (filter (λ p, p.1 = g) (zip groups rows)).*2.

(** numpy's sum of a contiguous float64 array, in the order in which its
    inner loop adds: fewer than eight entries are added from left to right;
    up to 128 entries are added as eight interleaved partial sums, which
    are combined in pairs and followed by the entries past the last full
    block of eight; a longer array is split in two, the first part a
    multiple of eight long, and the sums of the parts are added. *)
Definition sum_left (res : float) (a : list float) : float :=
  fold_left PrimFloat.add a res.

Fixpoint add_blocks (r a : list float) (blocks : nat) : list float :=
  match blocks with
  | O => r
  | S blocks =>
      add_blocks (zip_with PrimFloat.add r (take 8 a)) (drop 8 a) blocks
  end.

Definition sum_unrolled (a : list float) : float :=
  let n := length a in
  let r := add_blocks (take 8 a) (drop 8 a) (n / 8 - 1) in
  let res := (((r !!! 0%nat + r !!! 1%nat) + (r !!! 2%nat + r !!! 3%nat))
              + ((r !!! 4%nat + r !!! 5%nat) + (r !!! 6%nat + r !!! 7%nat)))%float in
  sum_left res (drop (n - n mod 8) a).

(** [fuel] bounds the depth of the splitting; the length of the array is
    enough. *)
Fixpoint pairwise_sum (fuel : nat) (a : list float) : float :=
  let n := length a in
  if (n <? 8)%nat then sum_left 0%float a
  else if (n <=? 128)%nat then sum_unrolled a
  else match fuel with
       | O => sum_unrolled a
       | S fuel =>
           let n2 := (n / 2)%nat in
           let n2 := (n2 - n2 mod 8)%nat in
           (pairwise_sum fuel (take n2 a) + pairwise_sum fuel (drop n2 a))%float
       end.

(** [a.sum()]: the reduction starts from the identity [0.]. *)
Definition np_sum (a : list float) : float :=
  (0 + pairwise_sum (length a) a)%float.

(** [.sum()] of a masked array given entry by entry: the masked entries
    are filled with [0.] and the array is summed as a whole, row after
    row. *)
Definition masked_sum (entries : list (list (float * bool))) : float :=
  np_sum
    (concat ((λ row : list (float * bool),
                (λ e, if e.2 : bool then 0%float else e.1) <$> row)
               <$> entries)).

(** [s.square(Y[m][gg,:]).sum()] *)
Definition SS (v : view) (groups : list nat) (g : nat) : float :=
  masked_sum
    (zip_with (zip_with (λ y b, ((y * y)%float, b)))
       (select_group groups g (Y_data v)) (select_group groups g (Y_mask v))).

(** [((Y[m][gg,:] - Ypred_mk)**2.).sum()] with
    [Ypred_mk = s.outer(Z[gg,k], W[m][:,k])] zeroed on the mask. *)
Definition Res (v : view) (Z : matrix) (groups : list nat) (g k : nat) : float :=
  let Wk := (λ w_row, w_row !!! k) <$> W_m v in
  let Zk := (λ z_row, z_row !!! k) <$> select_group groups g Z in
  let Ypred := (λ z, (λ w, (z * w)%float) <$> Wk) <$> Zk in
  let Ypred := zip_with (zip_with (λ p b, if b : bool then 0%float else p))
                 Ypred (select_group groups g (Y_mask v)) in
  let diff := zip_with (zip_with (λ y p, (y - p)%float))
                (select_group groups g (Y_data v)) Ypred in
  masked_sum
    (zip_with (zip_with (λ d b, ((d * d)%float, b)))
       diff (select_group groups g (Y_mask v))).

(** The value assigned to [r2[g][m,k]]. *)
Definition r2_value (e : expectations) (m g k : nat) : float :=
  match views e !! m with
  | Some v => (1 - Res v (Z_E e) (groups e) g k / SS v (groups e) g)%float
  | None => PrimFloat.nan
  end.

(** The list [r2 = [ s.zeros([M, K]) ] * G]: the multiplication of a list
    copies references, so the [G] entries of [r2] all point to the one
    array that [s.zeros] allocated.  [arrays] is the store of allocated
    arrays, [r2] the list of references into it. *)
Record r2_store : Type := mkStore {
  arrays : list matrix;
  r2 : list nat
}.

Definition r2_alloc (M K G : nat) : r2_store :=
  {| arrays := [replicate M (replicate K 0%float)];
     r2 := replicate G 0%nat |}.

(** [r2[g][m,k] = v] *)
Definition r2_assign (st : r2_store) (g m k : nat) (v : float) : r2_store :=
  match r2 st !! g with
  | Some a =>
      {| arrays := alter (alter (λ row, <[k := v]> row) m) a (arrays st);
         r2 := r2 st |}
  | None => st
  end.

(** The array [r2[g]], read through its reference. *)
Definition r2_get (st : r2_store) (g : nat) : matrix :=
  match r2 st !! g with
  | Some a => arrays st !!! a
  | None => []
  end.

(** [calculate_variance_explained]: the loops over [m], [g] and [k]. *)
Definition calculate_variance_explained (M K G : nat) (e : expectations)
    : r2_store :=
  fold_left (λ st m,
     fold_left (λ st g,
        fold_left (λ st k, r2_assign st g m k (r2_value e m g k))
          (seq 0 K) st)
       (seq 0 G) st)
    (seq 0 M) (r2_alloc M K G).

(** [s.where( (r2[g]>min_r2).sum(axis=0) == 0)[0]]: the columns of
    [r2[g]] with no entry above [min_r2]. *)
Definition inactive_columns (K : nat) (r2_g : matrix) (min_r2 : float)
    : list nat :=
  filter (λ k, Forall (λ row, PrimFloat.ltb min_r2 (row !!! k) = false) r2_g)
    (seq 0 K).

(** [set.intersection] applied to the sets of the arrays of [tmp], as a
    sorted list; with no group the call has no argument and raises. *)
Definition intersection (tmp : list (list nat)) : py_result (list nat) :=
  match tmp with
  | [] => Raises "TypeError: descriptor 'intersection' of 'set' object needs an argument"
  | first :: others =>
      Returns (filter (λ k, Forall (λ l, k ∈ l) others) first)
  end.

Section RemoveInactiveFactors.
Context {node : Type}.
(** [node.removeFactors(drop)] of the node classes. *)
Variable removeFactors : list nat → node → node.

(** [removeInactiveFactors(self, min_r2)].  [rnd] is the draw of
    [s.random.choice]: the candidate at position [rnd mod len] is chosen.
    The result is the registry and [self.dim['K']] after the call. *)
Definition removeInactiveFactors (M K G : nat) (e : expectations)
    (nodes : list (string * node)) (rnd : nat) (min_r2 : option float)
    : py_result (list (string * node) * nat * list nat) :=
  drop ←
    match min_r2 with
    | Some min_r2 =>
        let st := calculate_variance_explained M K G e in
        let tmp := (λ g, inactive_columns K (r2_get st g) min_r2) <$> seq 0 G in
        candidates ← intersection tmp;
        Returns (if decide (0 < length candidates)%nat
                 then [candidates !!! (rnd mod length candidates)%nat]
                 else candidates)
    | None => Raises "ValueError: need at least one array to concatenate"
    end;
  let nodes := if decide (0 < length drop)%nat
               then (λ p, (p.1, removeFactors drop p.2)) <$> nodes
               else nodes in
  let K := (K - length drop)%nat in
  if decide (K = 0%nat) then Exits else Returns (nodes, K, drop).

End RemoveInactiveFactors.

(** The per-group variance explained as the design document words it: one
    table per group, [R2 g m k = 1 - Res/SS] over the samples of group
    [g]. *)
Definition r2_per_group (e : expectations) (g m k : nat) : float :=
  r2_value e m g k.

(** A factor is eligible when, in every group and every view, its R2 is
    not above the threshold. *)
Definition eligible (M G : nat) (e : expectations) (min_r2 : float)
    (k : nat) : Prop :=
  ∀ g m, (g < G)%nat → (m < M)%nat →
    PrimFloat.ltb min_r2 (r2_per_group e g m k) = false.

(** Two samples in two groups, one view with one feature, two factors:
    factor 0 reproduces the sample of group 0, factor 1 the sample of
    group 1. *)
Definition two_groups : expectations :=
  {| Z_E := [[1; 0]; [0; 1]]%float;
     views := [ {| Y_data := [[1]; [1]]%float;
                   Y_mask := [[false]; [false]];
                   W_m := [[1; 1]]%float |} ];
     groups := [0; 1]%nat |}.

(** Nodes that only carry the labels of their factor axis. *)
Definition delete_positions (drop : list nat) (labels : list nat) : list nat :=
  (filter (λ p, p.1 ∉ drop) (imap (λ i x, (i, x)) labels)).*2.

End Pruning.

(** ** The noise-precision node: [TauD_Node] *)

#[global] Instance R_inhabited : Inhabited R := populate 0%R.

Module Tau.

(** numpy arrays of reals and of booleans, row by row. *)
Abbreviation rmatrix := (list (list R)).
Abbreviation bmatrix := (list (list bool)).

(** *** Array operations *)

Definition rsum (l : list R) : R := foldr Rplus 0%R l.

(** [s.sum(A)]: the sum of all entries. *)
Definition sum_all (A : rmatrix) : R := rsum (rsum <$> A).

(** Elementwise operations on arrays of one shape. *)
Definition map2 (f : R → R) (A : rmatrix) : rmatrix :=
  (λ row : list R, f <$> row) <$> A.
Definition zip2 {X Y Z : Type} (f : X → Y → Z) (A : list (list X))
    (B : list (list Y)) : list (list Z) :=
  zip_with (zip_with f) A B.

(** [A.dot(B.T)] *)
Definition dot (u v : list R) : R := rsum (zip_with Rmult u v).
Definition dot_T (A B : rmatrix) : rmatrix :=
  (λ a : list R, (λ b : list R, dot a b) <$> B) <$> A.

(** [A[mask] = 0.] *)
Definition zero_masked (A : rmatrix) (mask : bmatrix) : rmatrix :=
  zip2 (λ x (b : bool), if b then 0%R else x) A mask.

(** [square(A)] *)
Definition square (A : rmatrix) : rmatrix := map2 (λ x, x * x)%R A.

(** [A.sum(axis=0)] for an array with [D] columns. *)
Definition sum_axis0 (D : nat) (A : rmatrix) : list R :=
  foldr (zip_with Rplus) (replicate D 0%R) A.

(** [A + v] and the like: a vector broadcast over the rows of an array. *)
Definition broadcast (f : R → R → R) (A : rmatrix) (v : list R) : rmatrix :=
  (λ row, zip_with f row v) <$> A.

(** *** The node and its Markov blanket *)

(** The state that [precompute], [updateParameters] and [calculateELBO]
    read and write: the masked array stored by the observation node, the
    moments exposed by the loading and factor nodes, and the node's own
    prior, posterior and cached constants.  [lbconst] and [Qa_pre] are
    attributes that exist only once [precompute] has run. *)
Record world : Type := mkWorld {
  Y_data : rmatrix;
  Y_mask : bmatrix;
  W_E : rmatrix;
  W_E2 : rmatrix;
  Z_E : rmatrix;
  Z_E2 : rmatrix;
  P_a : rmatrix;
  P_b : rmatrix;
  Q_a : rmatrix;
  Q_b : rmatrix;
  Q_E : rmatrix;
  Q_lnE : rmatrix;
  lbconst : option R;
  Qa_pre : option rmatrix
}.

(** Modelled from the spec: [markov_blanket["Y"].getExpectation()] belongs
    to the observation node, whose class is not among the sources at hand.
    Nodes expose their stored expectations to their neighbours through
    non-owning references, without recomputation; the accessor is taken to
    return the masked array the node stores, so that its [.data] is the
    node's own buffer and [ma.getmask] its own mask. *)
Definition Y_getExpectation (w : world) : rmatrix * bmatrix :=
  (Y_data w, Y_mask w).

(** The number of features [D]: one row of [W] per feature. *)
Definition n_features (w : world) : nat := length (W_E w).

Section Gamma.
(** [scipy.special.gammaln] *)
Variable gammaln : R → R.

(** [precompute]: the ELBO constant of the prior and the shape of the
    posterior, [a_P + (N - number of masked entries per column)/2]. *)
Definition precompute (w : world) : world :=
  let '(Y, mask) := Y_getExpectation w in
  let lbconst :=
    sum_all (zip2 Rminus (zip2 Rmult (P_a w) (map2 ln (P_b w)))
               (map2 gammaln (P_a w))) in
  let N := INR (length Y) in
  let missing :=
    sum_axis0 (n_features w)
      ((λ row : list bool, (λ b : bool, if b then 1%R else 0%R) <$> row)
         <$> mask) in
  let Qa_pre :=
    broadcast Rplus (P_a w) ((λ c, (N - c) / 2)%R <$> missing) in
  {| Y_data := Y_data w; Y_mask := Y_mask w;
     W_E := W_E w; W_E2 := W_E2 w; Z_E := Z_E w; Z_E2 := Z_E2 w;
     P_a := P_a w; P_b := P_b w; Q_a := Q_a w; Q_b := Q_b w;
     Q_E := Q_E w; Q_lnE := Q_lnE w;
     lbconst := Some lbconst; Qa_pre := Some Qa_pre |}.

(** [calculateELBO] *)
Definition calculateELBO (w : world) : py_result R :=
  let '(Pa, Pb, Qa, Qb) := (P_a w, P_b w, Q_a w, Q_b w) in
  let '(QE, QlnE) := (Q_E w, Q_lnE w) in
  match lbconst w with
  | None => Raises "AttributeError: 'TauD_Node' object has no attribute 'lbconst'"
  | Some lbconst =>
      let lb_p := (lbconst + sum_all (zip2 Rmult (map2 (λ a, a - 1) Pa) QlnE)
                   - sum_all (zip2 Rmult Pb QE))%R in
      let lb_q := (sum_all (zip2 Rmult Qa (map2 ln Qb))
                   + sum_all (zip2 Rmult (map2 (λ a, a - 1) Qa) QlnE)
                   - sum_all (zip2 Rmult Qb QE)
                   - sum_all (map2 gammaln Qa))%R in
      Returns (lb_p - lb_q)%R
  end.

End Gamma.

(** The four terms of the update, as the code computes them: whole-array
    operations, each result summed over the samples. *)
Definition term1 (D : nat) (Y : rmatrix) : list R :=
  sum_axis0 D (square Y).

Definition term2 (D : nat) (ZZ WW : rmatrix) (mask : bmatrix) : list R :=
  sum_axis0 D (zero_masked (dot_T ZZ WW) mask).

Definition term3 (D : nat) (Z W ZW : rmatrix) (mask : bmatrix) : list R :=
  let t := zero_masked (dot_T (square Z) (square W)) mask in
  let t := Ropp <$> sum_axis0 D t in
  zip_with Rplus t (sum_axis0 D (square ZW)).

Definition term4 (D : nat) (ZW Y : rmatrix) : list R :=
  (λ x, 2 * x)%R <$> sum_axis0 D (zip2 Rmult ZW Y).

(** [updateParameters].  The array [Y] is the data buffer of the
    observation node, so [Y[mask] = 0.] is a write to that node. *)
Definition updateParameters (w : world) : py_result world :=
  let '(Y, mask) := Y_getExpectation w in
  let '(W, WW) := (W_E w, W_E2 w) in
  let '(Z, ZZ) := (Z_E w, Z_E2 w) in
  let '(Pa, Pb) := (P_a w, P_b w) in
  let D := n_features w in
  let Y := zero_masked Y mask in
  let ZW := zero_masked (dot_T Z W) mask in
  let tmp :=
    zip_with Rminus
      (zip_with Rplus (zip_with Rplus (term1 D Y) (term2 D ZZ WW mask))
         (term3 D Z W ZW mask))
      (term4 D ZW Y) in
  let Qb := broadcast Rplus Pb ((λ t, t / 2)%R <$> tmp) in
  match Qa_pre w with
  | None => Raises "AttributeError: 'TauD_Node' object has no attribute 'Qa_pre'"
  | Some Qa_pre =>
      Returns {| Y_data := Y; Y_mask := Y_mask w;
                 W_E := W_E w; W_E2 := W_E2 w; Z_E := Z_E w; Z_E2 := Z_E2 w;
                 P_a := P_a w; P_b := P_b w; Q_a := Qa_pre; Q_b := Qb;
                 Q_E := Q_E w; Q_lnE := Q_lnE w;
                 lbconst := lbconst w; Qa_pre := Some Qa_pre |}
  end.

(** [n] calls of [updateParameters] in a row. *)
Fixpoint updates (n : nat) (w : world) : py_result world :=
  match n with
  | O => Returns w
  | S n => w ← updateParameters w; updates n w
  end.

(** *** The update as the design document states it *)

(** [sum over n < N of f n] *)
Definition sum_n (N : nat) (f : nat → R) : R := rsum (f <$> seq 0 N).

(** The four terms for feature [d], as sums over the non-missing samples:
    squared observations; second moments of scores times second moments of
    loadings; the square of scores times loadings minus squared scores
    times squared loadings; twice scores times loadings times the
    observation. *)
Definition unmasked (w : world) (n d : nat) (x : R) : R :=
  if entry (Y_mask w) n d then 0%R else x.

Definition ZW_entry (w : world) (K n d : nat) : R :=
  sum_n K (λ k, entry (Z_E w) n k * entry (W_E w) d k)%R.

Definition spec_term1 (w : world) (N d : nat) : R :=
  sum_n N (λ n, unmasked w n d (entry (Y_data w) n d * entry (Y_data w) n d))%R.

Definition spec_term2 (w : world) (N K d : nat) : R :=
  sum_n N (λ n, unmasked w n d
     (sum_n K (λ k, entry (Z_E2 w) n k * entry (W_E2 w) d k)))%R.

Definition spec_term3 (w : world) (N K d : nat) : R :=
  sum_n N (λ n, unmasked w n d
     (ZW_entry w K n d * ZW_entry w K n d
      - sum_n K (λ k, (entry (Z_E w) n k * entry (Z_E w) n k)
                      * (entry (W_E w) d k * entry (W_E w) d k))))%R.

Definition spec_term4 (w : world) (N K d : nat) : R :=
  (2 * sum_n N (λ n, unmasked w n d (ZW_entry w K n d * entry (Y_data w) n d)))%R.

(** The number of non-missing observations of feature [d]. *)
Definition observed (w : world) (N d : nat) : R :=
  sum_n N (λ n, unmasked w n d 1).

(** [N] samples, [D] features and [K] factors; the prior holds one value
    per feature in each of its [rows] rows. *)
Definition well_shaped (N D K rows : nat) (w : world) : Prop :=
  shape N D (Y_data w) ∧ shape N D (Y_mask w) ∧
  shape D K (W_E w) ∧ shape D K (W_E2 w) ∧
  shape N K (Z_E w) ∧ shape N K (Z_E2 w) ∧
  shape rows D (P_a w) ∧ shape rows D (P_b w).

(** What a reader that honours the mask sees of the observations. *)
Definition visible (w : world) : list (list (option R)) :=
  zip2 (λ x (b : bool), if b then None else Some x) (Y_data w) (Y_mask w).

(** The frame property as the design document states it for this node: an
    update leaves the observation node's stored data, and the parameters
    and expectations of every neighbour, as they were. *)
Definition update_leaves_neighbours : Prop :=
  ∀ w w', updateParameters w = Returns w' →
    Y_data w' = Y_data w ∧ Y_mask w' = Y_mask w ∧
    W_E w' = W_E w ∧ W_E2 w' = W_E2 w ∧ Z_E w' = Z_E w ∧ Z_E2 w' = Z_E2 w.

(** *** The ELBO as the design document states it *)

(** [sum over r < rows and d < D of f r d] *)
Definition sum_entries (rows D : nat) (f : nat → nat → R) : R :=
  sum_n rows (λ r, sum_n D (λ d, f r d)).

(** The constant of the prior: the sum over the entries of
    [a_P * log b_P - lnGamma(a_P)]. *)
Definition spec_lbconst (gammaln : R → R) (w : world) (rows D : nat) : R :=
  sum_entries rows D
    (λ r d, entry (P_a w) r d * ln (entry (P_b w) r d)
            - gammaln (entry (P_a w) r d))%R.

(** [lb_p = lbconst + sum((a_P - 1) * E[ln tau]) - sum(b_P * E[tau])] *)
Definition spec_lb_p (w : world) (rows D : nat) (lbconst : R) : R :=
  (lbconst
   + sum_entries rows D
       (λ r d, (entry (P_a w) r d - 1) * entry (Q_lnE w) r d)
   - sum_entries rows D (λ r d, entry (P_b w) r d * entry (Q_E w) r d))%R.

(** [lb_q = sum(a_Q * log b_Q) + sum((a_Q - 1) * E[ln tau])
            - sum(b_Q * E[tau]) - sum(lnGamma(a_Q))] *)
Definition spec_lb_q (gammaln : R → R) (w : world) (rows D : nat) : R :=
  (sum_entries rows D (λ r d, entry (Q_a w) r d * ln (entry (Q_b w) r d))
   + sum_entries rows D
       (λ r d, (entry (Q_a w) r d - 1) * entry (Q_lnE w) r d)
   - sum_entries rows D (λ r d, entry (Q_b w) r d * entry (Q_E w) r d)
   - sum_entries rows D (λ r d, gammaln (entry (Q_a w) r d)))%R.

(** The arrays that [calculateELBO] reads hold one value per feature in
    each of their [rows] rows, and the rates are positive, so that [log]
    is the logarithm. *)
Definition elbo_shaped (rows D : nat) (w : world) : Prop :=
  shape rows D (P_a w) ∧ shape rows D (P_b w) ∧
  shape rows D (Q_a w) ∧ shape rows D (Q_b w) ∧
  shape rows D (Q_E w) ∧ shape rows D (Q_lnE w) ∧
  ∀ r d, (r < rows)%nat → (d < D)%nat →
    (0 < entry (P_b w) r d)%R ∧ (0 < entry (Q_b w) r d)%R.

(** The posterior has the parameters of the prior. *)
Definition equal_parameters (rows D : nat) (w : world) : Prop :=
  ∀ r d, (r < rows)%nat → (d < D)%nat →
    entry (Q_a w) r d = entry (P_a w) r d ∧
    entry (Q_b w) r d = entry (P_b w) r d.

(** [lnGamma] at the positive integers, [lnGamma(n) = ln((n-1)!)]: the
    values of [scipy.special.gammaln] that the example below needs. *)
Definition ln_factorial (x : R) : R :=
  ln (INR (fact (Z.to_nat (Int_part x) - 1))).

(** A node with two features whose posterior has the parameters of the
    prior: shapes 3 and 4, rates 2 and 5, and expectations [E = a/b]. *)
Definition demo_elbo_node : world :=
  {| Y_data := [[2; 1]; [5; 0]]%R; Y_mask := [[false; false]; [true; false]];
     W_E := [[1]; [2]]%R; W_E2 := [[2]; [5]]%R;
     Z_E := [[1]; [3]]%R; Z_E2 := [[2]; [10]]%R;
     P_a := [[3; 4]]%R; P_b := [[2; 5]]%R;
     Q_a := [[3; 4]]%R; Q_b := [[2; 5]]%R;
     Q_E := [[3 / 2; 4 / 5]]%R; Q_lnE := [[1 / 4; - (1 / 2)]]%R;
     lbconst := None; Qa_pre := None |}.

(** Two samples, one feature, one factor; the observation of the second
    sample is missing and its buffer entry holds 5. *)
Definition demo : world :=
  {| Y_data := [[2]; [5]]%R; Y_mask := [[false]; [true]];
     W_E := [[1]]%R; W_E2 := [[2]]%R;
     Z_E := [[1]; [3]]%R; Z_E2 := [[2]; [10]]%R;
     P_a := [[1]]%R; P_b := [[1]]%R; Q_a := [[1]]%R; Q_b := [[1]]%R;
     Q_E := [[1]]%R; Q_lnE := [[0]]%R;
     lbconst := None; Qa_pre := None |}.

End Tau.


(** ** The full-batch run: pruning schedule and update schedule of
    [BayesNet.iterate] *)

Module Run.

(** The options the pruning and the update schedule of [iterate] read:
    [start_drop], [freq_drop], [drop["min_r2"]], [schedule] and
    [start_sparsity]. *)
Record run_options : Type := mkRunOptions {
  start_drop : Z;
  freq_drop : Z;
  drop_min_r2 : option float;
  schedule : list string;
  start_sparsity : Z
}.

(** [a[j] = v] on a one-dimensional numpy array, negative positions
    counted from the end. *)
Definition np_set {A : Type} (a : list A) (j : Z) (v : A)
    : py_result (list A) :=
  let n := Z.of_nat (length a) in
  if ((0 <=? j) && (j <? n))%Z then Returns (<[Z.to_nat j := v]> a)
  else if ((- n <=? j) && (j <? 0))%Z then Returns (<[Z.to_nat (n + j) := v]> a)
  else Raises "IndexError: index is out of bounds".

(** What the loop of [iterate] works on besides the ELBO ledger:
    [self.dim['K']], the registry [self.nodes], and the local array
    [number_factors], whose entries are NaN ([None]) or a factor count. *)
Record world (node : Type) : Type := mkWorld {
  dim_K : nat;
  registry : list (string * node);
  number_factors : list (option nat)
}.
Arguments mkWorld {node} _ _ _.
Arguments dim_K {node} _.
Arguments registry {node} _.
Arguments number_factors {node} _.

Section Run.
Context {node : Type}.
(** [node.removeFactors(drop)] of the node classes. *)
Variable removeFactors : list nat → node → node.
(** What [calculate_variance_explained] collects from the nodes [Z], [W],
    [Y] and [AlphaZ]. *)
Variable expectations_of : list (string * node) → Pruning.expectations.
(** [self.nodes[name].update()]: the update of one node, which reads (and
    may write) the nodes of its Markov blanket. *)
Variable update : string → list (string * node)
                  → py_result (list (string * node)).
(** [self.precompute()]: the set-up of the nodes and the ["total"] of the
    ELBO record that the call returns. *)
Variable precompute : list (string * node)
                      → py_result (list (string * node) * float).
(** [self.calculateELBO()["total"]] *)
Variable calculateELBO_total : list (string * node) → py_result float.
(** The draw of [s.random.choice] in iteration [i]. *)
Variable rnd : Z → nat.
(** [self.dim['M']] and [self.dim['G']] *)
Variables M G : nat.
Variable o : run_options.

(** The first block of the loop body: [removeInactiveFactors] when a
    threshold is set, then [number_factors[i] = self.dim["K"]]. *)
Definition prune (i : Z) (w : world node) : py_result (world node) :=
  if (start_drop o <=? i)%Z then
    r ← Training.py_mod i (freq_drop o);
    if (r =? 0)%Z then
      w ← match drop_min_r2 o with
           | Some min_r2 =>
               '(nodes, K, _) ←
                 Pruning.removeInactiveFactors removeFactors M (dim_K w) G
                   (expectations_of (registry w)) (registry w) (rnd i)
                   (Some min_r2);
               Returns (mkWorld K nodes (number_factors w))
           | None => Returns w
           end;
      nf ← np_set (number_factors w) i (Some (dim_K w));
      Returns (mkWorld (dim_K w) (registry w) nf)
    else Returns w
  else Returns w.

(** The second block: the nodes of the schedule are updated in order,
    [ThetaW] and [ThetaZ] only from [start_sparsity] on. *)
Fixpoint update_schedule (names : list string) (i : Z)
    (nodes : list (string * node)) : py_result (list (string * node)) :=
  match names with
  | [] => Returns nodes
  | name :: rest =>
      if decide ((name = "ThetaW" ∨ name = "ThetaZ") ∧ (i < start_sparsity o)%Z)
      then update_schedule rest i nodes
      else nodes ← update name nodes; update_schedule rest i nodes
  end.

(** The updates of the nodes [names], one after the other. *)
Fixpoint update_each (names : list string) (nodes : list (string * node))
    : py_result (list (string * node)) :=
  match names with
  | [] => Returns nodes
  | name :: rest => nodes ← update name nodes; update_each rest nodes
  end.

Definition prune_and_update (i : Z) (w : world node)
    : py_result (world node) :=
  w ← prune i w;
  nodes ← update_schedule (schedule o) i (registry w);
  Returns (mkWorld (dim_K w) nodes (number_factors w)).

(** [iterate] of a quiet run, with the bookkeeping of [number_factors]:
    allocated as [maxiter+1] NaN entries, entry 0 set to [K] after the
    precomputation, cut to its first [i] entries on convergence at
    iteration [i].  Row 0 of the ledger is the record that [precompute]
    returns. *)
Definition iterate (opts : Training.train_options) (K : nat)
    (nodes : list (string * node))
    : py_result (Training.loop_state (world node) * option Z) :=
  if (Training.maxiter opts + 1 <? 0)%Z
  then Raises "ValueError: negative dimensions are not allowed"
  else
    let rows := Z.to_nat (Training.maxiter opts + 1) in
    let col := replicate rows PrimFloat.nan in
    let nf := replicate rows None in
    '(nodes, total_0) ← precompute nodes;
    col ← Training.iloc_set col 0 total_0;
    nf ← np_set nf 0 (Some K);
    '(st, converged) ←
      Training.loop prune_and_update
        (λ w, calculateELBO_total (registry w)) opts
        (Training.iterations (Training.maxiter opts))
        (Training.mkState (mkWorld K nodes nf) col 1%Z);
    match converged with
    | Some i =>
        let w := Training.nodes st in
        Returns (Training.mkState
                   (mkWorld (dim_K w) (registry w)
                      (take (Z.to_nat i) (number_factors w)))
                   (Training.elbo st) (Training.convergence_token st),
                 Some i)
    | None => Returns (st, None)
    end.

(** Whether iteration [i] is one in which factors may be dropped. *)
Definition drop_iteration (i : Z) : bool :=
  (start_drop o <=? i)%Z && negb (freq_drop o =? 0)%Z
  && (i mod freq_drop o =? 0)%Z.

End Run.

(** The update passes of a run, one after the other. *)
Fixpoint passes {world : Type} (pass : Z → world → py_result world)
    (todo : list Z) (w : world) : py_result world :=
  match todo with
  | [] => Returns w
  | i :: rest => w ← pass i w; passes pass rest w
  end.

(** The iterations a run has made when it stops: all of
    [range(1, maxiter)], or those up to the one that converged. *)
Definition iterations_made (maxiter : Z) (converged : option Z) : list Z :=
  match converged with
  | Some i => Training.iterations (i + 1)
  | None => Training.iterations maxiter
  end.

(** An example: two views' worth of data as in [Pruning.two_groups], a
    pruning step at every third iteration from the third on, and nodes
    that are lists of factor labels which the updates leave as they are. *)
Definition demo_options : run_options :=
  {| start_drop := 3; freq_drop := 3; drop_min_r2 := Some 0.5%float;
     schedule := ["Z"; "ThetaW"; "W"]; start_sparsity := 4 |}.

Definition demo_train_options : Training.train_options :=
  {| Training.maxiter := 6; Training.start_elbo := 1; Training.elbofreq := 1;
     Training.forceiter := true; Training.convergence_mode := "fast" |}.

Definition demo_run
    : py_result (Training.loop_state (world (list nat)) * option Z) :=
  iterate Pruning.delete_positions (λ _, Pruning.two_groups)
    (λ _ nodes, Returns nodes) (λ nodes, Returns (nodes, (-10)%float))
    (λ _, Returns (-10)%float) (λ _, 0%nat) 1 2 demo_options
    demo_train_options 2 [("Z", [0; 1]%nat); ("W", [0; 1]%nat)].

(** A run whose ELBO record before training has a total of zero, while
    every later ELBO is -5, with the options of [Training.demo_opts]. *)
Definition flat_run : py_result (Training.loop_state nat * option Z) :=
  Training.iterate (λ w, Returns (w, 0%float)) (λ _ w, Returns (S w))
    (λ _, Returns (-5)%float) Training.demo_opts 0%nat.

(** A run in which the record that [precompute] returns has a total of
    -100, while [calculateELBO] on the nodes as [precompute] leaves them
    would give -90; the ELBO is -50 after one pass and -40 from the second
    pass on.  The options are those of [Training.plateau_opts]. *)
Definition offset_precompute (w : nat) : py_result (nat * float) :=
  Returns (w, (-100)%float).

Definition offset_elbo (w : nat) : py_result float :=
  Returns (match w with
           | 0%nat => (-90)%float
           | 1%nat => (-50)%float
           | _ => (-40)%float
           end).

Definition offset_run : py_result (Training.loop_state nat * option Z) :=
  Training.iterate offset_precompute (λ _ w, Returns (S w)) offset_elbo
    Training.plateau_opts 0%nat.

(** The state the example run ends in: factor 0 was dropped in
    iteration 3. *)
Definition demo_final : Training.loop_state (world (list nat)) :=
  {| Training.nodes :=
       {| dim_K := 1; registry := [("Z", [1%nat]); ("W", [1%nat])];
          number_factors := [Some 2%nat; None; None; Some 1%nat;
                             None; None; None] |};
     Training.elbo := [-10; -10; -10; -10; -10; -10; PrimFloat.nan]%float;
     Training.convergence_token := 1 |}.

End Run.


(** ** Other methods of [StochasticBayesNet]: [step_size],
    [sample_mini_batch] and [define_mini_batch] *)

Module Sampling.
Import Stochastic.

(** [step_size(self, i)] *)
Definition step_size (learning_rate forgetting_rate : R) (i : Z)
    : py_result R :=
  py_pow (IZR i + learning_rate) (- forgetting_rate).

(** [s.random.choice(range(N), size=S, replace=False)]: the first [S]
    entries of the permutation of [range(N)] that the generator draws. *)
Definition choice_no_replace (N S : Z) (permutation : list Z)
    : py_result (list Z) :=
  if (S <? 0)%Z then Raises "ValueError: negative dimensions are not allowed"
  else if (N <? S)%Z
  then Raises "ValueError: Cannot take a larger sample than population when 'replace=False'"
  else Returns (take (Z.to_nat S) permutation).

(** [sample_mini_batch(self)] *)
Definition sample_mini_batch {num : Type} `{!BatchArith num}
    (batch_size : num) (permutation : list Z) (self : sampler)
    : py_result (sampler * list Z) :=
  S ← truncate (times batch_size (dim_N self));
  ix ← choice_no_replace (dim_N self) S permutation;
  Returns ({| dim_N := dim_N self; shuffled_ix := shuffled_ix self;
              mini_batch := Some ix |}, ix).

Section DefineMiniBatch.
Context {node : Type}.
(** [node.define_mini_batch(ix)] of the node classes. *)
Variable node_define_mini_batch : list Z → node → node.

(** [self.nodes[name].define_mini_batch(ix)] *)
Definition define_on (nodes : gmap string node) (name : string)
    (ix : list Z) : py_result (gmap string node) :=
  match nodes !! name with
  | Some n => Returns (<[name := node_define_mini_batch ix n]> nodes)
  | None => Raises "KeyError"
  end.

(** [if name in self.nodes: self.nodes[name].define_mini_batch(ix)] *)
Definition define_if_present (nodes : gmap string node) (name : string)
    (ix : list Z) : gmap string node :=
  match nodes !! name with
  | Some n => <[name := node_define_mini_batch ix n]> nodes
  | None => nodes
  end.

(** [define_mini_batch(self, ix)] *)
Definition define_mini_batch (nodes : gmap string node) (ix : list Z)
    : py_result (gmap string node) :=
  nodes ← define_on nodes "Y" ix;
  nodes ← define_on nodes "Tau" ix;
  let nodes := define_if_present nodes "AlphaZ" ix in
  Returns (define_if_present nodes "ThetaZ" ix).

End DefineMiniBatch.

(** The nodes that are given the mini-batch. *)
Definition batched_nodes : list string := ["Y"; "Tau"; "AlphaZ"; "ThetaZ"].

(** An example registry: each node holds the mini-batch it was last
    given. *)
Definition demo_nodes : gmap string (option (list Z)) :=
  list_to_map [("Y", None); ("W", None); ("Z", None); ("Tau", None);
               ("ThetaZ", None); ("ThetaW", None)].

End Sampling.


(** ** The noise-precision node in use *)

Module TauUse.
Import Tau.

(** What [updateParameters] reads of its surroundings, the observations
    as a reader that honours the mask sees them. *)
Definition update_inputs (w : world) :=
  (visible w, Y_mask w, (W_E w, W_E2 w), (Z_E w, Z_E2 w), (P_a w, P_b w),
   Qa_pre w).

(** The example node with other values at the missing position and in
    the posterior. *)
Definition demo_other : world :=
  {| Y_data := [[2]; [-7]]%R; Y_mask := [[false]; [true]];
     W_E := [[1]]%R; W_E2 := [[2]]%R;
     Z_E := [[1]; [3]]%R; Z_E2 := [[2]; [10]]%R;
     P_a := [[1]]%R; P_b := [[1]]%R; Q_a := [[4]]%R; Q_b := [[9]]%R;
     Q_E := [[1]]%R; Q_lnE := [[0]]%R;
     lbconst := None; Qa_pre := None |}.

End TauUse.


(** ** Accessors of the network: [getParameters] and [getExpectations] *)

Module Accessors.

Section Accessors.
Context {node parameters moments : Type}.
(** [node.getParameters()]; [None] when the node returns [None]. *)
Variable node_getParameters : node → option parameters.
(** [node.getExpectation()] and [node.getExpectations()] *)
Variable node_getExpectation : node → moments.
Variable node_getExpectations : node → moments.

(** The loop of [getParameters] over the names, filling [params]. *)
Fixpoint collect_parameters (nodes : gmap string node) (names : list string)
    (params : gmap string parameters)
    : py_result (gmap string parameters) :=
  match names with
  | [] => Returns params
  | name :: rest =>
      match nodes !! name with
      | None => Raises "KeyError"
      | Some n =>
          let params := match node_getParameters n with
                        | Some tmp => <[name := tmp]> params
                        | None => params
                        end in
          collect_parameters nodes rest params
      end
  end.

(** [getParameters(self, *nodes)]; [names] is the argument tuple. *)
Definition getParameters (nodes : gmap string node) (names : list string)
    : py_result (gmap string parameters) :=
  let names := if decide (length names = 0%nat)
               then (map_to_list nodes).*1 else names in
  collect_parameters nodes names ∅.

(** The loop of [getExpectations]. *)
Fixpoint collect_expectations (only_first_moments : bool)
    (nodes : gmap string node) (names : list string)
    (expectations : gmap string moments) : py_result (gmap string moments) :=
  match names with
  | [] => Returns expectations
  | name :: rest =>
      match nodes !! name with
      | None => Raises "KeyError"
      | Some n =>
          let tmp := if only_first_moments then node_getExpectation n
                     else node_getExpectations n in
          collect_expectations only_first_moments nodes rest
            (<[name := tmp]> expectations)
      end
  end.

(** [getExpectations(self, only_first_moments, *nodes)] *)
Definition getExpectations (only_first_moments : bool)
    (nodes : gmap string node) (names : list string)
    : py_result (gmap string moments) :=
  let names := if decide (length names = 0%nat)
               then (map_to_list nodes).*1 else names in
  collect_expectations only_first_moments nodes names ∅.

End Accessors.

(** An example registry: a node is its parameter, if it has one. *)
Definition demo_nodes : gmap string (option Z) :=
  list_to_map [("Y", None); ("W", Some 3%Z); ("Z", Some 5%Z)].

End Accessors.

(** ** Set-up of a run: [BayesNet.precompute] *)

Module Precompute.
Import TrainOptions.

(** Python truth of an option value. *)
Definition truthy (v : pyval) : bool :=
  match v with
  | PInt z => negb (z =? 0)%Z
  | PFloat f => negb (PrimFloat.eqb f 0)
  | PBool b => b
  | PStr s => negb (bool_decide (s = ""))
  | PSchedule names => negb (bool_decide (names = []))
  | PDrop _ => true
  end.

(** [self.options[key]] *)
Definition options_get (options : option (gmap string pyval)) (key : string)
    : py_result pyval :=
  match options with
  | None => Raises "TypeError: 'NoneType' object is not subscriptable"
  | Some d => match d !! key with
              | Some v => Returns v
              | None => Raises "KeyError"
              end
  end.

(** The network as [precompute] sees it: the options, the [TauTrick]
    attribute of each view of the node ["Y"] ([None] when no node ["Y"] is
    registered), and the state of the nodes. *)
Record net (world : Type) : Type := mkNet {
  options : option (gmap string pyval);
  tau_trick : option (list pyval);
  inner : world
}.
Arguments mkNet {world} _ _ _.
Arguments options {world} _.
Arguments tau_trick {world} _.
Arguments inner {world} _.

Section Precompute.
Context {world record : Type}.
(** The loop [self.nodes[n].precompute(self.options)] over the nodes. *)
Variable node_precompute : option (gmap string pyval) → world
                           → py_result world.
(** [self.calculateELBO()], which reads the [TauTrick] attributes of the
    views. *)
Variable calculateELBO : list pyval → world → py_result record.

(** [for node in ...: node.TauTrick = self.options["Y_ELBO_TauTrick"]] *)
Fixpoint set_tau_trick (options : option (gmap string pyval))
    (views : list pyval) : py_result (list pyval) :=
  match views with
  | [] => Returns []
  | _ :: rest =>
      v ← options_get options "Y_ELBO_TauTrick";
      rest ← set_tau_trick options rest;
      Returns (v :: rest)
  end.

(** [precompute(self)]; the printing reads [verbose] and, when that is
    false, [quiet]. *)
Definition precompute (self : net world) : py_result (net world * record) :=
  inner ← node_precompute (options self) (inner self);
  views ← match tau_trick self with
           | Some views => Returns views
           | None => Raises "KeyError"
           end;
  let views := (λ _, PBool false) <$> views in
  elbo ← calculateELBO views inner;
  views ← set_tau_trick (options self) views;
  verbose ← options_get (options self) "verbose";
  _ ← (if truthy verbose then Returns (PBool true)
       else options_get (options self) "quiet");
  Returns (mkNet (options self) (Some views) inner, elbo).

End Precompute.

(** An example: two views, complete options with [Y_ELBO_TauTrick] set;
    the nodes count the precomputations and the ELBO tells whether
    [TauTrick] is off on every view. *)
Definition demo_net : net nat :=
  {| options := Some (<["Y_ELBO_TauTrick" := PBool true]> full_opts);
     tau_trick := Some [PBool true; PBool false];
     inner := 0%nat |}.

Definition demo_elbo (views : list pyval) (w : nat) : py_result float :=
  Returns (if forallb (λ v, negb (truthy v)) views
           then (-100)%float else (-1)%float).

End Precompute.

(** * Properties *)

Lemma bind_Returns {A B : Type} (r : py_result A) (k : A → py_result B) (b : B) :
  r ≫= k = Returns b → ∃ a, r = Returns a ∧ k a = Returns b.
Proof. destruct r as [a| |]; [|discriminate..]. intros H. by exists a. Qed.

Lemma bind_ret {A B : Type} (a : A) (k : A → py_result B) :
  Returns a ≫= k = k a.
Proof. reflexivity. Qed.

Tactic Notation "inv_bind" hyp(H) "as" ident(a) ident(Ha) :=
  apply bind_Returns in H as (a & Ha & H).

(** ** Arrays *)

Lemma shape_row {X : Type} `{!Inhabited X} (n m : nat) (A : list (list X))
    (i : nat) :
  shape n m A → (i < n)%nat → length (A !!! i) = m.
Proof.
  intros [Hlen Hrows] Hi.
  rewrite Forall_lookup in Hrows. apply (Hrows i).
  apply list_lookup_lookup_total_lt. lia.
Qed.

(** ** Training options *)

Section TrainOptionsProperties.
Import TrainOptions.

Lemma run_asserts_returns (checks : list (string * string))
    (train_opts : gmap string pyval) :
  (∀ k, k ∈ checks.*1 → is_Some (train_opts !! k)) →
  run_asserts checks train_opts = Returns tt.
Proof.
  induction checks as [|[k msg] rest IH]; intros Hall; [reflexivity|].
  simpl. destruct (Hall k) as [v ->]; [left|].
  apply IH. intros k' Hk'. apply Hall. right. exact Hk'.
Qed.

Lemma run_asserts_raises (checks : list (string * string))
    (train_opts : gmap string pyval) (k : string) :
  k ∈ checks.*1 → train_opts !! k = None →
  ∃ msg, run_asserts checks train_opts = Raises msg.
Proof.
  induction checks as [|[k' msg] rest IH]; intros Hin Hnone.
  - inversion Hin.
  - simpl. destruct (train_opts !! k') as [v|] eqn:Hk'; [|by eexists].
    apply IH; [|exact Hnone].
    apply elem_of_cons in Hin as [->|Hin]; [|exact Hin].
    simpl in Hnone. congruence.
Qed.

(** C9, as amended.  [setTrainOptions] raises an [AssertionError] when one
    of the twelve keys it asserts is missing from the dictionary, and
    otherwise stores the dictionary as the options of the network; the
    asserted keys are [maxiter], [start_drop], [freq_drop], [verbose],
    [quiet], [tolerance], [convergence_mode], [forceiter], [schedule],
    [start_sparsity], [gpu_mode] and [start_elbo], so the presence of
    [elbofreq], [drop] and [stochastic] is not checked. *)
Theorem setTrainOptions_asserted_keys (self : BayesNet)
    (train_opts : gmap string pyval) :
  asserted_keys =
    [ "maxiter"; "start_drop"; "freq_drop"; "verbose"; "quiet"; "tolerance";
      "convergence_mode"; "forceiter"; "schedule"; "start_sparsity";
      "gpu_mode"; "start_elbo" ] ∧
  ((∃ k, k ∈ asserted_keys ∧ train_opts !! k = None) →
     ∃ msg, setTrainOptions self train_opts = Raises msg) ∧
  ((∀ k, k ∈ asserted_keys → is_Some (train_opts !! k)) →
     ∃ net, setTrainOptions self train_opts = Returns net ∧
            options net = Some train_opts ∧ dim net = dim self).
Proof.
  split; [reflexivity|]. split.
  - intros (k & Hk & Hnone).
    destruct (run_asserts_raises sanity_checks train_opts k Hk Hnone)
      as [msg Hmsg].
    exists msg. unfold setTrainOptions. rewrite Hmsg. reflexivity.
  - intros Hall. eexists. unfold setTrainOptions.
    rewrite (run_asserts_returns _ _ Hall). simpl. eauto.
Qed.

(** C9 as stated fails: a dictionary that lacks [elbofreq] (one of the
    keys the design document lists) is accepted. *)
Lemma setTrainOptions_accepts_missing_elbofreq :
  ¬ (∀ (self : BayesNet) (train_opts : gmap string pyval) (k : string),
       k ∈ spec_required_keys → train_opts !! k = None →
       ∃ msg, setTrainOptions self train_opts = Raises msg).
Proof.
  intros Hclaim.
  destruct (Hclaim (init ∅) (delete "elbofreq" full_opts) "elbofreq")
    as [msg Hmsg].
  - apply list_elem_of_In. simpl. tauto.
  - apply lookup_delete_eq.
  - vm_compute in Hmsg. discriminate Hmsg.
Qed.

End TrainOptionsProperties.

(** ** Convergence monitor *)

Section ConvergenceProperties.
Import Convergence.

Lemma assess_convergence_step (mode : string) (thr delta_elbo first_elbo : float)
    (token : Z) :
  convergence_threshold mode = Some thr →
  assess_convergence mode delta_elbo first_elbo token =
    Returns (if PrimFloat.ltb (relDelta delta_elbo first_elbo) thr
             then ((token + 1)%Z, (token + 1 =? 5)%Z)
             else (1%Z, false)).
Proof.
  intros Hthr. unfold assess_convergence. rewrite Hthr.
  destruct (PrimFloat.ltb _ _); reflexivity.
Qed.

Lemma assess_convergence_unrecognised (mode : string)
    (delta_elbo first_elbo : float) (token : Z) :
  mode ≠ "fast" → mode ≠ "medium" → mode ≠ "slow" →
  assess_convergence mode delta_elbo first_elbo token = Exits.
Proof.
  intros Hf Hm Hs. unfold assess_convergence, convergence_threshold.
  repeat case_decide; congruence.
Qed.

Lemma feed_cons (mode : string) (first_elbo d : float) (rest : list float)
    (token : Z) :
  is_Some (convergence_threshold mode) →
  feed mode first_elbo (d :: rest) token =
    if below mode first_elbo d
    then if (token + 1 =? 5)%Z then Returns (Some 1%nat)
         else k ← feed mode first_elbo rest (token + 1)%Z;
              Returns (option_map S k)
    else k ← feed mode first_elbo rest 1%Z; Returns (option_map S k).
Proof.
  intros [thr Hthr]. simpl.
  rewrite (assess_convergence_step _ _ _ _ _ Hthr).
  unfold below. rewrite Hthr.
  destruct (PrimFloat.ltb _ _); reflexivity.
Qed.

(** With a recognised mode the feed never exits or raises. *)
Lemma feed_returns (mode : string) (first_elbo : float) (deltas : list float) :
  is_Some (convergence_threshold mode) →
  ∀ token, ∃ r, feed mode first_elbo deltas token = Returns r.
Proof.
  intros Hmode. induction deltas as [|d rest IH]; intros token.
  - by eexists.
  - rewrite feed_cons by exact Hmode.
    destruct (below mode first_elbo d).
    + destruct (token + 1 =? 5)%Z; [by eexists|].
      destruct (IH (token + 1)%Z) as [r ->]. by eexists.
    + destruct (IH 1%Z) as [r ->]. by eexists.
Qed.

Lemma window_zero (t : Z) (flags : list bool) :
  (t ≤ 4)%Z → ¬ window t flags 0.
Proof. intros Ht [Hk _]. lia. Qed.

Lemma window_nil (t : Z) (k : nat) : (t ≤ 4)%Z → ¬ window t [] k.
Proof.
  intros Ht [Hk Hw]. specialize (Hw (k - 1)%nat).
  rewrite lookup_nil in Hw. discriminate Hw; lia.
Qed.

Lemma window_cons_true (t : Z) (flags : list bool) (k : nat) :
  (t ≤ 4)%Z →
  window t (true :: flags) (S k) ↔
  (k = 0%nat ∧ t = 4%Z) ∨ window (t + 1) flags k.
Proof.
  intros Ht. unfold window. split.
  - intros [Hk Hw]. destruct (decide (k = 0%nat ∧ t = 4%Z)) as [|Hne];
      [by left|right]. split; [lia|].
    intros j Hj1 Hj2. apply (Hw (S j)); lia.
  - intros [[-> ->]|[Hk Hw]].
    + split; [change (Z.to_nat (5 - 4)) with 1%nat; lia|].
      intros j _ Hj. by replace j with 0%nat by lia.
    + split; [lia|]. intros [|j] Hj1 Hj2; [reflexivity|].
      simpl. apply Hw; lia.
Qed.

Lemma window_cons_false (t : Z) (flags : list bool) (k : nat) :
  (1 ≤ t ≤ 4)%Z →
  window t (false :: flags) (S k) ↔ window 1 flags k.
Proof.
  intros Ht. unfold window. split.
  - intros [Hk Hw].
    assert (4 ≤ k)%nat as Hk4.
    { destruct (decide (4 ≤ k)%nat) as [|Hlt]; [done|].
      specialize (Hw 0%nat). simpl in Hw. discriminate Hw; lia. }
    split; [change (Z.to_nat (5 - 1)) with 4%nat; lia|].
    intros j Hj1 Hj2. apply (Hw (S j)); lia.
  - intros [Hk Hw]. change (Z.to_nat (5 - 1)) with 4%nat in Hk.
    split; [lia|].
    intros [|j] Hj1 Hj2; [lia|]. simpl. apply Hw; lia.
Qed.

Lemma first_window_shift (t t' : Z) (b : bool) (flags : list bool) :
  (t ≤ 4)%Z →
  (∀ k, window t (b :: flags) (S k) ↔ window t' flags k) →
  ∀ k, first_window t (b :: flags) k ↔
       ∃ k0, k = S k0 ∧ first_window t' flags k0.
Proof.
  intros Ht Hshift k. unfold first_window. split.
  - intros [Hw Hmin]. destruct k as [|k0]; [by apply window_zero in Hw|].
    exists k0. split; [done|]. split; [by apply Hshift|].
    intros k' Hk' Hw'. apply (Hmin (S k')); [lia|by apply Hshift].
  - intros (k0 & -> & Hw & Hmin). split; [by apply Hshift|].
    intros [|k'] Hk'; [by apply window_zero|].
    intros Hw'. apply (Hmin k'); [lia|by apply Hshift].
Qed.

Lemma feed_first_window (mode : string) (first_elbo : float)
    (deltas : list float) :
  is_Some (convergence_threshold mode) →
  ∀ (token : Z) (k : nat), (1 ≤ token ≤ 4)%Z →
    feed mode first_elbo deltas token = Returns (Some k) ↔
    first_window token (below mode first_elbo <$> deltas) k.
Proof.
  intros Hmode. induction deltas as [|d rest IH]; intros token k Ht.
  - simpl. split; [discriminate|]. intros [Hw _].
    by apply window_nil in Hw; [|lia].
  - rewrite feed_cons by exact Hmode. rewrite fmap_cons.
    destruct (below mode first_elbo d) eqn:Hd.
    + destruct (token + 1 =? 5)%Z eqn:Ht5.
      * apply Z.eqb_eq in Ht5. assert (token = 4%Z) as -> by lia.
        split.
        -- intros [= <-]. split.
           ++ apply window_cons_true; [lia|]. by left.
           ++ intros k' Hk'. replace k' with 0%nat by lia.
              by apply window_zero.
        -- intros [Hw Hmin]. destruct k as [|[|k]].
           ++ by apply window_zero in Hw.
           ++ reflexivity.
           ++ exfalso. apply (Hmin 1%nat); [lia|].
              apply window_cons_true; [lia|]. by left.
      * apply Z.eqb_neq in Ht5.
        rewrite (first_window_shift token (token + 1)); [|lia|].
        2:{ intros k0. rewrite window_cons_true by lia. split; [|by right].
            intros [[_ ?]|?]; [lia|done]. }
        destruct (feed_returns mode first_elbo rest Hmode (token + 1)%Z)
          as [r Hr].
        rewrite Hr. simpl. split.
        -- destruct r as [k0|]; [|discriminate]. intros [= <-].
           exists k0. split; [done|]. apply IH; [lia|done].
        -- intros (k0 & -> & Hfw). apply IH in Hfw; [|lia].
           rewrite Hfw in Hr. by injection Hr as <-.
    + rewrite (first_window_shift token 1); [|lia|].
      2:{ intros k0. by apply window_cons_false; lia. }
      destruct (feed_returns mode first_elbo rest Hmode 1%Z) as [r Hr].
      rewrite Hr. simpl. split.
      * destruct r as [k0|]; [|discriminate]. intros [= <-].
        exists k0. split; [done|]. apply IH; [lia|done].
      * intros (k0 & -> & Hfw). apply IH in Hfw; [|lia].
        rewrite Hfw in Hr. by injection Hr as <-.
Qed.

End ConvergenceProperties.

Section ConvergenceClaims.
Import Convergence.

(** C2, as amended.  The threshold is 1e-5, 1e-6 or 1e-7 for the modes
    fast, medium and slow, and any other mode exits; a check computes
    [100*|delta_elbo/first_elbo|], increments the token when that is below
    the threshold and resets it to 1 otherwise, and reports convergence
    when the incremented token equals 5.  Fed from the initial token 1,
    convergence is therefore declared exactly at the end of the first run
    of FOUR consecutive sub-threshold checks. *)
Theorem assess_convergence_counter :
  (convergence_threshold "fast" = Some 0.00001%float ∧
   convergence_threshold "medium" = Some 0.000001%float ∧
   convergence_threshold "slow" = Some 0.0000001%float) ∧
  (∀ mode delta_elbo first_elbo token,
     mode ≠ "fast" → mode ≠ "medium" → mode ≠ "slow" →
     assess_convergence mode delta_elbo first_elbo token = Exits) ∧
  (∀ mode thr delta_elbo first_elbo token,
     convergence_threshold mode = Some thr →
     assess_convergence mode delta_elbo first_elbo token =
       Returns
         (if PrimFloat.ltb
               (100 * PrimFloat.abs (delta_elbo / first_elbo))%float thr
          then ((token + 1)%Z, (token + 1 =? 5)%Z)
          else (1%Z, false))) ∧
  (∀ mode first_elbo deltas k,
     is_Some (convergence_threshold mode) →
     feed mode first_elbo deltas 1 = Returns (Some k) ↔
     first_window 1 (below mode first_elbo <$> deltas) k).
Proof.
  split; [by repeat split|]. split.
  { intros. by apply assess_convergence_unrecognised. }
  split.
  { intros. by apply assess_convergence_step. }
  intros mode first_elbo deltas k Hmode.
  apply feed_first_window; [exact Hmode|lia].
Qed.

(** C2 as stated fails: with five consecutive sub-threshold checks in
    medium mode, convergence is declared on the fourth, not the fifth. *)
Lemma convergence_declared_on_fourth_check : ¬ declared_on_fifth.
Proof.
  intros Hclaim.
  specialize (Hclaim "medium" 1%float (replicate 5 0%float)).
  assert (feed "medium" 1 (replicate 5 0%float) 1 = Returns (Some 4%nat))
    as Hrun by (vm_compute; reflexivity).
  rewrite Hrun in Hclaim.
  assert (Returns (Some 4%nat) = Returns (Some 5%nat)) as Heq;
    [|discriminate Heq].
  apply Hclaim; [by eexists|reflexivity|].
  repeat constructor.
Qed.

End ConvergenceClaims.

(** ** Training loop *)

Section TrainingProperties.
Import Training.
Context {world : Type}.
Variable precompute : world → py_result (world * float).
Variable prune_and_update : Z → world → py_result world.
Variable calculateELBO_total : world → py_result float.
Variable opts : train_options.

#[local] Abbreviation iteration :=
  (iteration prune_and_update calculateELBO_total opts).
#[local] Abbreviation loop := (loop prune_and_update calculateELBO_total opts).
#[local] Abbreviation iterate :=
  (iterate precompute prune_and_update calculateELBO_total opts).

(** Up to and including the first checkpoint the token is untouched. *)
Lemma iteration_first_checkpoint (i : Z) (st st' : loop_state world)
    (converged : bool) :
  iteration i st = Returns (st', converged) →
  (i ≤ start_elbo opts)%Z →
  convergence_token st' = convergence_token st ∧ converged = false.
Proof.
  unfold Training.iteration. intros H Hi.
  inv_bind H as w Hw. inv_bind H as chk Hchk. destruct chk.
  - inv_bind H as total_i Ht. inv_bind H as col Hcol.
    inv_bind H as elbo_i Hei. inv_bind H as elbo_0 He0.
    inv_bind H as delta Hd.
    replace (start_elbo opts <? i)%Z with false in H by lia.
    simpl in H. by injection H as <- <-.
  - by injection H as <- <-.
Qed.

(** An iteration that declares convergence is a checkpoint after
    [start_elbo], of a run that does not force its iterations. *)
Lemma iteration_converged (i : Z) (st st' : loop_state world) :
  iteration i st = Returns (st', true) →
  (start_elbo opts < i)%Z ∧ forceiter opts = false ∧
  elbofreq opts ≠ 0%Z ∧ ((i - start_elbo opts) mod elbofreq opts = 0)%Z ∧
  convergence_token st' = 5%Z.
Proof.
  unfold Training.iteration. intros H.
  inv_bind H as w Hw. inv_bind H as chk Hchk.
  destruct chk; [|discriminate H].
  destruct (start_elbo opts <=? i)%Z eqn:Hge; [|discriminate Hchk].
  inv_bind Hchk as r Hr. injection Hchk as Hmod. apply Z.eqb_eq in Hmod.
  subst r. unfold py_mod in Hr.
  destruct (elbofreq opts =? 0)%Z eqn:Hfreq; [discriminate Hr|].
  injection Hr as Hmod. apply Z.eqb_neq in Hfreq.
  inv_bind H as total_i Ht. inv_bind H as col Hcol.
  inv_bind H as elbo_i Hei. inv_bind H as elbo_0 He0.
  inv_bind H as delta Hd.
  destruct (start_elbo opts <? i)%Z eqn:Hgt; [|discriminate H].
  destruct (forceiter opts); [discriminate H|]. simpl in H.
  inv_bind H as tc Htc. destruct tc as [token conv]. injection H as <- ->.
  unfold Convergence.assess_convergence in Htc.
  destruct (Convergence.convergence_threshold _); [|discriminate Htc].
  destruct (PrimFloat.ltb _ _); [|discriminate Htc].
  injection Htc as <- Hfive. apply Z.eqb_eq in Hfive.
  repeat split; try done; lia.
Qed.

Lemma loop_converged (todo : list Z) (st st' : loop_state world) (i : Z) :
  loop todo st = Returns (st', Some i) →
  i ∈ todo ∧ ∃ st0 st1, iteration i st0 = Returns (st1, true).
Proof.
  revert st. induction todo as [|j rest IH]; intros st H; [discriminate H|].
  simpl in H. inv_bind H as r Hr. destruct r as [st1 [|]].
  - injection H as _ <-. split; [left|]. by exists st, st1.
  - apply IH in H as [Hin Hex]. split; [by right|exact Hex].
Qed.

(** C10.  Convergence is assessed only at checkpoints after
    [start_elbo]: an iteration with [i <= start_elbo], the first
    checkpoint [i = start_elbo] included, leaves the convergence token as
    it was and does not declare convergence, whatever [forceiter] and the
    ELBO values are; and a run that declares convergence at iteration [i]
    has [forceiter] false and [i] a later checkpoint, at least one
    checkpoint interval after [start_elbo]. *)
Theorem convergence_assessed_after_first_checkpoint :
  (∀ i st st' converged,
     iteration i st = Returns (st', converged) →
     (i ≤ start_elbo opts)%Z →
     convergence_token st' = convergence_token st ∧ converged = false) ∧
  (∀ w0 st i,
     iterate w0 = Returns (st, Some i) →
     (start_elbo opts < i)%Z ∧ forceiter opts = false ∧
     ((i - start_elbo opts) mod elbofreq opts = 0)%Z ∧
     (start_elbo opts + Z.abs (elbofreq opts) ≤ i)%Z).
Proof.
  split; [apply iteration_first_checkpoint|].
  intros w0 st i H. unfold Training.iterate in H.
  destruct (maxiter opts + 1 <? 0)%Z; [discriminate H|].
  inv_bind H as pre Hw. destruct pre as [w total_0]. inv_bind H as col Hcol.
  apply loop_converged in H as [_ (st0 & st1 & Hit)].
  apply iteration_converged in Hit as (Hgt & Hforce & Hfreq & Hmod & _).
  repeat split; try done.
  apply Z.mod_divide in Hmod; [|exact Hfreq].
  apply Z.divide_abs_l in Hmod.
  apply Z.divide_pos_le in Hmod; lia.
Qed.

End TrainingProperties.

(** In the loop, too, four sub-threshold checks in a row are enough: the
    checkpoints of iterations 1 and 2 are above the threshold, those of
    iterations 3 to 6 are below it, and the run converges at iteration 6,
    whose ledger is cut to the rows 0 to 5. *)
Lemma plateau_run_converges_at_fourth_check :
  ∃ st, Training.plateau_run = Returns (st, Some 6%Z) ∧
        Training.convergence_token st = 5%Z ∧
        Training.elbo st = [-100; -50; -40; -40; -40; -40]%float.
Proof. eexists. split; [vm_compute; reflexivity|]. by split. Qed.

(** The example run converges at iteration 11: checkpoints at 3, 5, 7, 9
    and 11, the first one not assessed. *)
Lemma convergence_assessed_after_first_checkpoint_witness :
  ∃ st, Training.demo_run = Returns (st, Some 11%Z) ∧
        (3 < 11)%Z ∧ false = false ∧ ((11 - 3) mod 2 = 0)%Z ∧ (3 + Z.abs 2 ≤ 11)%Z.
Proof.
  eexists. split; [vm_compute; reflexivity|].
  eapply (proj2 (convergence_assessed_after_first_checkpoint
                   (λ w, Returns (w, (-1234.5)%float)) (λ _ w, Returns (S w))
                   (λ _, Returns (-1234.5)%float) Training.demo_opts) 0%nat).
  vm_compute. reflexivity.
Defined.

(** ** ELBO records *)

Section ElboProperties.
Import Elbo.

Lemma filter_labelled_absent (label : string) (s : series) :
  label ∉ s.*1 → filter (labelled label) s = [].
Proof.
  induction s as [|[l v] s IH]; intros Hnot; [reflexivity|].
  rewrite fmap_cons, not_elem_of_cons in Hnot. destruct Hnot as [Hne Hnot].
  rewrite filter_cons_False; [by apply IH|].
  unfold labelled. simpl in *. congruence.
Qed.

Lemma filter_labelled_mid (label : string) (v : float) (l1 l2 : series) :
  label ∉ l1.*1 → label ∉ l2.*1 →
  filter (labelled label) (l1 ++ (label, v) :: l2) = [(label, v)].
Proof.
  intros H1 H2. rewrite filter_app, filter_cons_True by reflexivity.
  by rewrite !filter_labelled_absent.
Qed.

Lemma series_get_mid (label : string) (v : float) (l1 l2 : series) :
  label ∉ l1.*1 → label ∉ l2.*1 →
  series_get (l1 ++ (label, v) :: l2) label = Returns v.
Proof.
  intros H1 H2. unfold series_get.
  by rewrite filter_labelled_mid.
Qed.

Lemma relabel_absent (label : string) (v : float) (s : series) :
  label ∉ s.*1 →
  (λ e, if decide (labelled label e) then (e.1, v) else e) <$> s = s.
Proof.
  induction s as [|[l w] s IH]; intros Hnot; [reflexivity|].
  rewrite fmap_cons, not_elem_of_cons in Hnot. destruct Hnot as [Hne Hnot].
  rewrite fmap_cons, IH by exact Hnot.
  rewrite decide_False; [reflexivity|].
  unfold labelled. simpl in *. congruence.
Qed.

Lemma series_set_mid (label : string) (v v' : float) (l1 l2 : series) :
  label ∉ l1.*1 → label ∉ l2.*1 →
  series_set (l1 ++ (label, v) :: l2) label v' = l1 ++ (label, v') :: l2.
Proof.
  intros H1 H2. unfold series_set. rewrite filter_labelled_mid by done.
  rewrite fmap_app, fmap_cons, !relabel_absent by done.
  by rewrite decide_True.
Qed.

Lemma registry_get_registered (nodes : registry) (name : string) :
  name ∈ nodes.*1 → ∃ n, registry_get nodes name = Returns n.
Proof.
  intros Hin. unfold registry_get.
  apply list_elem_of_fmap in Hin as ([l n] & -> & Hin).
  destruct (list_find (λ e, e.1 = (l, n).1) nodes) as [[i e]|] eqn:Hfind.
  - by eexists.
  - apply list_find_None in Hfind.
    rewrite Forall_forall in Hfind. by destruct (Hfind _ Hin).
Qed.

Lemma add_nodes_cons (nodes : registry) (elbo : series) (n : string)
    (rest : list string) :
  add_nodes nodes elbo (n :: rest)
  = add_node nodes elbo n ≫= λ elbo, add_nodes nodes elbo rest.
Proof. reflexivity. Qed.

(** One pass of the loop body on a record in which [n] and ["total"] each
    occur once. *)
Lemma add_node_step (nodes : registry) (visited pending : series)
    (n : string) (nd : node) (total : float) :
  registry_get nodes n = Returns nd →
  n ≠ "total" →
  n ∉ visited.*1 → n ∉ pending.*1 →
  "total" ∉ visited.*1 → "total" ∉ pending.*1 →
  add_node nodes (visited ++ (n, 0%float) :: pending ++ [("total", total)]) n
  = Returns (visited ++ (n, node_elbo nd) :: pending
             ++ [("total", (total + node_elbo nd)%float)]).
Proof.
  intros Hnd Hne Hnv Hnp Htv Htp.
  set (c := node_elbo nd).
  assert (n ∉ (pending ++ [("total", total)]).*1) as Hnp'.
  { rewrite fmap_app, list_fmap_singleton, not_elem_of_app,
      list_elem_of_singleton. done. }
  assert ("total" ∉ (visited ++ (n, c) :: pending).*1) as Htl.
  { rewrite fmap_app, fmap_cons, not_elem_of_app, not_elem_of_cons.
    simpl. split; [done|]. split; [congruence|done]. }
  assert (∀ x, visited ++ (n, c) :: pending ++ [("total", x)]
               = (visited ++ (n, c) :: pending) ++ ("total", x) :: [])
    as Hshape by (intros; by rewrite <- app_assoc).
  unfold add_node. rewrite Hnd. simpl. fold c.
  rewrite (series_set_mid n 0%float c visited _ Hnv Hnp').
  rewrite (series_get_mid n c visited _ Hnv Hnp').
  rewrite (Hshape total).
  rewrite (series_get_mid "total" total _ [] Htl); [|apply not_elem_of_nil].
  simpl.
  rewrite (series_set_mid "total" total _ _ [] Htl); [|apply not_elem_of_nil].
  by rewrite <- Hshape.
Qed.

(** The loop of [calculateELBO]: the names already visited hold their
    contributions, the others still hold zero, and ["total"] holds the
    running sum. *)
Lemma add_nodes_invariant (nodes : registry) (names : list string) :
  ∀ (visited : series) (total : float),
    NoDup names → names ⊆ nodes.*1 → "total" ∉ names →
    "total" ∉ visited.*1 → (∀ n, n ∈ names → n ∉ visited.*1) →
    add_nodes nodes
      (visited ++ ((λ n, (n, 0%float)) <$> names) ++ [("total", total)]) names
    = Returns (visited ++ ((λ n, (n, contribution nodes n)) <$> names)
               ++ [("total", fold_left PrimFloat.add
                               (contribution nodes <$> names) total)]).
Proof.
  induction names as [|n rest IH];
    intros visited total Hdup Hreg Htot Hvis Hfresh; [reflexivity|].
  apply NoDup_cons in Hdup as [Hn Hdup].
  apply not_elem_of_cons in Htot as [Hne Htot].
  assert (((λ n, (n, 0%float)) <$> rest).*1 = rest) as Hlabels.
  { rewrite <- list_fmap_compose. apply list_fmap_id. }
  destruct (registry_get_registered nodes n) as [nd Hnd].
  { apply Hreg. left. }
  assert (contribution nodes n = node_elbo nd) as Hc.
  { unfold contribution. by rewrite Hnd. }
  rewrite add_nodes_cons, !fmap_cons, <- !app_comm_cons, Hc.
  cbn [fold_left].
  rewrite (add_node_step nodes visited _ n nd total Hnd).
  - rewrite bind_ret.
    replace (visited ++ (n, node_elbo nd) ::
               ((λ n, (n, 0%float)) <$> rest)
               ++ [("total", (total + node_elbo nd)%float)])
      with ((visited ++ [(n, node_elbo nd)]) ++
              ((λ n, (n, 0%float)) <$> rest)
              ++ [("total", (total + node_elbo nd)%float)])
      by (by rewrite <- app_assoc).
    rewrite IH.
    + by rewrite <- app_assoc.
    + exact Hdup.
    + intros x Hx. apply Hreg. by right.
    + exact Htot.
    + rewrite fmap_app, list_fmap_singleton, not_elem_of_app,
        list_elem_of_singleton. simpl.
      split; [exact Hvis|congruence].
    + intros x Hx.
      rewrite fmap_app, list_fmap_singleton, not_elem_of_app,
        list_elem_of_singleton.
      simpl. split; [apply Hfresh; by right|]. intros ->. contradiction.
  - congruence.
  - apply Hfresh. left.
  - by rewrite Hlabels.
  - exact Hvis.
  - by rewrite Hlabels.
Qed.

Lemma variational_keys_sublist (nodes : registry) :
  (getVariationalNodes nodes).*1 `sublist_of` nodes.*1.
Proof. unfold getVariationalNodes. apply fmap_sublist, sublist_filter. Qed.

Lemma node_values_record (f : string → float) (names : list string)
    (total : float) :
  "total" ∉ names →
  node_values (((λ n, (n, f n)) <$> names) ++ [("total", total)])
  = f <$> names.
Proof.
  intros Hnot. unfold node_values.
  rewrite filter_app, filter_cons_False, filter_nil, app_nil_r;
    [|by intros H; apply H].
  induction names as [|n rest IH]; [reflexivity|].
  apply not_elem_of_cons in Hnot as [Hne Hnot].
  rewrite fmap_cons, filter_cons_True by (unfold labelled; simpl; congruence).
  rewrite !fmap_cons. simpl. f_equal. by apply IH.
Qed.

(** C1.  For a registry whose keys are distinct (it is a dict) and do not
    include the label ["total"], [calculateELBO] returns a record with one
    field per requested node (all variational nodes by default, as during
    training) holding that node's contribution, and a ["total"] field
    equal to the sum of the per-node fields of that same record,
    accumulated from zero in the order of the record. *)
Theorem calculateELBO_total_is_sum (nodes : registry) (names : list string) :
  NoDup nodes.*1 → "total" ∉ nodes.*1 →
  NoDup names → names ⊆ nodes.*1 →
  ∃ elbo,
    calculateELBO nodes names = Returns elbo ∧
    series_get elbo "total" = Returns (sum_values (node_values elbo)) ∧
    node_values elbo =
      contribution nodes <$>
        (if decide (length names = 0%nat)
         then (getVariationalNodes nodes).*1 else names).
Proof.
  intros Hkeys Htotal Hdup Hreg. unfold calculateELBO.
  set (requested := if decide (length names = 0%nat)
                    then (getVariationalNodes nodes).*1 else names).
  assert (NoDup requested ∧ requested ⊆ nodes.*1) as [Hdup' Hreg'].
  { unfold requested. case_decide; [|done]. split.
    - eapply sublist_NoDup; [exact Hkeys|apply variational_keys_sublist].
    - apply sublist_subseteq, variational_keys_sublist. }
  assert ("total" ∉ requested) as Htot' by (intros Hin; by apply Htotal, Hreg').
  rewrite fmap_app, list_fmap_singleton.
  pose proof (add_nodes_invariant nodes requested [] 0%float
                Hdup' Hreg' Htot') as Hloop.
  rewrite !app_nil_l in Hloop. rewrite Hloop.
  - eexists. split; [reflexivity|].
    rewrite node_values_record by exact Htot'. split; [|reflexivity].
    apply series_get_mid; [|apply not_elem_of_nil].
    rewrite <- list_fmap_compose. simpl. by rewrite list_fmap_id.
  - apply not_elem_of_nil.
  - intros n _. apply not_elem_of_nil.
Qed.

End ElboProperties.

(** The record of the example registry: four variational nodes, the fifth
    field their sum. *)
Lemma calculateELBO_total_is_sum_witness :
  ∃ elbo,
    Elbo.calculateELBO Elbo.demo_registry [] = Returns elbo ∧
    Elbo.series_get elbo "total"
      = Returns (Elbo.sum_values (Elbo.node_values elbo)) ∧
    Elbo.node_values elbo =
      Elbo.contribution Elbo.demo_registry <$> ["Y"; "W"; "Z"; "Tau"].
Proof.
  apply (calculateELBO_total_is_sum Elbo.demo_registry []).
  - apply (bool_decide_unpack _). vm_compute. exact I.
  - apply (bool_decide_unpack _). vm_compute. exact I.
  - constructor.
  - apply list_subseteq_nil.
Defined.

(** ** Stochastic inference *)

Section StochasticProperties.
Import Stochastic.

(** N = 97 and a batch size of 0.3: four mini-batches of 29, 29, 29 and 10
    positions of the permutation, which together are the permutation. *)
Lemma first_epoch_97_samples :
  PyFloat.ceil (1 / 0.3)%float = Returns 4%Z ∧
  first_epoch 0.3%float 97 4 (zrange 0 97)
  = Returns [zrange 0 29; zrange 29 29; zrange 58 29; zrange 87 10].
Proof. split; vm_compute; reflexivity. Qed.

(** C4 fails on the code: N = 58 with a batch size of 0.04.  There are
    [ceil(1/0.04) = 25] mini-batches; the last upper bound is
    [int(0.04*58*25) = int(57.99999999999999) = 57], so the position 57 of
    the permutation is in no mini-batch of the epoch. *)
Theorem first_epoch_misses_last_sample :
  PyFloat.ceil (1 / 0.04)%float = Returns 25%Z ∧
  PyFloat.to_int (0.04 * PyFloat.of_Z 58 * PyFloat.of_Z 25)%float
    = Returns 57%Z ∧
  ∃ batches,
    first_epoch 0.04%float 58 25 (zrange 0 58) = Returns batches ∧
    length batches = 25%nat ∧
    concat batches = zrange 0 57 ∧
    57%Z ∉ concat batches.
Proof.
  split; [vm_compute; reflexivity|]. split; [vm_compute; reflexivity|].
  eexists. split; [vm_compute; reflexivity|].
  split; [reflexivity|]. split; [vm_compute; reflexivity|].
  apply (bool_decide_unpack _). vm_compute. exact I.
Qed.

Lemma py_pow_positive (x y : R) : (0 < x)%R → py_pow x y = Returns (Rpower x y).
Proof. intros Hx. unfold py_pow. by destruct (Rlt_dec 0 x). Qed.

Lemma step_size2_positive (learning_rate forgetting_rate : R) (i : Z) :
  (0 < 1 + forgetting_rate * IZR i)%R →
  step_size2 learning_rate forgetting_rate i
  = Returns (learning_rate / Rpower (1 + forgetting_rate * IZR i) (3 / 4))%R.
Proof. intros Hpos. unfold step_size2. by rewrite py_pow_positive. Qed.

Lemma step_size2_returns (learning_rate forgetting_rate ro : R) (i : Z) :
  step_size2 learning_rate forgetting_rate i = Returns ro →
  (0 < 1 + forgetting_rate * IZR i)%R ∧
  ro = (learning_rate / Rpower (1 + forgetting_rate * IZR i) (3 / 4))%R.
Proof.
  unfold step_size2, py_pow. intros H.
  destruct (Rlt_dec 0 _) as [Hpos|]; [|discriminate H].
  split; [exact Hpos|]. by injection H as <-.
Qed.

Lemma step_size2_zero : step_size2 1 0.5 0 = Returns 1%R.
Proof.
  rewrite step_size2_positive by (simpl; lra). f_equal.
  replace (1 + 0.5 * 0)%R with 1%R by lra.
  unfold Rpower. rewrite ln_1, Rmult_0_r, exp_0. lra.
Qed.

Lemma step_size2_decreasing (e1 e2 : Z) :
  (0 ≤ e1 < e2)%Z →
  ∃ r1 r2, step_size2 1 0.5 e1 = Returns r1 ∧
           step_size2 1 0.5 e2 = Returns r2 ∧ (r2 < r1)%R.
Proof.
  intros [H0 H12].
  assert (0 <= IZR e1)%R as Hr0 by (apply IZR_le in H0; exact H0).
  assert (IZR e1 < IZR e2)%R as Hr12 by (by apply IZR_lt).
  do 2 eexists. rewrite !step_size2_positive by lra.
  split; [reflexivity|]. split; [reflexivity|].
  assert (Rpower (1 + 0.5 * IZR e1) (3 / 4)
          < Rpower (1 + 0.5 * IZR e2) (3 / 4))%R as Hpow.
  { apply Rlt_Rpower_l; lra. }
  assert (0 < Rpower (1 + 0.5 * IZR e1) (3 / 4))%R as Hp1.
  { unfold Rpower. apply exp_pos. }
  unfold Rdiv. rewrite !Rmult_1_l.
  apply Rinv_lt_contravar; [|exact Hpow].
  apply Rmult_lt_0_compat; lra.
Qed.

Lemma scheduled_updates_rho (opts : stochastic_options) (i : Z)
    (ix : option (list Z)) (ro : R) (c : update_call) :
  c ∈ scheduled_updates opts i ix ro →
  rho c = ro ∧ batch c = ix ∧ target c ∈ schedule opts.
Proof.
  unfold scheduled_updates. intros Hc.
  apply list_elem_of_fmap in Hc as (node & -> & Hnode).
  apply list_elem_of_filter in Hnode as [_ Hnode]. by simpl.
Qed.

(** C8.  In iteration [i] of the stochastic loop every update call of the
    schedule receives the same step size: 1 before [start_stochastic], and
    from [start_stochastic] on the value
    [learning_rate / (1 + forgetting_rate*epoch)^(3/4)] for the epoch that
    the mini-batch sampler returns for that iteration.  With a learning
    rate of 1 and a forgetting rate of 0.5 the step size of epoch 0 is 1
    and the step size is strictly decreasing in the epoch. *)
Theorem step_size_schedule :
  (∀ opts permutation self ix i self' ix' ro calls,
     stochastic_iteration opts permutation self ix i
       = Returns (self', ix', ro, calls) →
     ((i < start_stochastic opts)%Z → ro = 1%R ∧ ix' = ix) ∧
     ((start_stochastic opts ≤ i)%Z →
        ∃ mini_batch epoch,
          sample_mini_batch_no_replace (batch_size opts) permutation self
            (i - (start_stochastic opts - 1))%Z
            = Returns (self', (mini_batch, epoch)) ∧
          ix' = Some mini_batch ∧
          ro = (learning_rate opts
                / Rpower (1 + forgetting_rate opts * IZR epoch) (3 / 4))%R) ∧
     (∀ c, c ∈ calls → rho c = ro ∧ batch c = ix')) ∧
  step_size2 1 0.5 0 = Returns 1%R ∧
  (∀ e1 e2, (0 ≤ e1 < e2)%Z →
     ∃ r1 r2, step_size2 1 0.5 e1 = Returns r1 ∧
              step_size2 1 0.5 e2 = Returns r2 ∧ (r2 < r1)%R).
Proof.
  split; [|split; [exact step_size2_zero|exact step_size2_decreasing]].
  intros opts permutation self ix i self' ix' ro calls H.
  unfold stochastic_iteration in H.
  inv_bind H as r Hr. destruct r as [[self1 ix1] ro1].
  injection H as <- <- <- <-.
  destruct (start_stochastic opts <=? i)%Z eqn:Hphase.
  - apply Z.leb_le in Hphase.
    inv_bind Hr as smp Hsmp. destruct smp as [self2 [mb epoch]].
    inv_bind Hr as ro2 Hro. injection Hr as <- <- <-.
    apply step_size2_returns in Hro as [_ ->].
    split; [lia|]. split.
    + intros _. by exists mb, epoch.
    + intros c Hc. by apply scheduled_updates_rho in Hc as (? & ? & _).
  - apply Z.leb_gt in Hphase. injection Hr as <- <- <-.
    split; [done|]. split; [lia|].
    intros c Hc. by apply scheduled_updates_rho in Hc as (? & ? & _).
Qed.

End StochasticProperties.

(** Iteration 4 of the example opens the second epoch (epoch index 1): the
    permutation is redrawn, its first half is the mini-batch, and the four
    scheduled updates get the step size [1 / 1.5^(3/4)]. *)
Lemma step_size_schedule_witness :
  ∃ self' calls,
    Stochastic.stochastic_iteration Stochastic.demo_opts [2; 0; 3; 1]%Z
      Stochastic.demo_sampler None 4
    = Returns (self', Some [2; 0]%Z, (1 / Rpower (1 + 0.5 * 1) (3 / 4))%R, calls) ∧
    Stochastic.target <$> calls = ["Y"; "W"; "Z"; "Tau"] ∧
    ∀ c, c ∈ calls →
      Stochastic.rho c = (1 / Rpower (1 + 0.5 * 1) (3 / 4))%R ∧
      Stochastic.batch c = Some [2; 0]%Z.
Proof.
  assert (Stochastic.sample_mini_batch_no_replace 0.5%float [2; 0; 3; 1]%Z
            Stochastic.demo_sampler 3
          = Returns ({| Stochastic.dim_N := 4;
                        Stochastic.shuffled_ix := Some [2; 0; 3; 1]%Z;
                        Stochastic.mini_batch := Some [2; 0]%Z |},
                     ([2; 0]%Z, 1%Z))) as Hsample
    by (vm_compute; reflexivity).
  assert (Stochastic.stochastic_iteration Stochastic.demo_opts [2; 0; 3; 1]%Z
            Stochastic.demo_sampler None 4
          = Returns ({| Stochastic.dim_N := 4;
                        Stochastic.shuffled_ix := Some [2; 0; 3; 1]%Z;
                        Stochastic.mini_batch := Some [2; 0]%Z |},
                     Some [2; 0]%Z, (1 / Rpower (1 + 0.5 * 1) (3 / 4))%R,
                     Stochastic.scheduled_updates Stochastic.demo_opts 4
                       (Some [2; 0]%Z) (1 / Rpower (1 + 0.5 * 1) (3 / 4))%R))
    as Hrun.
  { unfold Stochastic.stochastic_iteration.
    change (Stochastic.start_stochastic Stochastic.demo_opts <=? 4)%Z with true.
    change (4 - (Stochastic.start_stochastic Stochastic.demo_opts - 1))%Z
      with 3%Z.
    change (Stochastic.batch_size Stochastic.demo_opts) with 0.5%float.
    rewrite Hsample, !bind_ret.
    change (Stochastic.learning_rate Stochastic.demo_opts) with 1%R.
    change (Stochastic.forgetting_rate Stochastic.demo_opts) with 0.5%R.
    rewrite step_size2_positive by lra.
    reflexivity. }
  do 2 eexists. split; [exact Hrun|]. split; [reflexivity|].
  apply (proj1 step_size_schedule _ _ _ _ _ _ _ _ _ Hrun).
Defined.

(** ** Mini-batches in exact arithmetic *)

(** The coverage of an epoch is a property of the algorithm that the
    rounding of binary64 breaks: with the same operations on rational
    numbers, the mini-batches of an epoch are the consecutive chunks of the
    permutation, for every [N >= 1] and every batch size in (0,1]. *)
Section ExactMiniBatches.
Import Stochastic.
#[local] Existing Instance exact_arith.
Variables (batch_size : Q) (N : Z) (perm : list Z).
Hypothesis Hpos : (0 < batch_size)%Q.
Hypothesis Hle : (batch_size <= 1)%Q.
Hypothesis HN : (1 ≤ N)%Z.
Hypothesis Hperm : Z.of_nat (length perm) = N.

#[local] Abbreviation n_batches := (Qceiling (1 / batch_size)).
#[local] Abbreviation cut := (exact_cut batch_size N).
#[local] Abbreviation chunk := (exact_chunk batch_size N perm).

Lemma inject_Z_nonneg (z : Z) : (0 ≤ z)%Z → (0 <= inject_Z z)%Q.
Proof. intros Hz. change 0%Q with (inject_Z 0). by rewrite <- Zle_Qle. Qed.

Lemma exact_n_batches_pos : (1 ≤ n_batches)%Z.
Proof.
  assert (Qceiling 1 ≤ n_batches)%Z as Hceil; [|exact Hceil].
  apply Qceiling_resp_le, Qle_shift_div_l; [exact Hpos|]. lra.
Qed.

Lemma exact_floor_nonneg (b : Z) :
  (0 ≤ b)%Z → (0 <= batch_size * inject_Z N * inject_Z b)%Q.
Proof.
  intros Hb.
  apply Qmult_le_0_compat; [|by apply inject_Z_nonneg].
  apply Qmult_le_0_compat; [lra|apply inject_Z_nonneg; lia].
Qed.

Lemma exact_cut_range (b : Z) : (0 ≤ b)%Z → (0 ≤ cut b ≤ N)%Z.
Proof.
  intros Hb. unfold exact_cut.
  pose proof (Qfloor_resp_le _ _ (exact_floor_nonneg b Hb)) as Hfl.
  change 0%Q with (inject_Z 0) in Hfl. rewrite Qfloor_Z in Hfl. lia.
Qed.

Lemma exact_cut_0 : cut 0 = 0%Z.
Proof.
  unfold exact_cut.
  assert (batch_size * inject_Z N * inject_Z 0 == inject_Z 0)%Q as ->
    by (change (inject_Z 0) with 0%Q; ring).
  rewrite Qfloor_Z. lia.
Qed.

Lemma exact_cut_mono (b : Z) : (0 ≤ b)%Z → (cut b ≤ cut (b + 1))%Z.
Proof.
  intros Hb. unfold exact_cut. apply Z.min_le_compat_l, Qfloor_resp_le.
  rewrite (Qmult_comm _ (inject_Z b)), (Qmult_comm _ (inject_Z (b + 1))).
  apply Qmult_le_compat_r; [rewrite <- Zle_Qle; lia|].
  apply Qmult_le_0_compat; [lra|apply inject_Z_nonneg; lia].
Qed.

Lemma exact_cut_last : cut n_batches = N.
Proof.
  unfold exact_cut. apply Z.min_l.
  rewrite <- (Qfloor_Z N) at 1. apply Qfloor_resp_le.
  assert (1 <= batch_size * inject_Z n_batches)%Q as Hone.
  { pose proof (Qle_ceiling (1 / batch_size)) as Hceil.
    assert (batch_size * (1 / batch_size) == 1)%Q as Hinv
      by (apply Qmult_div_r; lra).
    apply (Qle_trans _ (batch_size * (1 / batch_size))).
    - rewrite Hinv. apply Qle_refl.
    - apply Qmult_le_l; [exact Hpos|exact Hceil]. }
  assert (inject_Z N * 1 <= inject_Z N * (batch_size * inject_Z n_batches))%Q
    as Hmul.
  { rewrite !(Qmult_comm (inject_Z N)).
    apply Qmult_le_compat_r; [exact Hone|apply inject_Z_nonneg; lia]. }
  lra.
Qed.

(** One call of the sampler within the first epoch. *)
Lemma exact_call (b : Z) (self : sampler) :
  (0 ≤ b < n_batches)%Z → dim_N self = N →
  b = 0%Z ∨ shuffled_ix self = Some perm →
  ∃ epoch,
    sample_mini_batch_no_replace batch_size perm self (b + 1)
    = Returns ({| dim_N := N; shuffled_ix := Some perm;
                  mini_batch := Some (chunk b) |}, (chunk b, epoch)).
Proof.
  intros Hb Hdim Hshuffled. unfold sample_mini_batch_no_replace.
  rewrite Z.add_simpl_r. cbn [inverse ceiling times truncate ratio exact_arith].
  destruct (Qeq_bool batch_size 0) eqn:Hzero.
  { apply Qeq_bool_iff in Hzero. lra. }
  rewrite !bind_ret. unfold Training.py_mod.
  destruct (n_batches =? 0)%Z eqn:Hn; [lia|].
  rewrite !bind_ret, Z.mod_small by lia.
  assert ((if (b =? 0)%Z then Some perm else shuffled_ix self) = Some perm)
    as ->.
  { destruct (b =? 0)%Z eqn:Hb0; [done|]. destruct Hshuffled; [lia|done]. }
  rewrite Hdim.
  assert (∀ c, (0 ≤ c)%Z →
            Qle_bool 0 (batch_size * inject_Z N * inject_Z c) = true)
    as Hsign.
  { intros c Hc. apply Qle_bool_iff. by apply exact_floor_nonneg. }
  rewrite !Hsign by lia.
  eexists. f_equal. unfold exact_chunk, py_slice.
  pose proof (exact_cut_range b ltac:(lia)) as Hc0.
  pose proof (exact_cut_range (b + 1) ltac:(lia)) as Hc1.
  set (lo := Qfloor (batch_size * inject_Z N * inject_Z b)) in *.
  set (hi := Qfloor (batch_size * inject_Z N * inject_Z (b + 1))) in *.
  assert (0 ≤ lo)%Z as Hlo.
  { pose proof (Qfloor_resp_le _ _ (exact_floor_nonneg b ltac:(lia))) as H.
    change 0%Q with (inject_Z 0) in H. by rewrite Qfloor_Z in H. }
  assert (0 ≤ hi)%Z as Hhi.
  { pose proof (Qfloor_resp_le _ _ (exact_floor_nonneg (b + 1) ltac:(lia)))
      as H.
    change 0%Q with (inject_Z 0) in H. by rewrite Qfloor_Z in H. }
  assert ((if (N <? hi)%Z then N else hi) = cut (b + 1)) as Hmax.
  { unfold exact_cut. fold hi. destruct (N <? hi)%Z eqn:Hcmp; lia. }
  rewrite Hmax, Hperm.
  assert (cut b = Z.min lo N) as Hcut by (unfold exact_cut; fold lo; lia).
  replace (if (lo <? 0)%Z then Z.max 0 (lo + N) else Z.min lo N)
    with (cut b) by (destruct (lo <? 0)%Z eqn:?; lia).
  replace (if (cut (b + 1) <? 0)%Z then Z.max 0 (cut (b + 1) + N)
           else Z.min (cut (b + 1)) N)
    with (cut (b + 1)) by (destruct (cut (b + 1) <? 0)%Z eqn:?; lia).
  reflexivity.
Qed.

Lemma zrange_S (lo : Z) (len : nat) :
  zrange lo (S len) = lo :: zrange (lo + 1) len.
Proof.
  unfold zrange. rewrite <- cons_seq, fmap_cons, <- fmap_S_seq.
  rewrite <- list_fmap_compose. f_equal; [lia|].
  apply list_fmap_ext. intros _ k _. simpl. lia.
Qed.

Lemma exact_sample_all (len : nat) :
  ∀ (b0 : Z) (self : sampler),
    (0 ≤ b0)%Z → (b0 + Z.of_nat len ≤ n_batches)%Z → dim_N self = N →
    b0 = 0%Z ∨ shuffled_ix self = Some perm →
    sample_all batch_size (λ _, perm) self (zrange (b0 + 1) len)
    = Returns (chunk <$> zrange b0 len).
Proof.
  induction len as [|len IH]; intros b0 self Hb0 Hlen Hdim Hshuffled;
    [reflexivity|].
  rewrite !zrange_S. cbn [sample_all].
  destruct (exact_call b0 self) as [epoch ->]; [lia|done..|].
  rewrite bind_ret. cbn beta iota.
  rewrite IH; [reflexivity|lia|lia|reflexivity|by right].
Qed.

Lemma concat_chunks (len : nat) :
  ∀ b0 : Z, (0 ≤ b0)%Z →
    concat (chunk <$> zrange b0 len)
    = take (Z.to_nat (cut (b0 + Z.of_nat len) - cut b0))
        (drop (Z.to_nat (cut b0)) perm).
Proof.
  induction len as [|len IH]; intros b0 Hb0.
  - simpl. by rewrite Z.add_0_r, Z.sub_diag.
  - rewrite zrange_S, fmap_cons. cbn [concat]. rewrite IH by lia.
    unfold exact_chunk.
    pose proof (exact_cut_range b0 Hb0) as H0.
    pose proof (exact_cut_mono b0 Hb0) as H01.
    assert (cut (b0 + 1) ≤ cut (b0 + 1 + Z.of_nat len))%Z as H1n.
    { clear IH. induction len as [|k IHk].
      - rewrite Z.add_0_r. lia.
      - etrans; [exact IHk|].
        replace (b0 + 1 + Z.of_nat (S k))%Z
          with ((b0 + 1 + Z.of_nat k) + 1)%Z by lia.
        apply exact_cut_mono. lia. }
    replace (b0 + Z.of_nat (S len))%Z with (b0 + 1 + Z.of_nat len)%Z by lia.
    replace (Z.to_nat (cut (b0 + 1)))
      with (Z.to_nat (cut b0) + Z.to_nat (cut (b0 + 1) - cut b0))%nat by lia.
    rewrite <- drop_drop, take_take_drop. f_equal. lia.
Qed.

(** The mini-batches of the first epoch, concatenated, are the
    permutation. *)
Lemma exact_first_epoch :
  ∃ batches,
    first_epoch batch_size N (Z.to_nat n_batches) perm = Returns batches ∧
    length batches = Z.to_nat n_batches ∧
    concat batches = perm.
Proof.
  pose proof exact_n_batches_pos as Hn.
  exists (chunk <$> zrange 0 (Z.to_nat n_batches)). split; [|split].
  - unfold first_epoch.
    apply (exact_sample_all (Z.to_nat n_batches) 0); [lia|lia|done|by left].
  - unfold zrange. by rewrite !length_fmap, length_seq.
  - rewrite concat_chunks by lia.
    rewrite Z.add_0_l, Z2Nat.id by lia.
    rewrite exact_cut_last, exact_cut_0. simpl.
    apply take_ge. lia.
Qed.

End ExactMiniBatches.

(** Hence, for a permutation of [range(N)], the mini-batches of the epoch
    are pairwise disjoint and their union is the index set. *)
Lemma exact_first_epoch_partition (batch_size : Q) (N : Z) (perm : list Z) :
  (0 < batch_size)%Q → (batch_size <= 1)%Q → (1 ≤ N)%Z →
  perm ≡ₚ Stochastic.zrange 0 (Z.to_nat N) →
  ∃ batches,
    @Stochastic.first_epoch Q Stochastic.exact_arith batch_size N
      (Z.to_nat (Qceiling (1 / batch_size))) perm = Returns batches ∧
    NoDup (concat batches) ∧
    ∀ x, x ∈ concat batches ↔ (0 ≤ x < N)%Z.
Proof.
  intros Hpos Hle HN Hperm.
  assert (Z.of_nat (length perm) = N) as Hlen.
  { rewrite Hperm. unfold Stochastic.zrange.
    rewrite length_fmap, length_seq. lia. }
  destruct (exact_first_epoch batch_size N perm Hpos Hle HN Hlen)
    as (batches & Hrun & _ & Hconcat).
  exists batches. split; [exact Hrun|]. rewrite Hconcat. split.
  - rewrite Hperm. unfold Stochastic.zrange.
    apply NoDup_fmap_2; [|apply NoDup_seq]. intros j k Hjk. lia.
  - intros x. rewrite Hperm. unfold Stochastic.zrange.
    rewrite list_elem_of_fmap. split.
    + intros (k & -> & Hk). apply elem_of_seq in Hk. lia.
    + intros Hx. exists (Z.to_nat x). split; [lia|].
      apply elem_of_seq. lia.
Qed.

(** ** Factor pruning *)

Section PruningProperties.
Import Pruning.

(** X1.  Whatever the data, a pruning step removes at most one factor,
    applies the same [drop] to every node of the registry, lowers [K] by the
    number of factors dropped, and does not return with [K = 0]. *)
Lemma removeInactiveFactors_at_most_one {node : Type}
    (removeFactors : list nat → node → node) (M K G : nat) (e : expectations)
    (nodes nodes' : list (string * node)) (rnd : nat) (min_r2 : option float)
    (K' : nat) (drop : list nat) :
  removeInactiveFactors removeFactors M K G e nodes rnd min_r2
    = Returns (nodes', K', drop) →
  (length drop ≤ 1)%nat ∧ K' = (K - length drop)%nat ∧ K' ≠ 0%nat ∧
  (drop = [] → nodes' = nodes) ∧
  (drop ≠ [] → nodes' = (λ p, (p.1, removeFactors drop p.2)) <$> nodes).
Proof.
  unfold removeInactiveFactors. intros H.
  inv_bind H as d Hd.
  assert (length d ≤ 1)%nat as Hlen.
  { destruct min_r2 as [thr|]; [|discriminate Hd].
    inv_bind Hd as candidates Hc. injection Hd as <-.
    destruct (decide (0 < length candidates)%nat); [simpl|]; lia. }
  destruct (decide (K - length d = 0)%nat) as [|HK]; [discriminate H|].
  injection H as <- <- <-.
  repeat split; try done.
  - intros ->. by rewrite decide_False by (simpl; lia).
  - intros Hne. rewrite decide_True; [done|].
    destruct d; [done|simpl; lia].
Qed.

(** With [K = 1] and the only factor inactive the call exits. *)
Lemma removeInactiveFactors_exits_at_zero :
  removeInactiveFactors delete_positions 1 1 1
    {| Z_E := [[0]]%float;
       views := [ {| Y_data := [[1]]%float; Y_mask := [[false]];
                     W_m := [[1]]%float |} ];
       groups := [0%nat] |}
    [("Z", [0%nat])] 0 (Some 0.5%float)
  = Exits.
Proof. vm_compute. reflexivity. Qed.

(** *** The aliased table *)

Lemma shape_write {X : Type} (n m : nat) (A : list (list X)) (i k : nat)
    (v : X) :
  shape n m A → shape n m (alter (λ row, <[k := v]> row) i A).
Proof.
  intros [Hlen Hrows]. split; [by rewrite length_alter|].
  apply Forall_lookup. intros j row Hj.
  rewrite list_lookup_alter in Hj. rewrite Forall_lookup in Hrows.
  destruct (decide (i = j)) as [->|Hij].
  - destruct (A !! j) as [r|] eqn:Hr; [|done].
    injection Hj as <-. rewrite length_insert. by apply (Hrows j).
  - by apply (Hrows j).
Qed.

Lemma entry_write (n m : nat) (A : matrix) (i k : nat) (v : float)
    (i' k' : nat) :
  shape n m A → (i < n)%nat → (k < m)%nat →
  entry (alter (λ row, <[k := v]> row) i A) i' k'
  = if decide (i' = i ∧ k' = k) then v else entry A i' k'.
Proof.
  intros HA Hi Hk. unfold entry.
  pose proof (shape_row n m A i HA Hi) as Hrow. destruct HA as [Hlen _].
  rewrite list_lookup_total_alter.
  destruct (decide (i = i' ∧ (i < length A)%nat)) as [[<- _]|Hne].
  - rewrite list_lookup_total_insert.
    destruct (decide (k = k' ∧ (k < length (A !!! i))%nat)) as [[<- _]|Hne].
    + by rewrite decide_True.
    + rewrite decide_False; [done|]. intros [_ ->]. apply Hne. split; [done|lia].
  - rewrite decide_False; [done|]. intros [-> _]. apply Hne. split; [done|lia].
Qed.

Lemma r2_assign_alias (G : nat) (A : matrix) (g m k : nat) (v : float) :
  (g < G)%nat →
  r2_assign (mkStore [A] (replicate G 0%nat)) g m k v
  = mkStore [alter (λ row, <[k := v]> row) m A] (replicate G 0%nat).
Proof.
  intros Hg. unfold r2_assign. simpl.
  by rewrite lookup_replicate_2.
Qed.

(** The loop over [k]: row [m] of the one array receives the values of
    the columns visited. *)
Lemma fold_columns (M K G : nat) (f : nat → float) (g m : nat) :
  (g < G)%nat → (m < M)%nat →
  ∀ (len s : nat) (A : matrix),
    shape M K A → (s + len ≤ K)%nat →
    ∃ A',
      fold_left (λ st k, r2_assign st g m k (f k)) (seq s len)
        (mkStore [A] (replicate G 0%nat))
      = mkStore [A'] (replicate G 0%nat) ∧
      shape M K A' ∧
      ∀ i' k', entry A' i' k'
               = if decide (i' = m ∧ (s ≤ k' < s + len)%nat) then f k'
                 else entry A i' k'.
Proof.
  intros Hg Hm. induction len as [|len IH]; intros s A HA Hs.
  - exists A. split; [reflexivity|]. split; [exact HA|].
    intros i' k'. rewrite decide_False; [done|]. lia.
  - simpl. rewrite r2_assign_alias by exact Hg.
    destruct (IH (S s) (alter (λ row, <[s := f s]> row) m A))
      as (A' & Hfold & HA' & Hentries); [by apply shape_write|lia|].
    exists A'. split; [exact Hfold|]. split; [exact HA'|].
    intros i' k'. rewrite Hentries.
    rewrite (entry_write M K) by (done || lia).
    repeat case_decide; destruct_and?; subst; first [done | lia].
Qed.

(** The loop over [g]: every group writes the same row of the same
    array, so the values of the last group visited remain. *)
Lemma fold_groups (M K G : nat) (f : nat → nat → float) (m : nat) :
  (m < M)%nat →
  ∀ (gs : list nat) (A : matrix),
    shape M K A → Forall (λ g, g < G)%nat gs →
    ∃ A',
      fold_left (λ st g,
         fold_left (λ st k, r2_assign st g m k (f g k)) (seq 0 K) st)
        gs (mkStore [A] (replicate G 0%nat))
      = mkStore [A'] (replicate G 0%nat) ∧
      shape M K A' ∧
      ∀ i' k', entry A' i' k'
               = match last gs with
                 | Some g => if decide (i' = m ∧ (k' < K)%nat) then f g k'
                             else entry A i' k'
                 | None => entry A i' k'
                 end.
Proof.
  intros Hm. induction gs as [|g gs IH]; intros A HA Hgs.
  - exists A. split; [reflexivity|]. split; [exact HA|]. by intros i' k'.
  - apply Forall_cons in Hgs as [Hg Hgs]. simpl fold_left.
    destruct (fold_columns M K G (f g) g m Hg Hm K 0 A HA)
      as (A1 & -> & HA1 & H1); [lia|].
    destruct (IH A1 HA1 Hgs) as (A' & Hfold & HA' & Hentries).
    exists A'. split; [exact Hfold|]. split; [exact HA'|].
    intros i' k'. rewrite Hentries, last_cons.
    destruct (last gs) as [g'|].
    + rewrite H1. repeat case_decide; try done; lia.
    + rewrite H1. repeat case_decide; try done; lia.
Qed.

(** The loop over [m]: one row per view. *)
Lemma fold_views (M K G : nat) (f : nat → nat → nat → float) :
  ∀ (len s : nat) (A : matrix),
    shape M K A → (s + len ≤ M)%nat →
    ∃ A',
      fold_left (λ st m,
         fold_left (λ st g,
            fold_left (λ st k, r2_assign st g m k (f m g k)) (seq 0 K) st)
           (seq 0 G) st)
        (seq s len) (mkStore [A] (replicate G 0%nat))
      = mkStore [A'] (replicate G 0%nat) ∧
      shape M K A' ∧
      ∀ i' k', (0 < G)%nat →
        entry A' i' k'
        = if decide ((s ≤ i' < s + len)%nat ∧ (k' < K)%nat)
          then f i' (G - 1)%nat k' else entry A i' k'.
Proof.
  induction len as [|len IH]; intros s A HA Hs.
  - exists A. split; [reflexivity|]. split; [exact HA|].
    intros i' k' _. rewrite decide_False; [done|]. lia.
  - simpl fold_left.
    destruct (fold_groups M K G (f s) s ltac:(lia) (seq 0 G) A HA)
      as (A1 & -> & HA1 & H1).
    { apply Forall_forall. intros g Hg. apply elem_of_seq in Hg. lia. }
    destruct (IH (S s) A1 HA1) as (A' & Hfold & HA' & Hentries); [lia|].
    exists A'. split; [exact Hfold|]. split; [exact HA'|].
    intros i' k' HG. rewrite Hentries by exact HG. rewrite H1.
    replace (last (seq 0 G)) with (Some (G - 1)%nat).
    2:{ destruct G as [|G']; [lia|].
        rewrite seq_S, last_snoc. f_equal. lia. }
    repeat case_decide; destruct_and?; subst; first [done | lia].
Qed.

(** X2.  Whatever the data, the table returned for every group is the one
    array, and it holds the values computed for the last group. *)
Lemma calculate_variance_explained_aliased (M K G : nat) (e : expectations)
    (g m k : nat) :
  (g < G)%nat → (m < M)%nat → (k < K)%nat →
  entry (r2_get (calculate_variance_explained M K G e) g) m k
  = r2_per_group e (G - 1) m k.
Proof.
  intros Hg Hm Hk. unfold calculate_variance_explained, r2_alloc.
  destruct (fold_views M K G (r2_value e) M 0
              (replicate M (replicate K 0%float)))
    as (A' & -> & HA' & Hentries); [|lia|].
  { split; [by rewrite length_replicate|].
    apply Forall_replicate. by rewrite length_replicate. }
  unfold r2_get. simpl. rewrite lookup_replicate_2 by exact Hg.
  change ([A'] !!! 0%nat) with A'.
  rewrite Hentries by lia. rewrite decide_True by lia. reflexivity.
Qed.

Lemma calculate_variance_explained_table (M K G : nat) (e : expectations) :
  ∃ A,
    calculate_variance_explained M K G e = mkStore [A] (replicate G 0%nat) ∧
    shape M K A ∧
    ∀ m k, (0 < G)%nat → (m < M)%nat → (k < K)%nat →
      entry A m k = r2_per_group e (G - 1) m k.
Proof.
  unfold calculate_variance_explained, r2_alloc.
  destruct (fold_views M K G (r2_value e) M 0
              (replicate M (replicate K 0%float)))
    as (A' & HA & Hshape & Hentries); [|lia|].
  { split; [by rewrite length_replicate|].
    apply Forall_replicate. by rewrite length_replicate. }
  exists A'. split; [exact HA|]. split; [exact Hshape|].
  intros m k HG Hm Hk. rewrite Hentries by exact HG.
  by rewrite decide_True by lia.
Qed.


(** C3 fails on the code: with two groups the table of every group is the
    same array, which ends up holding the values of the last group.  In the
    example each factor explains all of the variance of one group, so no
    factor is eligible for removal; the code finds factor 0 inactive "in
    every group" and removes it. *)
Theorem removeInactiveFactors_drops_active_factor :
  r2_per_group two_groups 0 0 0 = 1%float ∧
  r2_per_group two_groups 1 0 0 = 0%float ∧
  ¬ eligible 1 2 two_groups 0.5 0 ∧
  ¬ eligible 1 2 two_groups 0.5 1 ∧
  r2_get (calculate_variance_explained 1 2 2 two_groups) 0 = [[0; 1]]%float ∧
  r2_get (calculate_variance_explained 1 2 2 two_groups) 1 = [[0; 1]]%float ∧
  ∀ rnd,
    removeInactiveFactors delete_positions 1 2 2 two_groups
      [("Z", [0; 1]%nat); ("W", [0; 1]%nat)] rnd (Some 0.5%float)
    = Returns ([("Z", [1%nat]); ("W", [1%nat])], 1%nat, [0%nat]).
Proof.
  split; [vm_compute; reflexivity|]. split; [vm_compute; reflexivity|].
  split.
  { intros H. specialize (H 0%nat 0%nat). vm_compute in H.
    discriminate H; lia. }
  split.
  { intros H. specialize (H 1%nat 0%nat). vm_compute in H.
    discriminate H; lia. }
  split; [vm_compute; reflexivity|]. split; [vm_compute; reflexivity|].
  intros rnd. unfold removeInactiveFactors.
  assert (intersection
            ((λ g, inactive_columns 2
                     (r2_get (calculate_variance_explained 1 2 2 two_groups) g)
                     0.5) <$> seq 0 2)
          = Returns [0%nat]) as -> by (vm_compute; reflexivity).
  rewrite !bind_ret.
  change (length [0%nat]) with 1%nat. rewrite Nat.mod_1_r.
  vm_compute. reflexivity.
Qed.

End PruningProperties.

(** ** Noise-precision node: array lemmas *)

Section TauArrays.
Import Tau.

Lemma sum_n_S (N : nat) (f : nat → R) :
  sum_n (S N) f = (f 0%nat + sum_n N (λ n, f (S n)))%R.
Proof.
  unfold sum_n. rewrite <- cons_seq, fmap_cons, <- fmap_S_seq.
  by rewrite <- list_fmap_compose.
Qed.

Lemma sum_n_ext (N : nat) (f g : nat → R) :
  (∀ n, (n < N)%nat → f n = g n) → sum_n N f = sum_n N g.
Proof.
  revert f g. induction N as [|N IH]; intros f g Hfg; [reflexivity|].
  rewrite !sum_n_S, (Hfg 0%nat) by lia. f_equal.
  apply IH. intros n Hn. apply Hfg. lia.
Qed.

Lemma sum_n_plus (N : nat) (f g : nat → R) :
  sum_n N (λ n, f n + g n)%R = (sum_n N f + sum_n N g)%R.
Proof.
  revert f g. induction N as [|N IH]; intros f g.
  - unfold sum_n. simpl. lra.
  - rewrite !sum_n_S, IH. lra.
Qed.

Lemma sum_n_scale (N : nat) (c : R) (f : nat → R) :
  sum_n N (λ n, c * f n)%R = (c * sum_n N f)%R.
Proof.
  revert f. induction N as [|N IH]; intros f.
  - unfold sum_n. simpl. lra.
  - rewrite !sum_n_S, IH. lra.
Qed.

Lemma sum_n_opp (N : nat) (f : nat → R) :
  sum_n N (λ n, - f n)%R = (- sum_n N f)%R.
Proof.
  revert f. induction N as [|N IH]; intros f.
  - unfold sum_n. simpl. lra.
  - rewrite !sum_n_S, IH. lra.
Qed.

Lemma sum_n_const (N : nat) (c : R) : sum_n N (λ _, c) = (INR N * c)%R.
Proof.
  induction N as [|N IH].
  - unfold sum_n. simpl. lra.
  - rewrite sum_n_S, IH, S_INR. lra.
Qed.

(** A list sum as a sum over positions. *)
Lemma rsum_lookup (l : list R) : rsum l = sum_n (length l) (λ n, l !!! n).
Proof.
  induction l as [|x l IH]; [reflexivity|].
  simpl length. rewrite sum_n_S. simpl. by rewrite IH.
Qed.

Lemma rsum_fmap {X : Type} `{!Inhabited X} (f : X → R) (l : list X) :
  rsum (f <$> l) = sum_n (length l) (λ n, f (l !!! n)).
Proof.
  rewrite rsum_lookup, length_fmap. apply sum_n_ext. intros n Hn.
  by apply list_lookup_total_fmap.
Qed.

Lemma shape_zip2 {X Y Z : Type} (f : X → Y → Z) (n m : nat)
    (A : list (list X)) (B : list (list Y)) :
  shape n m A → shape n m B → shape n m (zip2 f A B).
Proof.
  intros [HA HrA] [HB HrB]. unfold zip2. split.
  - rewrite length_zip_with. lia.
  - revert n B HA HB HrB.
    induction HrA as [|a A Ha HrA IH]; intros n B HA HB HrB; [constructor|].
    destruct HrB as [|b B Hb HrB]; [constructor|].
    simpl in *. constructor.
    + rewrite length_zip_with. lia.
    + apply (IH (length A)); [done|lia|done].
Qed.

Lemma shape_map2 (f : R → R) (n m : nat) (A : rmatrix) :
  shape n m A → shape n m (map2 f A).
Proof.
  intros [HA HrA]. unfold map2. split; [by rewrite length_fmap|].
  apply Forall_fmap. eapply Forall_impl; [exact HrA|].
  intros row Hrow. simpl. by rewrite length_fmap.
Qed.

Lemma shape_dot_T (n d k : nat) (A B : rmatrix) :
  shape n k A → shape d k B → shape n d (dot_T A B).
Proof.
  intros [HA _] [HB _]. unfold dot_T. split; [by rewrite length_fmap|].
  apply Forall_fmap, Forall_forall. intros row _. simpl.
  by rewrite length_fmap.
Qed.

Lemma entry_zip2 {X Y Z : Type} `{!Inhabited X, !Inhabited Y, !Inhabited Z}
    (f : X → Y → Z) (n m : nat) (A : list (list X)) (B : list (list Y))
    (i j : nat) :
  shape n m A → shape n m B → (i < n)%nat → (j < m)%nat →
  entry (zip2 f A B) i j = f (entry A i j) (entry B i j).
Proof.
  intros HA HB Hi Hj. unfold entry, zip2.
  pose proof (shape_row n m A i HA Hi) as HrA.
  pose proof (shape_row n m B i HB Hi) as HrB.
  destruct HA as [HlA _], HB as [HlB _].
  rewrite (lookup_total_zip_with _ A B i) by lia.
  rewrite (lookup_total_zip_with _ (A !!! i) (B !!! i) j) by lia.
  reflexivity.
Qed.

Lemma entry_map2 (f : R → R) (n m : nat) (A : rmatrix) (i j : nat) :
  shape n m A → (i < n)%nat → (j < m)%nat →
  entry (map2 f A) i j = f (entry A i j).
Proof.
  intros HA Hi Hj. unfold entry, map2.
  pose proof (shape_row n m A i HA Hi) as HrA. destruct HA as [HlA _].
  rewrite (list_lookup_total_fmap _ A i) by lia.
  rewrite (list_lookup_total_fmap f (A !!! i) j) by lia. reflexivity.
Qed.

Lemma dot_lookup (k : nat) (u v : list R) :
  length u = k → length v = k →
  dot u v = sum_n k (λ i, u !!! i * v !!! i)%R.
Proof.
  intros Hu Hv. unfold dot. rewrite rsum_lookup, length_zip_with.
  replace (length u `min` length v)%nat with k by lia.
  apply sum_n_ext. intros i Hi.
  by rewrite (lookup_total_zip_with Rmult u v i) by lia.
Qed.

Lemma entry_dot_T (n d k : nat) (A B : rmatrix) (i j : nat) :
  shape n k A → shape d k B → (i < n)%nat → (j < d)%nat →
  entry (dot_T A B) i j = sum_n k (λ c, entry A i c * entry B j c)%R.
Proof.
  intros HA HB Hi Hj. unfold entry, dot_T.
  pose proof (shape_row n k A i HA Hi) as HrA.
  pose proof (shape_row d k B j HB Hj) as HrB.
  destruct HA as [HlA _], HB as [HlB _].
  rewrite (list_lookup_total_fmap _ A i) by lia.
  rewrite (list_lookup_total_fmap _ B j) by lia.
  by apply dot_lookup.
Qed.

Lemma length_sum_axis0 (n m : nat) (A : rmatrix) :
  shape n m A → length (sum_axis0 m A) = m.
Proof.
  intros [_ Hrows]. unfold sum_axis0.
  induction Hrows as [|row A Hrow Hrows IH]; simpl.
  - by rewrite length_replicate.
  - rewrite length_zip_with. lia.
Qed.

(** A column sum, entry by entry. *)
Lemma sum_axis0_lookup (n m : nat) (A : rmatrix) (j : nat) :
  shape n m A → (j < m)%nat →
  sum_axis0 m A !!! j = sum_n n (λ i, entry A i j).
Proof.
  intros [Hlen Hrows] Hj. subst n.
  induction Hrows as [|row A Hrow Hrows IH].
  - unfold sum_n. simpl. by apply lookup_total_replicate_2.
  - simpl length. rewrite sum_n_S. simpl sum_axis0. cbn [foldr].
    rewrite (lookup_total_zip_with Rplus row _ j).
    + f_equal. exact IH.
    + lia.
    + fold (sum_axis0 m A).
      rewrite (length_sum_axis0 (length A) m); [lia|by split].
Qed.

Lemma entry_broadcast (f : R → R → R) (n m : nat) (A : rmatrix) (v : list R)
    (i j : nat) :
  shape n m A → length v = m → (i < n)%nat → (j < m)%nat →
  entry (broadcast f A v) i j = f (entry A i j) (v !!! j).
Proof.
  intros HA Hv Hi Hj. unfold entry, broadcast.
  pose proof (shape_row n m A i HA Hi) as HrA. destruct HA as [HlA _].
  rewrite (list_lookup_total_fmap _ A i) by lia.
  by rewrite (lookup_total_zip_with f (A !!! i) v j) by lia.
Qed.

End TauArrays.

(** ** Noise-precision node: update *)

Section TauUpdate.
Import Tau.
Variables (N D K rows : nat) (w : world).
Hypothesis Hshape : well_shaped N D K rows w.

Lemma shape_zero_masked (n m : nat) (A : rmatrix) (mask : bmatrix) :
  shape n m A → shape n m mask → shape n m (zero_masked A mask).
Proof. apply shape_zip2. Qed.

Lemma entry_zero_masked (n m : nat) (A : rmatrix) (mask : bmatrix) (i j : nat) :
  shape n m A → shape n m mask → (i < n)%nat → (j < m)%nat →
  entry (zero_masked A mask) i j = if entry mask i j then 0%R else entry A i j.
Proof. intros. unfold zero_masked. by erewrite entry_zip2. Qed.

Lemma n_features_shape : n_features w = D.
Proof. unfold n_features. by destruct Hshape as (_ & _ & [-> _] & _). Qed.

Lemma term1_spec (d : nat) :
  (d < D)%nat →
  term1 D (zero_masked (Y_data w) (Y_mask w)) !!! d = spec_term1 w N d.
Proof.
  intros Hd. destruct Hshape as (HY & HM & _).
  unfold term1, spec_term1.
  rewrite (sum_axis0_lookup N D)
    by (done || by apply shape_map2, shape_zero_masked).
  apply sum_n_ext. intros n Hn. unfold square.
  rewrite (entry_map2 _ N D) by (done || by apply shape_zero_masked).
  rewrite (entry_zero_masked N D) by done.
  unfold unmasked. destruct (entry (Y_mask w) n d); lra.
Qed.

Lemma term2_spec (d : nat) :
  (d < D)%nat →
  term2 D (Z_E2 w) (W_E2 w) (Y_mask w) !!! d = spec_term2 w N K d.
Proof.
  intros Hd. destruct Hshape as (_ & HM & _ & HWW & _ & HZZ & _).
  unfold term2, spec_term2.
  assert (shape N D (dot_T (Z_E2 w) (W_E2 w))) as Hdot
    by (by apply (shape_dot_T N D K)).
  rewrite (sum_axis0_lookup N D) by (done || by apply shape_zero_masked).
  apply sum_n_ext. intros n Hn.
  rewrite (entry_zero_masked N D) by done.
  rewrite (entry_dot_T N D K) by done. reflexivity.
Qed.

Lemma ZW_spec (n d : nat) :
  (n < N)%nat → (d < D)%nat →
  entry (zero_masked (dot_T (Z_E w) (W_E w)) (Y_mask w)) n d
  = unmasked w n d (ZW_entry w K n d).
Proof.
  intros Hn Hd. destruct Hshape as (_ & HM & HW & _ & HZ & _).
  rewrite (entry_zero_masked N D);
    [|by apply (shape_dot_T N D K)|done..].
  by rewrite (entry_dot_T N D K).
Qed.

Lemma shape_ZW :
  shape N D (zero_masked (dot_T (Z_E w) (W_E w)) (Y_mask w)).
Proof.
  destruct Hshape as (_ & HM & HW & _ & HZ & _).
  apply shape_zero_masked; [by apply (shape_dot_T N D K)|done].
Qed.

Lemma term3_spec (d : nat) :
  (d < D)%nat →
  term3 D (Z_E w) (W_E w)
    (zero_masked (dot_T (Z_E w) (W_E w)) (Y_mask w)) (Y_mask w) !!! d
  = spec_term3 w N K d.
Proof.
  intros Hd. pose proof shape_ZW as HZW.
  destruct Hshape as (_ & HM & HW & _ & HZ & _).
  unfold term3, spec_term3.
  assert (shape N D (dot_T (square (Z_E w)) (square (W_E w)))) as Hdot.
  { apply (shape_dot_T N D K); by apply shape_map2. }
  rewrite (lookup_total_zip_with Rplus _ _ d).
  2:{ rewrite length_fmap, (length_sum_axis0 N D); [done|].
      by apply shape_zero_masked. }
  2:{ rewrite (length_sum_axis0 N D); [done|]. by apply shape_map2. }
  rewrite (list_lookup_total_fmap Ropp _ d).
  2:{ rewrite (length_sum_axis0 N D); [done|]. by apply shape_zero_masked. }
  rewrite !(sum_axis0_lookup N D)
    by (done || by apply shape_map2 || by apply shape_zero_masked).
  rewrite <- sum_n_opp, <- sum_n_plus.
  apply sum_n_ext. intros n Hn. unfold square at 3.
  rewrite (entry_map2 _ N D) by done.
  rewrite ZW_spec by done.
  rewrite (entry_zero_masked N D) by done.
  rewrite (entry_dot_T N D K) by (done || by apply shape_map2).
  rewrite (sum_n_ext K _
             (λ k, (entry (Z_E w) n k * entry (Z_E w) n k)
                   * (entry (W_E w) d k * entry (W_E w) d k))%R).
  2:{ intros k Hk. unfold square.
      by rewrite (entry_map2 _ N K), (entry_map2 _ D K). }
  unfold unmasked. destruct (entry (Y_mask w) n d); lra.
Qed.

Lemma term4_spec (d : nat) :
  (d < D)%nat →
  term4 D (zero_masked (dot_T (Z_E w) (W_E w)) (Y_mask w))
    (zero_masked (Y_data w) (Y_mask w)) !!! d
  = spec_term4 w N K d.
Proof.
  intros Hd. pose proof shape_ZW as HZW.
  destruct Hshape as (HY & HM & _).
  unfold term4, spec_term4.
  assert (shape N D (zero_masked (Y_data w) (Y_mask w))) as HY0
    by (by apply shape_zero_masked).
  rewrite (list_lookup_total_fmap _ _ d).
  2:{ rewrite (length_sum_axis0 N D); [done|]. by apply shape_zip2. }
  rewrite (sum_axis0_lookup N D) by (done || by apply shape_zip2).
  f_equal. apply sum_n_ext. intros n Hn.
  rewrite (entry_zip2 _ N D) by done.
  rewrite ZW_spec, (entry_zero_masked N D) by done.
  unfold unmasked. destruct (entry (Y_mask w) n d); lra.
Qed.

Lemma shape_indicator (n m : nat) (g : bool → R) (mask : bmatrix) :
  shape n m mask →
  shape n m ((λ row : list bool, g <$> row) <$> mask).
Proof.
  intros [Hlen Hrows]. split; [by rewrite length_fmap|].
  apply Forall_fmap. eapply Forall_impl; [exact Hrows|].
  intros row Hrow. simpl. by rewrite length_fmap.
Qed.

Lemma entry_indicator (n m : nat) (g : bool → R) (mask : bmatrix) (i j : nat) :
  shape n m mask → (i < n)%nat → (j < m)%nat →
  entry ((λ row : list bool, g <$> row) <$> mask) i j = g (entry mask i j).
Proof.
  intros HM Hi Hj. unfold entry.
  pose proof (shape_row n m mask i HM Hi) as Hrow. destruct HM as [Hlen _].
  rewrite (list_lookup_total_fmap _ mask i) by lia.
  by rewrite (list_lookup_total_fmap g (mask !!! i) j) by lia.
Qed.

(** The shape cached by [precompute]: the prior shape plus half the
    number of observed samples of the feature. *)
Lemma precompute_Qa_pre (gammaln : R → R) :
  ∃ a_pre,
    Qa_pre (precompute gammaln w) = Some a_pre ∧
    ∀ r d, (r < rows)%nat → (d < D)%nat →
      entry a_pre r d = (entry (P_a w) r d + observed w N d / 2)%R.
Proof.
  eexists. split; [reflexivity|]. intros r d Hr Hd.
  destruct Hshape as (HY & HM & _ & _ & _ & _ & HPa & _).
  rewrite n_features_shape.
  assert (shape N D ((λ row : list bool,
                        (λ b : bool, if b then 1%R else 0%R) <$> row)
                     <$> Y_mask w)) as Hind by (by apply shape_indicator).
  rewrite (entry_broadcast Rplus rows D); [|done| |done..].
  2:{ rewrite length_fmap. by apply (length_sum_axis0 N D). }
  f_equal.
  rewrite (list_lookup_total_fmap _ _ d)
    by (by rewrite (length_sum_axis0 N D)).
  rewrite (sum_axis0_lookup N D) by done.
  unfold Y_getExpectation. destruct HY as [-> _].
  unfold observed. f_equal.
  rewrite <- (Rmult_1_r (INR N)), <- sum_n_const.
  unfold Rminus. rewrite <- sum_n_opp, <- sum_n_plus.
  apply sum_n_ext. intros n Hn.
  rewrite (entry_indicator N D) by done.
  unfold unmasked. destruct (entry (Y_mask w) n d); lra.
Qed.

Lemma updateParameters_Q_b (a_pre : rmatrix) :
  Qa_pre w = Some a_pre →
  ∃ w',
    updateParameters w = Returns w' ∧
    Q_a w' = a_pre ∧ Qa_pre w' = Some a_pre ∧
    ∀ r d, (r < rows)%nat → (d < D)%nat →
      entry (Q_b w') r d
      = (entry (P_b w) r d
         + (spec_term1 w N d + spec_term2 w N K d + spec_term3 w N K d
            - spec_term4 w N K d) / 2)%R.
Proof.
  intros Hpre. unfold updateParameters, Y_getExpectation. rewrite Hpre.
  eexists. split; [reflexivity|]. split; [reflexivity|].
  split; [reflexivity|]. intros r d Hr Hd. simpl.
  pose proof shape_ZW as HZW.
  destruct Hshape as (HY & HM & HW & HWW & HZ & HZZ & HPa & HPb).
  rewrite n_features_shape.
  assert (shape N D (zero_masked (Y_data w) (Y_mask w))) as HY0
    by (by apply shape_zero_masked).
  assert (length (term1 D (zero_masked (Y_data w) (Y_mask w))) = D) as L1.
  { apply (length_sum_axis0 N D). by apply shape_map2. }
  assert (length (term2 D (Z_E2 w) (W_E2 w) (Y_mask w)) = D) as L2.
  { apply (length_sum_axis0 N D), shape_zero_masked; [|done].
    by apply (shape_dot_T N D K). }
  assert (length (term3 D (Z_E w) (W_E w)
                    (zero_masked (dot_T (Z_E w) (W_E w)) (Y_mask w))
                    (Y_mask w)) = D) as L3.
  { unfold term3. rewrite length_zip_with, length_fmap.
    rewrite !(length_sum_axis0 N D); [lia|by apply shape_map2|].
    apply shape_zero_masked; [|done].
    apply (shape_dot_T N D K); by apply shape_map2. }
  assert (length (term4 D (zero_masked (dot_T (Z_E w) (W_E w)) (Y_mask w))
                    (zero_masked (Y_data w) (Y_mask w))) = D) as L4.
  { unfold term4. rewrite length_fmap.
    apply (length_sum_axis0 N D). by apply shape_zip2. }
  rewrite (entry_broadcast Rplus rows D); [|done| |done..].
  2:{ rewrite length_fmap, !length_zip_with. lia. }
  f_equal.
  rewrite (list_lookup_total_fmap _ _ d)
    by (rewrite !length_zip_with; lia).
  rewrite (lookup_total_zip_with Rminus _ _ d)
    by (rewrite ?length_zip_with; lia).
  rewrite (lookup_total_zip_with Rplus _ _ d)
    by (rewrite ?length_zip_with; lia).
  rewrite (lookup_total_zip_with Rplus _ _ d) by lia.
  by rewrite term1_spec, term2_spec, term3_spec, term4_spec.
Qed.

End TauUpdate.

(** ** Noise-precision node: claims *)

Section TauClaims.
Import Tau.

(** What [updateParameters] writes, whatever the shapes. *)
Lemma updateParameters_returns (w : world) (a_pre : rmatrix) :
  Qa_pre w = Some a_pre →
  ∃ w', updateParameters w = Returns w' ∧
        Q_a w' = a_pre ∧ Qa_pre w' = Some a_pre.
Proof.
  intros Hpre. unfold updateParameters, Y_getExpectation. rewrite Hpre.
  by eexists.
Qed.

Lemma updates_keep_shape (n : nat) :
  ∀ (w w' : world) (a_pre : rmatrix),
    Qa_pre w = Some a_pre → Q_a w = a_pre →
    updates n w = Returns w' →
    Q_a w' = a_pre ∧ Qa_pre w' = Some a_pre.
Proof.
  induction n as [|n IH]; intros w w' a_pre Hpre Ha H.
  - by injection H as <-.
  - simpl in H. inv_bind H as w1 Hw1.
    destruct (updateParameters_returns w a_pre Hpre) as (w2 & Hw2 & Ha2 & Hp2).
    rewrite Hw2 in Hw1. injection Hw1 as ->.
    by apply (IH w1 w' a_pre).
Qed.

(** C5.  After [precompute], an update sets the posterior rate of every
    feature to [b_P + (term1 + term2 + term3 - term4)/2], the four terms
    being the sums over the non-missing samples that the design document
    describes, and sets the posterior shape to the value cached by
    [precompute], [a_P + (number of non-missing observations)/2], which
    further updates leave unchanged. *)
Theorem noise_precision_update (gammaln : R → R) (N D K rows : nat)
    (w : world) :
  well_shaped N D K rows w →
  ∃ a_pre w',
    Qa_pre (precompute gammaln w) = Some a_pre ∧
    (∀ r d, (r < rows)%nat → (d < D)%nat →
       entry a_pre r d = (entry (P_a w) r d + observed w N d / 2)%R) ∧
    updateParameters (precompute gammaln w) = Returns w' ∧
    Q_a w' = a_pre ∧
    (∀ r d, (r < rows)%nat → (d < D)%nat →
       entry (Q_b w') r d
       = (entry (P_b w) r d
          + (spec_term1 w N d + spec_term2 w N K d + spec_term3 w N K d
             - spec_term4 w N K d) / 2)%R) ∧
    (∀ n w'', updates n w' = Returns w'' →
       Q_a w'' = a_pre ∧ Qa_pre w'' = Some a_pre).
Proof.
  intros Hshape.
  destruct (precompute_Qa_pre N D K rows w Hshape gammaln)
    as (a_pre & Hpre & Hentries).
  assert (well_shaped N D K rows (precompute gammaln w)) as Hshape'
    by exact Hshape.
  destruct (updateParameters_Q_b N D K rows _ Hshape' a_pre Hpre)
    as (w' & Hw' & Ha & Hp & Hb).
  exists a_pre, w'.
  split; [exact Hpre|]. split; [exact Hentries|]. split; [exact Hw'|].
  split; [exact Ha|]. split; [exact Hb|].
  intros n w'' H. by apply (updates_keep_shape n w' w'' a_pre).
Qed.

Lemma zip_with_zip_with_l {X Y Z T : Type} (f : Z → Y → T) (g : X → Y → Z)
    (l : list X) (k : list Y) :
  zip_with f (zip_with g l k) k = zip_with (λ x y, f (g x y) y) l k.
Proof.
  revert k. induction l as [|x l IH]; intros [|y k]; simpl; [done..|].
  by rewrite IH.
Qed.

Lemma visible_zero_masked (A : rmatrix) (mask : bmatrix) :
  zip2 (λ x (b : bool), if b then None else Some x) (zero_masked A mask) mask
  = zip2 (λ x (b : bool), if b then None else Some x) A mask.
Proof.
  unfold zero_masked, zip2. rewrite zip_with_zip_with_l.
  revert mask. induction A as [|a A IH]; intros [|m mask]; simpl; [done..|].
  rewrite IH. f_equal. rewrite zip_with_zip_with_l.
  clear. revert m. induction a as [|x a IH]; intros [|b m]; simpl; [done..|].
  rewrite IH. by destruct b.
Qed.

(** C7, as amended.  An update of the noise-precision node sets the
    node's posterior parameters [Q]; it leaves its prior [P], its cached
    constants and expectations, the moments of the loading and factor
    nodes and the mask of the observations as they were, and it leaves
    every non-missing observation as it was: the data buffer of the
    observation node is overwritten with zero at the missing positions
    only. *)
Theorem updateParameters_frame (w w' : world) :
  updateParameters w = Returns w' →
  (P_a w' = P_a w ∧ P_b w' = P_b w) ∧
  (W_E w' = W_E w ∧ W_E2 w' = W_E2 w ∧ Z_E w' = Z_E w ∧ Z_E2 w' = Z_E2 w) ∧
  (Q_E w' = Q_E w ∧ Q_lnE w' = Q_lnE w ∧ lbconst w' = lbconst w ∧
   Qa_pre w' = Qa_pre w) ∧
  Y_mask w' = Y_mask w ∧
  Y_data w' = zero_masked (Y_data w) (Y_mask w) ∧
  visible w' = visible w.
Proof.
  unfold updateParameters, Y_getExpectation. intros H.
  destruct (Qa_pre w) as [a_pre|] eqn:Hpre; [|discriminate H].
  injection H as <-. simpl. repeat split; try done.
  unfold visible. simpl. apply visible_zero_masked.
Qed.

End TauClaims.

(** The example node, two samples of one feature: the shape is
    [1 + 1/2], and the rate is [1 + (4 + 4 + (1 - 1) - 4)/2]. *)
Lemma noise_precision_update_witness :
  Tau.well_shaped 2 1 1 1 Tau.demo ∧
  ∃ a_pre w',
    Tau.Qa_pre (Tau.precompute (λ _, 0%R) Tau.demo) = Some a_pre ∧
    (∀ r d, (r < 1)%nat → (d < 1)%nat →
       entry a_pre r d
       = (entry (Tau.P_a Tau.demo) r d + Tau.observed Tau.demo 2 d / 2)%R) ∧
    Tau.updateParameters (Tau.precompute (λ _, 0%R) Tau.demo) = Returns w' ∧
    Tau.Q_a w' = a_pre ∧
    (∀ r d, (r < 1)%nat → (d < 1)%nat →
       entry (Tau.Q_b w') r d
       = (entry (Tau.P_b Tau.demo) r d
          + (Tau.spec_term1 Tau.demo 2 d + Tau.spec_term2 Tau.demo 2 1 d
             + Tau.spec_term3 Tau.demo 2 1 d
             - Tau.spec_term4 Tau.demo 2 1 d) / 2)%R) ∧
    (∀ n w'', Tau.updates n w' = Returns w'' →
       Tau.Q_a w'' = a_pre ∧ Tau.Qa_pre w'' = Some a_pre).
Proof.
  assert (Tau.well_shaped 2 1 1 1 Tau.demo) as Hshape.
  { unfold Tau.well_shaped, shape. simpl.
    repeat split; repeat constructor. }
  split; [exact Hshape|].
  exact (noise_precision_update (λ _, 0%R) 2 1 1 1 Tau.demo Hshape).
Defined.

(** C7 as stated fails: the update of the example node overwrites the
    buffer entry of the missing observation, 5, with 0. *)
Lemma updateParameters_writes_observations : ¬ Tau.update_leaves_neighbours.
Proof.
  intros Hclaim.
  edestruct (Hclaim (Tau.precompute (λ _, 0%R) Tau.demo)) as [HY _];
    [reflexivity|].
  simpl in HY. injection HY as HY. lra.
Qed.

Lemma updateParameters_frame_witness :
  ∃ w',
    Tau.updateParameters (Tau.precompute (λ _, 0%R) Tau.demo) = Returns w' ∧
    Tau.P_a w' = [[1%R]] ∧ Tau.Y_mask w' = [[false]; [true]] ∧
    Tau.Y_data w' = Tau.zero_masked [[2]; [5]]%R [[false]; [true]] ∧
    Tau.visible w' = Tau.visible Tau.demo.
Proof.
  eexists. split; [reflexivity|].
  pose proof (updateParameters_frame
                (Tau.precompute (λ _, 0%R) Tau.demo) _ eq_refl)
    as ((HPa & _) & _ & _ & HM & HY & HV).
  repeat split; assumption.
Defined.

(** ** Noise-precision node: ELBO *)

Section TauElbo.
Import Tau.
Variable gammaln : R → R.

Lemma sum_all_entries (n m : nat) (A : rmatrix) :
  shape n m A →
  sum_all A = sum_n n (λ i, sum_n m (λ j, entry A i j)).
Proof.
  intros HA. unfold sum_all. rewrite rsum_fmap.
  destruct HA as [Hlen Hrows]. rewrite Hlen.
  apply sum_n_ext. intros i Hi.
  rewrite rsum_lookup, (shape_row n m A i); done.
Qed.

Lemma sum_all_minus (n m : nat) (A B : rmatrix) :
  shape n m A → shape n m B →
  sum_all (zip2 Rminus A B) = (sum_all A - sum_all B)%R.
Proof.
  intros HA HB.
  rewrite (sum_all_entries n m (zip2 Rminus A B)) by (by apply shape_zip2).
  rewrite (sum_all_entries n m A), (sum_all_entries n m B) by done.
  unfold Rminus. rewrite <- sum_n_opp, <- sum_n_plus.
  apply sum_n_ext. intros i Hi.
  rewrite <- sum_n_opp, <- sum_n_plus.
  apply sum_n_ext. intros j Hj.
  by rewrite (entry_zip2 _ n m).
Qed.

(** The constant cached by [precompute]. *)
Lemma precompute_lbconst (rows D : nat) (w : world) :
  shape rows D (P_a w) → shape rows D (P_b w) →
  lbconst (precompute gammaln w)
  = Some (sum_all (zip2 Rmult (P_a w) (map2 ln (P_b w)))
          - sum_all (map2 gammaln (P_a w)))%R.
Proof.
  intros Ha Hb. unfold precompute, Y_getExpectation. simpl. f_equal.
  apply (sum_all_minus rows D).
  - apply shape_zip2; [done|by apply shape_map2].
  - by apply shape_map2.
Qed.

Lemma sum_entries_ext (rows D : nat) (f g : nat → nat → R) :
  (∀ r d, (r < rows)%nat → (d < D)%nat → f r d = g r d) →
  sum_entries rows D f = sum_entries rows D g.
Proof.
  intros Hfg. unfold sum_entries. apply sum_n_ext. intros r Hr.
  apply sum_n_ext. intros d Hd. by apply Hfg.
Qed.

Lemma sum_entries_minus (rows D : nat) (f g : nat → nat → R) :
  sum_entries rows D (λ r d, f r d - g r d)%R
  = (sum_entries rows D f - sum_entries rows D g)%R.
Proof.
  unfold sum_entries, Rminus. rewrite <- sum_n_opp, <- sum_n_plus.
  apply sum_n_ext. intros r Hr. by rewrite <- sum_n_opp, <- sum_n_plus.
Qed.

(** [s.sum(A * B)] as a sum over the entries. *)
Lemma sum_all_product (rows D : nat) (A B : rmatrix) :
  shape rows D A → shape rows D B →
  sum_all (zip2 Rmult A B)
  = sum_entries rows D (λ r d, entry A r d * entry B r d)%R.
Proof.
  intros HA HB.
  rewrite (sum_all_entries rows D) by (by apply shape_zip2).
  apply sum_entries_ext. intros r d Hr Hd. by rewrite (entry_zip2 _ rows D).
Qed.

(** [s.sum(f(A))] as a sum over the entries. *)
Lemma sum_all_image (rows D : nat) (f : R → R) (A : rmatrix) :
  shape rows D A →
  sum_all (map2 f A) = sum_entries rows D (λ r d, f (entry A r d)).
Proof.
  intros HA.
  rewrite (sum_all_entries rows D) by (by apply shape_map2).
  apply sum_entries_ext. intros r d Hr Hd. by rewrite (entry_map2 _ rows D).
Qed.

(** The value that [calculateELBO] computes, as sums over the entries. *)
Lemma calculateELBO_sums (rows D : nat) (w : world) (c : R) :
  elbo_shaped rows D w → lbconst w = Some c →
  calculateELBO gammaln w
  = Returns (spec_lb_p w rows D c - spec_lb_q gammaln w rows D)%R.
Proof.
  intros (HPa & HPb & HQa & HQb & HE & HlnE & _) Hc.
  unfold calculateELBO. rewrite Hc. f_equal.
  unfold spec_lb_p, spec_lb_q.
  rewrite !(sum_all_product rows D), (sum_all_image rows D)
    by (try apply shape_map2; done).
  rewrite (sum_entries_ext rows D
             (λ r d, entry (map2 (λ a, a - 1) (P_a w)) r d
                     * entry (Q_lnE w) r d)
             (λ r d, (entry (P_a w) r d - 1) * entry (Q_lnE w) r d))%R
    by (intros r d Hr Hd; by rewrite (entry_map2 _ rows D)).
  rewrite (sum_entries_ext rows D
             (λ r d, entry (map2 (λ a, a - 1) (Q_a w)) r d
                     * entry (Q_lnE w) r d)
             (λ r d, (entry (Q_a w) r d - 1) * entry (Q_lnE w) r d))%R
    by (intros r d Hr Hd; by rewrite (entry_map2 _ rows D)).
  rewrite (sum_entries_ext rows D
             (λ r d, entry (Q_a w) r d * entry (map2 ln (Q_b w)) r d)
             (λ r d, entry (Q_a w) r d * ln (entry (Q_b w) r d)))%R
    by (intros r d Hr Hd; by rewrite (entry_map2 _ rows D)).
  reflexivity.
Qed.

(** The constant cached by [precompute], as a sum over the entries. *)
Lemma precompute_lbconst_sums (rows D : nat) (w : world) :
  shape rows D (P_a w) → shape rows D (P_b w) →
  lbconst (precompute gammaln w) = Some (spec_lbconst gammaln w rows D).
Proof.
  intros Ha Hb. rewrite (precompute_lbconst rows D w Ha Hb). f_equal.
  rewrite (sum_all_product rows D), (sum_all_image rows D)
    by (try apply shape_map2; done).
  unfold spec_lbconst. rewrite sum_entries_minus. f_equal.
  apply sum_entries_ext. intros r d Hr Hd. by rewrite (entry_map2 _ rows D).
Qed.

(** With the parameters of the prior, the posterior terms are the prior
    terms. *)
Lemma equal_parameters_cancel (rows D : nat) (w : world) (c : R) :
  equal_parameters rows D w →
  (spec_lb_p w rows D c - spec_lb_q gammaln w rows D)%R
  = (c - spec_lbconst gammaln w rows D)%R.
Proof.
  intros Heq. unfold spec_lb_p, spec_lb_q, spec_lbconst.
  rewrite sum_entries_minus.
  rewrite (sum_entries_ext rows D
             (λ r d, entry (Q_a w) r d * ln (entry (Q_b w) r d))
             (λ r d, entry (P_a w) r d * ln (entry (P_b w) r d)))%R
    by (intros r d Hr Hd; destruct (Heq r d Hr Hd) as [-> ->]; done).
  rewrite (sum_entries_ext rows D
             (λ r d, (entry (Q_a w) r d - 1) * entry (Q_lnE w) r d)
             (λ r d, (entry (P_a w) r d - 1) * entry (Q_lnE w) r d))%R
    by (intros r d Hr Hd; destruct (Heq r d Hr Hd) as [-> _]; done).
  rewrite (sum_entries_ext rows D
             (λ r d, entry (Q_b w) r d * entry (Q_E w) r d)
             (λ r d, entry (P_b w) r d * entry (Q_E w) r d))%R
    by (intros r d Hr Hd; destruct (Heq r d Hr Hd) as [_ ->]; done).
  rewrite (sum_entries_ext rows D
             (λ r d, gammaln (entry (Q_a w) r d))
             (λ r d, gammaln (entry (P_a w) r d)))
    by (intros r d Hr Hd; destruct (Heq r d Hr Hd) as [-> _]; done).
  lra.
Qed.

(** C6.  For a node whose parameter and expectation arrays hold one value
    per feature in each row, with positive rates, [calculateELBO] returns
    [lb_p - lb_q], where, every sum running over the entries [(r, d)] of
    the arrays,
    [lb_p = lbconst + sum((a_P - 1)*E[ln tau]) - sum(b_P * E[tau])] and
    [lb_q = sum(a_Q * log b_Q) + sum((a_Q - 1)*E[ln tau])
            - sum(b_Q * E[tau]) - sum(lnGamma(a_Q))];
    the constant that [precompute] caches is
    [sum(a_P * log b_P - lnGamma(a_P))].  When the posterior has the
    parameters of the prior the value is [lbconst] minus that sum, in
    which neither the expectations nor the data occur, and with the
    constant cached by [precompute] it is zero. *)
Theorem calculateELBO_contribution (rows D : nat) (w : world) :
  elbo_shaped rows D w →
  (∀ c, lbconst w = Some c →
     calculateELBO gammaln w
     = Returns (spec_lb_p w rows D c - spec_lb_q gammaln w rows D)%R) ∧
  lbconst (precompute gammaln w) = Some (spec_lbconst gammaln w rows D) ∧
  (∀ c, lbconst w = Some c → equal_parameters rows D w →
     calculateELBO gammaln w
     = Returns (c - spec_lbconst gammaln w rows D)%R) ∧
  (equal_parameters rows D w →
     calculateELBO gammaln (precompute gammaln w) = Returns 0%R).
Proof.
  intros Hshape.
  pose proof Hshape as (HPa & HPb & _).
  split; [|split; [|split]].
  - intros c Hc. by apply calculateELBO_sums.
  - by apply precompute_lbconst_sums.
  - intros c Hc Heq.
    rewrite (calculateELBO_sums rows D w c Hshape Hc).
    by rewrite equal_parameters_cancel.
  - intros Heq.
    rewrite (calculateELBO_sums rows D (precompute gammaln w)
               (spec_lbconst gammaln w rows D)).
    + rewrite (equal_parameters_cancel rows D (precompute gammaln w))
        by exact Heq.
      f_equal. unfold spec_lbconst. simpl. lra.
    + exact Hshape.
    + by apply precompute_lbconst_sums.
Qed.

End TauElbo.

(** The example's [lnGamma]: [lnGamma(3) = ln 2!] and
    [lnGamma(4) = ln 3!]. *)
Lemma ln_factorial_values :
  Tau.ln_factorial 3 = ln 2 ∧ Tau.ln_factorial 4 = ln 6.
Proof.
  assert (∀ z : Z, Int_part (IZR z) = z) as Hint.
  { intros z. unfold Int_part.
    rewrite <- (tech_up (IZR z) (z + 1)); [lia| |]; rewrite plus_IZR; lra. }
  unfold Tau.ln_factorial. rewrite !Hint. split; f_equal; simpl; lra.
Qed.

(** The example node with two features, precomputed, whose posterior has
    the parameters of its prior: its ELBO is [lb_p - lb_q] over the two
    entries with the cached constant
    [3 ln 2 - lnGamma(3) + 4 ln 5 - lnGamma(4)], and it is zero. *)
Lemma calculateELBO_contribution_witness :
  Tau.elbo_shaped 1 2 Tau.demo_elbo_node ∧
  Tau.equal_parameters 1 2 Tau.demo_elbo_node ∧
  Tau.lbconst (Tau.precompute Tau.ln_factorial Tau.demo_elbo_node)
  = Some (Tau.spec_lbconst Tau.ln_factorial Tau.demo_elbo_node 1 2) ∧
  Tau.calculateELBO Tau.ln_factorial
    (Tau.precompute Tau.ln_factorial Tau.demo_elbo_node)
  = Returns
      (Tau.spec_lb_p (Tau.precompute Tau.ln_factorial Tau.demo_elbo_node) 1 2
         (Tau.spec_lbconst Tau.ln_factorial Tau.demo_elbo_node 1 2)
       - Tau.spec_lb_q Tau.ln_factorial
           (Tau.precompute Tau.ln_factorial Tau.demo_elbo_node) 1 2)%R ∧
  Tau.calculateELBO Tau.ln_factorial
    (Tau.precompute Tau.ln_factorial Tau.demo_elbo_node)
  = Returns 0%R.
Proof.
  assert (Tau.elbo_shaped 1 2 Tau.demo_elbo_node) as Hshape.
  { unfold Tau.elbo_shaped, shape. simpl.
    repeat (split; [split; [reflexivity|repeat constructor]|]).
    intros r d Hr Hd. replace r with 0%nat by lia.
    destruct d as [|[|d]]; [| |lia]; unfold entry; simpl; lra. }
  assert (Tau.equal_parameters 1 2 Tau.demo_elbo_node) as Heq
    by (intros r d Hr Hd; split; reflexivity).
  destruct (calculateELBO_contribution Tau.ln_factorial 1 2
              Tau.demo_elbo_node Hshape) as (_ & Hc & _ & Hzero).
  destruct (calculateELBO_contribution Tau.ln_factorial 1 2
              (Tau.precompute Tau.ln_factorial Tau.demo_elbo_node) Hshape)
    as (Hsum & _).
  split; [exact Hshape|]. split; [exact Heq|]. split; [exact Hc|].
  split; [exact (Hsum _ Hc)|exact (Hzero Heq)].
Defined.

(** * Further properties of the code *)

(** ** Factor pruning, in general *)

Section PruningCoverage.
Import Pruning.

(** Every group's table is the one array: a column is inactive for group
    [g] exactly when it is inactive in the stored array. *)
Lemma inactive_columns_of_table (M K G : nat) (e : expectations)
    (min_r2 : float) (A : matrix) (k : nat) :
  calculate_variance_explained M K G e = mkStore [A] (replicate G 0%nat) →
  shape M K A →
  (∀ m k, (0 < G)%nat → (m < M)%nat → (k < K)%nat →
     entry A m k = r2_per_group e (G - 1) m k) →
  (0 < G)%nat → (k < K)%nat →
  (∀ m, (m < M)%nat →
     PrimFloat.ltb min_r2 (r2_per_group e (G - 1) m k) = false) →
  k ∈ inactive_columns K A min_r2.
Proof.
  intros HA [Hlen Hrows] Hentries HG Hk Hinactive.
  unfold inactive_columns. apply list_elem_of_filter. split.
  - apply Forall_lookup. intros m row Hrow.
    assert (m < M)%nat as Hm.
    { rewrite <- Hlen. by apply lookup_lt_Some in Hrow. }
    rewrite <- (Hinactive m Hm), <- (Hentries m k HG Hm Hk).
    unfold entry. by rewrite (list_lookup_total_correct _ _ _ Hrow).
  - apply elem_of_seq. lia.
Qed.

(** X4.  Whenever some factor is not above the threshold in any view of
    the last group, a pruning step that returns has dropped exactly one
    factor. *)
Theorem removeInactiveFactors_drops_one {node : Type}
    (removeFactors : list nat → node → node) (M K G : nat) (e : expectations)
    (nodes nodes' : list (string * node)) (rnd : nat) (min_r2 : float)
    (K' : nat) (drop : list nat) (k : nat) :
  (0 < G)%nat → (k < K)%nat →
  (∀ m, (m < M)%nat →
     PrimFloat.ltb min_r2 (r2_per_group e (G - 1) m k) = false) →
  removeInactiveFactors removeFactors M K G e nodes rnd (Some min_r2)
    = Returns (nodes', K', drop) →
  length drop = 1%nat ∧ K' = (K - 1)%nat ∧
  nodes' = (λ p, (p.1, removeFactors drop p.2)) <$> nodes.
Proof.
  intros HG Hk Hinactive H. unfold removeInactiveFactors in H.
  inv_bind H as d Hd. inv_bind Hd as candidates Hc. injection Hd as <-.
  destruct (calculate_variance_explained_table M K G e)
    as (A & HA & Hshape & Hentries).
  pose proof (inactive_columns_of_table M K G e min_r2 A k HA Hshape
                Hentries HG Hk Hinactive) as Hin.
  assert (k ∈ candidates) as Hcand.
  { rewrite HA in Hc. destruct G as [|G']; [lia|].
    rewrite <- cons_seq, fmap_cons in Hc. simpl in Hc. injection Hc as <-.
    apply list_elem_of_filter. split; [|exact Hin].
    apply Forall_fmap, Forall_forall. intros g Hg. simpl.
    apply elem_of_seq in Hg. unfold r2_get. simpl.
    change (0%nat :: replicate G' 0%nat) with (replicate (S G') 0%nat).
    rewrite lookup_replicate_2 by lia. exact Hin. }
  assert (0 < length candidates)%nat as Hpos.
  { destruct candidates; [by apply not_elem_of_nil in Hcand|simpl; lia]. }
  destruct (decide (0 < length candidates)%nat) as [_|]; [|lia].
  change (length [candidates !!! (rnd `mod` length candidates)%nat])
    with 1%nat in H.
  destruct (decide (0 < 1)%nat) as [_|]; [|lia].
  destruct (decide (K - 1 = 0)%nat); [discriminate H|].
  injection H as <- <- <-. by repeat split.
Qed.

End PruningCoverage.

(** X4 witness: in the two-group example factor 0 is inactive in the last
    group. *)
Lemma removeInactiveFactors_drops_one_witness :
  length [0%nat] = 1%nat ∧ 1%nat = (2 - 1)%nat ∧
  [("Z", [1%nat]); ("W", [1%nat])]
  = (λ p, (p.1, Pruning.delete_positions [0%nat] p.2))
      <$> [("Z", [0; 1]%nat); ("W", [0; 1]%nat)].
Proof.
  apply (removeInactiveFactors_drops_one Pruning.delete_positions
           1 2 2 Pruning.two_groups _ _ 0 0.5%float 1 [0%nat] 0%nat).
  - lia.
  - lia.
  - intros m Hm. replace m with 0%nat by lia. vm_compute. reflexivity.
  - vm_compute. reflexivity.
Defined.

(** X1 witness: the pruning step of the two-group example. *)
Lemma removeInactiveFactors_at_most_one_witness :
  (length [0%nat] ≤ 1)%nat ∧ 1%nat = (2 - length [0%nat])%nat ∧ 1%nat ≠ 0%nat ∧
  ([0%nat] = [] →
     [("Z", [1%nat]); ("W", [1%nat])]
     = [("Z", [0; 1]%nat); ("W", [0; 1]%nat)]) ∧
  ([0%nat] ≠ [] →
     [("Z", [1%nat]); ("W", [1%nat])]
     = (λ p, (p.1, Pruning.delete_positions [0%nat] p.2))
         <$> [("Z", [0; 1]%nat); ("W", [0; 1]%nat)]).
Proof.
  apply (removeInactiveFactors_at_most_one Pruning.delete_positions
           1 2 2 Pruning.two_groups _ _ 0 (Some 0.5%float) 1 [0%nat]).
  vm_compute. reflexivity.
Defined.

(** X2 witness: the table of group 0 holds the value of group 1. *)
Lemma calculate_variance_explained_aliased_witness :
  entry (Pruning.r2_get
           (Pruning.calculate_variance_explained 1 2 2 Pruning.two_groups) 0)
    0 0
  = Pruning.r2_per_group Pruning.two_groups (2 - 1) 0 0.
Proof.
  apply (calculate_variance_explained_aliased 1 2 2 Pruning.two_groups 0 0 0);
    lia.
Defined.


(** ** The training loop, in general *)

Section TrainingCoverage.
Import Training.
Context {world : Type}.
Variable precompute : world → py_result (world * float).
Variable prune_and_update : Z → world → py_result world.
Variable calculateELBO_total : world → py_result float.
Variable opts : train_options.

#[local] Abbreviation iteration :=
  (iteration prune_and_update calculateELBO_total opts).
#[local] Abbreviation loop := (loop prune_and_update calculateELBO_total opts).
#[local] Abbreviation iterate :=
  (iterate precompute prune_and_update calculateELBO_total opts).

(** A checkpoint of the run: an iteration whose ELBO is computed. *)
#[local] Abbreviation checkpoint := (λ j : nat,
  (start_elbo opts ≤ Z.of_nat j)%Z ∧ elbofreq opts ≠ 0%Z ∧
  ((Z.of_nat j - start_elbo opts) mod elbofreq opts = 0)%Z).

Lemma iloc_set_inv (col col' : list float) (j : Z) (v : float) :
  iloc_set col j v = Returns col' → (0 ≤ j)%Z →
  (Z.to_nat j < length col)%nat ∧ col' = <[Z.to_nat j := v]> col.
Proof.
  unfold iloc_set, iloc_pos. intros H Hj.
  destruct ((0 <=? j)%Z && (j <? Z.of_nat (length col))%Z) eqn:Hin.
  - simpl in H. injection H as <-. split; [lia|reflexivity].
  - replace (j <? 0)%Z with false in H by lia.
    rewrite andb_false_r in H. discriminate H.
Qed.

(** What one iteration does to the nodes and to the ledger. *)
Lemma iteration_inv (i : nat) (st st' : loop_state world) (c : bool) :
  iteration (Z.of_nat i) st = Returns (st', c) →
  prune_and_update (Z.of_nat i) (nodes st) = Returns (nodes st') ∧
  length (elbo st') = length (elbo st) ∧
  (∀ j, j ≠ i → elbo st' !! j = elbo st !! j) ∧
  (¬ checkpoint i → elbo st' = elbo st).
Proof.
  unfold Training.iteration. intros H.
  inv_bind H as w Hw. inv_bind H as chk Hchk. destruct chk.
  - inv_bind H as total_i Ht. inv_bind H as col Hcol.
    apply iloc_set_inv in Hcol as [Hlt ->]; [|lia].
    rewrite Nat2Z.id in *.
    assert (checkpoint i) as Hcp.
    { destruct (start_elbo opts <=? Z.of_nat i)%Z eqn:Hge; [|discriminate Hchk].
      inv_bind Hchk as r Hr. injection Hchk as Hmod. apply Z.eqb_eq in Hmod.
      subst r. unfold py_mod in Hr.
      destruct (elbofreq opts =? 0)%Z eqn:Hfreq; [discriminate Hr|].
      injection Hr as Hmod. lia. }
    inv_bind H as elbo_i Hei. inv_bind H as elbo_0 He0.
    inv_bind H as delta Hd.
    assert (nodes st' = w ∧ elbo st' = <[i := total_i]> (elbo st)) as [-> ->].
    { destruct ((start_elbo opts <? Z.of_nat i)%Z && negb (forceiter opts)).
      - inv_bind H as tc Htc. destruct tc as [token conv].
        by injection H as <- <-.
      - by injection H as <- <-. }
    split; [exact Hw|]. split; [apply length_insert|]. split.
    + intros j Hj. by apply list_lookup_insert_ne.
    + intros Hn. by destruct Hn.
  - injection H as <- <-. simpl. by repeat split.
Qed.

(** An invariant of the loop states indexed by the iteration about to
    run is kept up to the end of the run, or up to the iteration that
    converged. *)
Lemma loop_invariant (I : nat → loop_state world → Prop) (n : nat) :
  ∀ (s : nat) (st st' : loop_state world) (converged : option Z),
    (∀ i st st' c, (s ≤ i < s + n)%nat → I i st →
       iteration (Z.of_nat i) st = Returns (st', c) → I (S i) st') →
    I s st →
    loop (Z.of_nat <$> seq s n) st = Returns (st', converged) →
    match converged with
    | None => I (s + n)%nat st'
    | Some i =>
        ∃ j st1, i = Z.of_nat j ∧ (s ≤ j < s + n)%nat ∧ I (S j) st1 ∧
                 st' = mkState (nodes st1) (take j (elbo st1))
                         (convergence_token st1)
    end.
Proof.
  induction n as [|n IH]; intros s st st' converged Hstep Hs H.
  - injection H as <- <-. by rewrite Nat.add_0_r.
  - rewrite <- cons_seq, fmap_cons in H. simpl in H.
    inv_bind H as r Hr. destruct r as [st1 c].
    pose proof (Hstep s st st1 c ltac:(lia) Hs Hr) as Hs1.
    destruct c.
    + injection H as <- <-. exists s, st1. rewrite Nat2Z.id.
      split; [reflexivity|]. split; [lia|]. by split.
    + apply (IH (S s)) in H; [| |exact Hs1].
      * destruct converged as [i|].
        -- destruct H as (j & st2 & -> & Hj & HI & ->).
           exists j, st2. split; [reflexivity|]. split; [lia|]. by split.
        -- by replace (s + S n)%nat with (S s + n)%nat by lia.
      * intros i sta stb c Hi. apply Hstep. lia.
Qed.

(** X6.  The ELBO ledger of a run that returns: it has [maxiter+1] rows,
    or [i] rows when the run converged at iteration [i]; row 0 is the ELBO
    that the call of [precompute] returned; the row of an iteration that
    is not a checkpoint is NaN, and so is the last row of a run that did
    not converge, which no iteration writes. *)
Theorem iterate_ledger (w0 : world) (st : loop_state world)
    (converged : option Z) :
  iterate w0 = Returns (st, converged) →
  ∃ w total_0,
    precompute w0 = Returns (w, total_0) ∧
    elbo st !! 0%nat = Some total_0 ∧
    length (elbo st)
    = match converged with
      | Some i => Z.to_nat i
      | None => Z.to_nat (maxiter opts + 1)
      end ∧
    (∀ j, (1 ≤ j < length (elbo st))%nat → ¬ checkpoint j →
          elbo st !! j = Some PrimFloat.nan) ∧
    match converged with
    | Some i => (1 ≤ i < maxiter opts)%Z
    | None => (1 ≤ maxiter opts)%Z →
              elbo st !! Z.to_nat (maxiter opts) = Some PrimFloat.nan
    end.
Proof.
  unfold Training.iterate. intros H.
  destruct (maxiter opts + 1 <? 0)%Z; [discriminate H|].
  inv_bind H as pre Hw. destruct pre as [w total_0]. inv_bind H as col Hcol.
  exists w, total_0. split; [exact Hw|].
  apply iloc_set_inv in Hcol as [Hlen ->]; [|lia].
  rewrite length_replicate in Hlen. change (Z.to_nat 0) with 0%nat in *.
  set (L := Z.to_nat (maxiter opts + 1)) in *.
  set (I := λ (i : nat) (s : loop_state world),
         length (elbo s) = L ∧ elbo s !! 0%nat = Some total_0 ∧
         ∀ j, (1 ≤ j < L)%nat → (i ≤ j)%nat ∨ ¬ checkpoint j →
              elbo s !! j = Some PrimFloat.nan).
  apply (loop_invariant I) in H.
  - destruct converged as [i|].
    + destruct H as (j & st1 & -> & Hj & (HL & H0 & Hnan) & ->). simpl.
      rewrite Nat2Z.id, length_take, HL.
      assert (j < L)%nat as HjL by (unfold iterations in *; lia).
      split; [rewrite lookup_take_lt by lia; exact H0|].
      split; [lia|]. split; [|unfold L in HjL; lia].
      intros k Hk Hcp. rewrite lookup_take_lt by lia.
      apply Hnan; [lia|by right].
    + destruct H as (HL & H0 & Hnan).
      split; [exact H0|]. split; [exact HL|]. split.
      * intros k Hk Hcp. apply Hnan; [lia|by right].
      * intros Hm. apply Hnan; [unfold L; lia|left; lia].
  - intros i sa sb c Hi (HL & H0 & Hnan) Hit.
    apply iteration_inv in Hit as (_ & Hlen' & Hother & Hsame).
    split; [lia|]. split; [rewrite Hother by lia; exact H0|].
    intros k Hk [Hge|Hcp].
    + rewrite Hother by lia. apply Hnan; [exact Hk|left; lia].
    + destruct (decide (k = i)) as [->|Hne].
      * rewrite Hsame by exact Hcp. apply Hnan; [exact Hk|by left].
      * rewrite Hother by exact Hne. apply Hnan; [exact Hk|by right].
  - unfold I. simpl.
    split; [by rewrite length_insert, length_replicate|].
    split; [by apply list_lookup_insert_eq; rewrite length_replicate|].
    intros k Hk _. rewrite list_lookup_insert_ne by lia.
    apply lookup_replicate_2. lia.
Qed.

Lemma passes_snoc (todo : list Z) (i : Z) (w w' : world) :
  Run.passes prune_and_update todo w = Returns w' →
  Run.passes prune_and_update (todo ++ [i]) w = prune_and_update i w'.
Proof.
  revert w. induction todo as [|j rest IH]; intros w H.
  - injection H as <-. simpl. by destruct (prune_and_update i w).
  - simpl in *. inv_bind H as w1 Hw1. rewrite Hw1, bind_ret. by apply IH.
Qed.

(** X7.  The update passes of a run that returns: the pass of iteration
    [i] is made for [i = 1, ..., maxiter-1] in turn (none for
    [i = maxiter]), or up to and including the iteration that converged;
    a run with [forceiter] set does not stop early. *)
Theorem iterate_passes (w0 : world) (st : loop_state world)
    (converged : option Z) :
  iterate w0 = Returns (st, converged) →
  ∃ w total_0,
    precompute w0 = Returns (w, total_0) ∧
    Run.passes prune_and_update
      (Run.iterations_made (maxiter opts) converged) w
    = Returns (nodes st) ∧
    (forceiter opts = true → converged = None).
Proof.
  unfold Training.iterate. intros H.
  destruct (maxiter opts + 1 <? 0)%Z; [discriminate H|].
  inv_bind H as pre Hw. destruct pre as [w total_0]. inv_bind H as col Hcol.
  exists w, total_0. split; [exact Hw|]. split.
  - set (I := λ (i : nat) (s : loop_state world),
           Run.passes prune_and_update (Z.of_nat <$> seq 1 (i - 1)) w
           = Returns (nodes s)).
    apply (loop_invariant I) in H.
    + destruct converged as [i|].
      * destruct H as (j & st1 & -> & Hj & HI & ->). simpl.
        unfold iterations. unfold I in HI.
        by replace (Z.to_nat (Z.of_nat j + 1 - 1)) with (S j - 1)%nat by lia.
      * unfold I in H. simpl. unfold iterations.
        by replace (Z.to_nat (maxiter opts - 1))
          with (1 + Z.to_nat (maxiter opts - 1) - 1)%nat by lia.
    + intros i sa sb c Hi HI Hit. unfold I in *.
      apply iteration_inv in Hit as (Hw' & _).
      replace (S i - 1)%nat with (S (i - 1)) by lia.
      rewrite seq_S, fmap_app. simpl.
      rewrite (passes_snoc _ _ _ _ HI).
      by replace (S (i - 1)) with i by lia.
    + reflexivity.
  - intros Hforce. destruct converged as [i|]; [|reflexivity].
    apply loop_converged in H as [_ (sa & sb & Hit)].
    apply iteration_converged in Hit as (_ & Hf & _). congruence.
Qed.

End TrainingCoverage.

(** X6 witness: the ledger of the run that converges at iteration 6;
    its row 0 is the -100 that [precompute] returned. *)
Lemma iterate_ledger_witness :
  ∃ w total_0,
    Run.offset_precompute 0%nat = Returns (w, total_0) ∧
    [-100; -50; -40; -40; -40; -40]%float !! 0%nat = Some total_0 ∧
    length [-100; -50; -40; -40; -40; -40]%float = Z.to_nat 6 ∧
    (∀ j, (1 ≤ j < length [-100; -50; -40; -40; -40; -40]%float)%nat →
          ¬ ((1 ≤ Z.of_nat j)%Z ∧ 1%Z ≠ 0%Z ∧ ((Z.of_nat j - 1) mod 1 = 0)%Z) →
          [-100; -50; -40; -40; -40; -40]%float !! j = Some PrimFloat.nan) ∧
    (1 ≤ 6 < 20)%Z.
Proof.
  apply (iterate_ledger Run.offset_precompute (λ _ w, Returns (S w))
           Run.offset_elbo Training.plateau_opts 0%nat
           (Training.mkState 6%nat [-100; -50; -40; -40; -40; -40]%float 5%Z)
           (Some 6%Z)).
  vm_compute. reflexivity.
Defined.

(** X7 witness: the run that converges at iteration 6 has made six
    passes. *)
Lemma iterate_passes_witness :
  ∃ w total_0,
    Returns (0%nat, (-100)%float) = Returns (w, total_0) ∧
    Run.passes (λ _ w, Returns (S w)) (Run.iterations_made 20 (Some 6%Z)) w
    = Returns 6%nat ∧
    (false = true → Some 6%Z = None).
Proof.
  apply (iterate_passes (λ w, Returns (w, (-100)%float))
           (λ _ w, Returns (S w))
           (λ w, Returns (match w with
                          | 0%nat => (-100)%float
                          | 1%nat => (-50)%float
                          | _ => (-40)%float
                          end))
           Training.plateau_opts 0%nat
           (Training.mkState 6%nat [-100; -50; -40; -40; -40; -40]%float 5%Z)
           (Some 6%Z)).
  vm_compute. reflexivity.
Defined.

(** ** The full-batch run *)

Section RunCoverage.
Import Run.
Context {node : Type}.
Variable removeFactors : list nat → node → node.
Variable expectations_of : list (string * node) → Pruning.expectations.
Variable update : string → list (string * node)
                  → py_result (list (string * node)).
Variable precompute : list (string * node)
                      → py_result (list (string * node) * float).
Variable calculateELBO_total : list (string * node) → py_result float.
Variable rnd : Z → nat.
Variables M G : nat.
Variable o : run_options.
Variable opts : Training.train_options.

#[local] Abbreviation prune :=
  (Run.prune removeFactors expectations_of rnd M G o).
#[local] Abbreviation update_schedule := (Run.update_schedule update o).
#[local] Abbreviation prune_and_update :=
  (Run.prune_and_update removeFactors expectations_of update rnd M G o).
#[local] Abbreviation iterate :=
  (Run.iterate removeFactors expectations_of update precompute
     calculateELBO_total rnd M G o opts).
#[local] Abbreviation drops := (λ i : Z, Is_true (drop_iteration o i)).

Lemma np_set_inv {A : Type} (a a' : list A) (j : Z) (v : A) :
  np_set a j v = Returns a' → (0 ≤ j)%Z →
  (Z.to_nat j < length a)%nat ∧ a' = <[Z.to_nat j := v]> a.
Proof.
  unfold np_set. intros H Hj.
  destruct ((0 <=? j)%Z && (j <? Z.of_nat (length a))%Z) eqn:Hin.
  - injection H as <-. split; [lia|reflexivity].
  - replace (j <? 0)%Z with false in H by lia.
    rewrite andb_false_r in H. discriminate H.
Qed.

(** What a pruning step that returns leaves of [K]. *)
Lemma removeInactiveFactors_K (K : nat) (e : Pruning.expectations)
    (nodes nodes' : list (string * node)) (r : nat) (min_r2 : float)
    (K' : nat) (drop : list nat) :
  Pruning.removeInactiveFactors removeFactors M K G e nodes r (Some min_r2)
    = Returns (nodes', K', drop) →
  (K' ≤ K ≤ K' + 1)%nat ∧ (1 ≤ K')%nat.
Proof.
  unfold Pruning.removeInactiveFactors. intros H.
  inv_bind H as d Hd.
  assert (length d ≤ 1)%nat as Hlen.
  { inv_bind Hd as candidates Hc. injection Hd as <-.
    destruct (decide (0 < length candidates)%nat); [simpl|]; lia. }
  destruct (decide (K - length d = 0)%nat) as [|HK]; [discriminate H|].
  injection H as _ <- _. lia.
Qed.

(** The first block of the loop body: outside the pruning iterations
    nothing changes; in one, at most one factor goes and the count is
    recorded at position [i]. *)
Lemma prune_inv (i : nat) (w w' : world node) :
  prune (Z.of_nat i) w = Returns w' →
  if drop_iteration o (Z.of_nat i) then
    (i < length (number_factors w))%nat ∧
    number_factors w' = <[i := Some (dim_K w')]> (number_factors w) ∧
    (dim_K w' ≤ dim_K w ≤ dim_K w' + 1)%nat ∧
    (dim_K w' = dim_K w ∨ 1 ≤ dim_K w')%nat ∧
    (drop_min_r2 o = None → dim_K w' = dim_K w)
  else w' = w.
Proof.
  unfold Run.prune, drop_iteration. intros H.
  destruct (start_drop o <=? Z.of_nat i)%Z; [|by injection H as <-].
  inv_bind H as r Hr. unfold Training.py_mod in Hr.
  destruct (freq_drop o =? 0)%Z; [discriminate Hr|].
  injection Hr as <-. simpl.
  destruct (Z.of_nat i mod freq_drop o =? 0)%Z; [|by injection H as <-].
  inv_bind H as w1 Hw1. inv_bind H as nf Hnf. injection H as <-. simpl.
  apply np_set_inv in Hnf as [Hlt ->]; [|lia]. rewrite Nat2Z.id in *.
  destruct (drop_min_r2 o) as [min_r2|].
  - inv_bind Hw1 as res Hres. destruct res as [[nodes' K'] drop].
    injection Hw1 as <-. simpl in *.
    apply removeInactiveFactors_K in Hres.
    split; [exact Hlt|]. split; [reflexivity|]. split; [lia|].
    split; [right; lia|]. intros Hnone. discriminate Hnone.
  - injection Hw1 as <-.
    split; [exact Hlt|]. split; [reflexivity|]. split; [lia|].
    split; [by left|]. reflexivity.
Qed.

Lemma prune_and_update_inv (i : Z) (w w' : world node) :
  prune_and_update i w = Returns w' →
  ∃ w1, prune i w = Returns w1 ∧ dim_K w' = dim_K w1 ∧
        number_factors w' = number_factors w1 ∧
        update_schedule (schedule o) i (registry w1) = Returns (registry w').
Proof.
  unfold Run.prune_and_update. intros H.
  inv_bind H as w1 Hw1. inv_bind H as nodes Hn. injection H as <-.
  exists w1. by repeat split.
Qed.

Lemma filter_drops_snoc (i : nat) :
  length (filter drops (Z.of_nat <$> seq 1 i))
  = (length (filter drops (Z.of_nat <$> seq 1 (i - 1)))
     + if decide (1 ≤ i)%nat
       then (if drop_iteration o (Z.of_nat i) then 1 else 0)
       else 0)%nat.
Proof.
  destruct i as [|i]; [reflexivity|].
  replace (S i - 1)%nat with i by lia.
  rewrite decide_True by lia.
  rewrite seq_S, fmap_app, filter_app, length_app. f_equal.
  rewrite list_fmap_singleton.
  replace (Z.of_nat (1 + i)) with (Z.of_nat (S i)) by lia.
  destruct (drop_iteration o (Z.of_nat (S i))) eqn:Hd.
  - rewrite filter_cons_True; [reflexivity|]. rewrite Hd. exact I.
  - rewrite filter_cons_False; [reflexivity|]. rewrite Hd. intros [].
Qed.

(** [iterate], unfolded down to its loop. *)
Lemma iterate_inv (K : nat) (nodes : list (string * node))
    (st : Training.loop_state (world node)) (converged : option Z) :
  iterate K nodes = Returns (st, converged) →
  ∃ nodes' col st1,
    (0 ≤ Training.maxiter opts)%Z ∧
    Training.loop prune_and_update (λ w, calculateELBO_total (registry w))
      opts (Training.iterations (Training.maxiter opts))
      (Training.mkState
         (mkWorld K nodes'
            (<[0%nat := Some K]>
               (replicate (Z.to_nat (Training.maxiter opts + 1)) None)))
         col 1%Z)
    = Returns (st1, converged) ∧
    dim_K (Training.nodes st) = dim_K (Training.nodes st1) ∧
    number_factors (Training.nodes st)
    = match converged with
      | Some i => take (Z.to_nat i) (number_factors (Training.nodes st1))
      | None => number_factors (Training.nodes st1)
      end.
Proof.
  unfold Run.iterate. intros H.
  destruct (Training.maxiter opts + 1 <? 0)%Z eqn:Hneg; [discriminate H|].
  inv_bind H as pre Hpre. destruct pre as [nodes' total_0].
  inv_bind H as col Hcol. inv_bind H as nf Hnf. inv_bind H as r Hr. destruct r as [st1 c].
  apply np_set_inv in Hnf as [Hlen ->]; [|lia].
  rewrite length_replicate in Hlen.
  exists nodes', col, st1. split; [lia|].
  destruct c as [i|]; injection H as <- <-; by repeat split.
Qed.

(** X8.  Factors only go: the number of factors at the end of a run that
    returns is at most the initial one, it is short of it by at most the
    number of pruning iterations made (one factor per pruning iteration),
    it is unchanged when no threshold [min_r2] is set, and it is not zero
    once a factor has been dropped. *)
Theorem iterate_factors (K : nat) (nodes : list (string * node))
    (st : Training.loop_state (world node)) (converged : option Z) :
  iterate K nodes = Returns (st, converged) →
  (dim_K (Training.nodes st) ≤ K)%nat ∧
  (K - dim_K (Training.nodes st)
   ≤ length (filter drops
               (iterations_made (Training.maxiter opts) converged)))%nat ∧
  (drop_min_r2 o = None → dim_K (Training.nodes st) = K) ∧
  (dim_K (Training.nodes st) < K → 1 ≤ dim_K (Training.nodes st))%nat.
Proof.
  intros H.
  apply iterate_inv in H as (nodes' & col & st1 & Hmax & H & -> & _).
  set (I := λ (i : nat) (s : Training.loop_state (world node)),
         (dim_K (Training.nodes s) ≤ K)%nat ∧
         (K - dim_K (Training.nodes s)
          ≤ length (filter drops (Z.of_nat <$> seq 1 (i - 1))))%nat ∧
         (drop_min_r2 o = None → dim_K (Training.nodes s) = K) ∧
         (dim_K (Training.nodes s) = K ∨ 1 ≤ dim_K (Training.nodes s))%nat).
  apply (loop_invariant _ _ _ I) in H.
  - assert (∃ i s, I i s ∧
              dim_K (Training.nodes st1) = dim_K (Training.nodes s) ∧
              iterations_made (Training.maxiter opts) converged
              = Z.of_nat <$> seq 1 (i - 1))
      as (i & s & (H1 & H2 & H3 & H4) & -> & ->).
    { destruct converged as [i|].
      - destruct H as (j & s & -> & Hj & HI & ->).
        exists (S j), s. split; [exact HI|]. split; [reflexivity|].
        simpl. unfold Training.iterations. do 2 f_equal. lia.
      - eexists _, st1. split; [exact H|]. split; [reflexivity|].
        simpl. unfold Training.iterations. do 2 f_equal. lia. }
    split; [exact H1|]. split; [exact H2|]. split; [exact H3|]. lia.
  - intros i sa sb c Hi (H1 & H2 & H3 & H4) Hit.
    apply iteration_inv in Hit as (Hw & _).
    apply prune_and_update_inv in Hw as (w1 & Hp & HK & _).
    apply prune_inv in Hp. unfold I. rewrite HK.
    replace (S i - 1)%nat with i by lia.
    rewrite filter_drops_snoc, decide_True by lia.
    destruct (drop_iteration o (Z.of_nat i)).
    + destruct Hp as (_ & _ & Hle & Hpos & Hnone).
      split; [lia|]. split; [lia|]. split; [|lia].
      intros Hn. rewrite Hnone by exact Hn. by apply H3.
    + subst w1. split; [exact H1|]. split; [lia|]. by split.
  - unfold I. simpl. split; [lia|]. split; [lia|]. split; [done|by left].
Qed.

(** X9.  The array [number_factors] of a run that returns: it has
    [maxiter+1] entries, or [i] when the run converged at iteration [i];
    entry 0 is the initial number of factors; the entry of a pruning
    iteration that was made holds a factor count between the final and the
    initial one, and every other entry is NaN, the last one of a run that
    did not converge included. *)
Theorem iterate_number_factors (K : nat) (nodes : list (string * node))
    (st : Training.loop_state (world node)) (converged : option Z) :
  iterate K nodes = Returns (st, converged) →
  let nf := number_factors (Training.nodes st) in
  length nf = match converged with
              | Some i => Z.to_nat i
              | None => Z.to_nat (Training.maxiter opts + 1)
              end ∧
  nf !! 0%nat = Some (Some K) ∧
  (∀ j, (1 ≤ j < length nf)%nat → (Z.of_nat j < Training.maxiter opts)%Z →
     if drop_iteration o (Z.of_nat j)
     then ∃ k, nf !! j = Some (Some k) ∧
               (dim_K (Training.nodes st) ≤ k ≤ K)%nat
     else nf !! j = Some None) ∧
  (converged = None → (1 ≤ Training.maxiter opts)%Z →
   nf !! Z.to_nat (Training.maxiter opts) = Some None).
Proof.
  intros H nf. subst nf.
  apply iterate_inv in H as (nodes' & col & st1 & Hmax & H & -> & ->).
  set (L := Z.to_nat (Training.maxiter opts + 1)) in *.
  set (I := λ (i : nat) (s : Training.loop_state (world node)),
         let w := Training.nodes s in
         length (number_factors w) = L ∧
         number_factors w !! 0%nat = Some (Some K) ∧
         (dim_K w ≤ K)%nat ∧
         ∀ j, (1 ≤ j < L)%nat →
           if decide (j < i)%nat
           then if drop_iteration o (Z.of_nat j)
                then ∃ k, number_factors w !! j = Some (Some k) ∧
                          (dim_K w ≤ k ≤ K)%nat
                else number_factors w !! j = Some None
           else number_factors w !! j = Some None).
  apply (loop_invariant _ _ _ I) in H.
  - destruct converged as [i|].
    + destruct H as (j & s & -> & Hj & (HL & H0 & HK & Hall) & ->).
      simpl in *. rewrite Nat2Z.id.
      assert (j < L)%nat as HjL by (unfold L; lia).
      rewrite length_take, HL.
      split; [lia|]. split; [by rewrite lookup_take_lt by lia|].
      split; [|done]. intros k Hk Hkm.
      specialize (Hall k ltac:(lia)). rewrite decide_True in Hall by lia.
      by rewrite lookup_take_lt by lia.
    + destruct H as (HL & H0 & HK & Hall). simpl in *.
      split; [exact HL|]. split; [exact H0|]. split.
      * intros k Hk Hkm. specialize (Hall k ltac:(lia)).
        by rewrite decide_True in Hall by lia.
      * intros _ Hm. specialize (Hall (Z.to_nat (Training.maxiter opts))
                                   ltac:(unfold L; lia)).
        by rewrite decide_False in Hall by lia.
  - intros i sa sb c Hi (HL & H0 & HK & Hall) Hit.
    apply iteration_inv in Hit as (Hw & _).
    apply prune_and_update_inv in Hw as (w1 & Hp & HK1 & Hnf1 & _).
    apply prune_inv in Hp. unfold I. simpl. rewrite HK1, Hnf1.
    destruct (drop_iteration o (Z.of_nat i)) eqn:Hdrop.
    + destruct Hp as (Hlt & -> & Hle & _).
      split; [by rewrite length_insert|].
      split; [by rewrite list_lookup_insert_ne by lia|].
      split; [lia|]. intros j Hj. specialize (Hall j Hj).
      destruct (decide (j = i)) as [->|Hne].
      * rewrite decide_True by lia. rewrite Hdrop.
        exists (dim_K w1). split; [|lia].
        by apply list_lookup_insert_eq.
      * rewrite list_lookup_insert_ne by done.
        destruct (decide (j < i)%nat).
        -- rewrite decide_True by lia.
           destruct (drop_iteration o (Z.of_nat j)); [|exact Hall].
           destruct Hall as (k & Hk & Hkk). exists k. split; [exact Hk|lia].
        -- by rewrite decide_False by lia.
    + subst w1. split; [exact HL|]. split; [exact H0|]. split; [exact HK|].
      intros j Hj. specialize (Hall j Hj).
      destruct (decide (j = i)) as [->|Hne].
      * rewrite decide_True by lia. rewrite Hdrop.
        by rewrite decide_False in Hall by lia.
      * destruct (decide (j < i)%nat).
        -- by rewrite decide_True by lia.
        -- by rewrite decide_False by lia.
  - unfold I. simpl.
    split; [by rewrite length_insert, length_replicate|].
    split; [apply list_lookup_insert_eq; rewrite length_replicate;
            unfold L; lia|].
    split; [lia|]. intros j Hj.
    rewrite decide_False by lia.
    rewrite list_lookup_insert_ne by lia. apply lookup_replicate_2. lia.
Qed.

(** X10.  The update schedule of an iteration: from [start_sparsity] on
    every node of the schedule is updated, in the order of the schedule;
    before, the nodes other than [ThetaW] and [ThetaZ] are, and these two
    are skipped. *)
Theorem update_schedule_sparsity (names : list string) (i : Z)
    (nodes : list (string * node)) :
  ((start_sparsity o ≤ i)%Z →
   update_schedule names i nodes = update_each update names nodes) ∧
  ((i < start_sparsity o)%Z →
   update_schedule names i nodes
   = update_each update
       (filter (λ name, name ≠ "ThetaW" ∧ name ≠ "ThetaZ") names) nodes).
Proof.
  split; intros Hi; revert nodes;
    (induction names as [|name rest IH]; intros nodes; [reflexivity|]).
  - simpl. rewrite decide_False by lia.
    destruct (update name nodes); [apply IH|reflexivity..].
  - simpl. destruct (decide (name ≠ "ThetaW" ∧ name ≠ "ThetaZ")) as [Hn|Hn].
    + rewrite decide_False by tauto.
      rewrite filter_cons_True by exact Hn. simpl.
      destruct (update name nodes); [apply IH|reflexivity..].
    + rewrite decide_True.
      * rewrite filter_cons_False by exact Hn. apply IH.
      * split; [|exact Hi].
        destruct (decide (name = "ThetaW")); [by left|].
        destruct (decide (name = "ThetaZ")); [by right|]. tauto.
Qed.

End RunCoverage.

(** X8 witness: the example run drops one factor in its one pruning
    iteration. *)
Lemma iterate_factors_witness :
  (Run.dim_K (Training.nodes Run.demo_final) ≤ 2)%nat ∧
  (2 - Run.dim_K (Training.nodes Run.demo_final)
   ≤ length (filter (λ i : Z, Is_true (Run.drop_iteration Run.demo_options i))
               (Run.iterations_made
                  (Training.maxiter Run.demo_train_options) None)))%nat ∧
  (Run.drop_min_r2 Run.demo_options = None →
   Run.dim_K (Training.nodes Run.demo_final) = 2%nat) ∧
  (Run.dim_K (Training.nodes Run.demo_final) < 2 →
   1 ≤ Run.dim_K (Training.nodes Run.demo_final))%nat.
Proof.
  apply (iterate_factors Pruning.delete_positions (λ _, Pruning.two_groups)
           (λ _ nodes, Returns nodes) (λ nodes, Returns (nodes, (-10)%float))
           (λ _, Returns (-10)%float) (λ _, 0%nat) 1 2 Run.demo_options
           Run.demo_train_options 2
           [("Z", [0; 1]%nat); ("W", [0; 1]%nat)] Run.demo_final None).
  vm_compute. reflexivity.
Defined.

(** X9 witness: the factor counts recorded by the example run. *)
Lemma iterate_number_factors_witness :
  let nf := Run.number_factors (Training.nodes Run.demo_final) in
  length nf = Z.to_nat (Training.maxiter Run.demo_train_options + 1) ∧
  nf !! 0%nat = Some (Some 2%nat) ∧
  (∀ j, (1 ≤ j < length nf)%nat →
     (Z.of_nat j < Training.maxiter Run.demo_train_options)%Z →
     if Run.drop_iteration Run.demo_options (Z.of_nat j)
     then ∃ k, nf !! j = Some (Some k) ∧
               (Run.dim_K (Training.nodes Run.demo_final) ≤ k ≤ 2)%nat
     else nf !! j = Some None) ∧
  (@None Z = None → (1 ≤ Training.maxiter Run.demo_train_options)%Z →
   nf !! Z.to_nat (Training.maxiter Run.demo_train_options) = Some None).
Proof.
  apply (iterate_number_factors Pruning.delete_positions
           (λ _, Pruning.two_groups)
           (λ _ nodes, Returns nodes) (λ nodes, Returns (nodes, (-10)%float))
           (λ _, Returns (-10)%float) (λ _, 0%nat) 1 2 Run.demo_options
           Run.demo_train_options 2
           [("Z", [0; 1]%nat); ("W", [0; 1]%nat)] Run.demo_final None).
  vm_compute. reflexivity.
Defined.

(** ** Training options and ELBO records, in general *)

Section OptionsCoverage.
Import TrainOptions.

Lemma run_asserts_first_missing (pre post : list (string * string))
    (k msg : string) (train_opts : gmap string pyval) :
  (∀ k', k' ∈ pre.*1 → is_Some (train_opts !! k')) →
  train_opts !! k = None →
  run_asserts (pre ++ (k, msg) :: post) train_opts = Raises msg.
Proof.
  induction pre as [|[k' msg'] pre IH]; intros Hpre Hk.
  - simpl. by rewrite Hk.
  - simpl. destruct (Hpre k') as [v ->]; [left|].
    apply IH; [|exact Hk]. intros k'' Hin. apply Hpre. by right.
Qed.

(** X5.  [setTrainOptions] reports the first missing key, in the order of
    the assertions: when all the keys asserted before [k] are present and
    [k] is not, the error carries the message of the assertion of [k],
    whatever else is missing.  The message names the key, except that a
    missing [start_elbo] is reported as ['gpu_mode' not found]. *)
Theorem setTrainOptions_first_missing (self : BayesNet)
    (train_opts : gmap string pyval) (pre post : list (string * string))
    (k msg : string) :
  sanity_checks = pre ++ (k, msg) :: post →
  (∀ k', k' ∈ pre.*1 → is_Some (train_opts !! k')) →
  train_opts !! k = None →
  setTrainOptions self train_opts = Raises msg ∧
  msg = ("'" +:+ (if decide (k = "start_elbo") then "gpu_mode" else k)
         +:+ "' not found in the training options dictionary").
Proof.
  intros Hsplit Hpre Hk. split.
  - unfold setTrainOptions. rewrite Hsplit.
    by rewrite (run_asserts_first_missing pre post k msg train_opts Hpre Hk).
  - clear Hpre Hk. unfold sanity_checks in Hsplit.
    do 12 (destruct pre as [|? pre];
           [by injection Hsplit as <- <- _|injection Hsplit as _ Hsplit]).
    by destruct pre.
Qed.

End OptionsCoverage.

(** X5 witness: a dictionary that lacks [start_elbo] only. *)
Lemma setTrainOptions_first_missing_witness :
  TrainOptions.setTrainOptions (TrainOptions.init ∅)
    (delete "start_elbo" TrainOptions.full_opts)
  = Raises "'gpu_mode' not found in the training options dictionary" ∧
  "'gpu_mode' not found in the training options dictionary"
  = ("'" +:+ (if decide ("start_elbo" = "start_elbo")
              then "gpu_mode" else "start_elbo")
     +:+ "' not found in the training options dictionary").
Proof.
  apply (setTrainOptions_first_missing (TrainOptions.init ∅)
           (delete "start_elbo" TrainOptions.full_opts)
           (take 11 TrainOptions.sanity_checks) []).
  - reflexivity.
  - intros k' Hk'. apply (bool_decide_unpack _).
    revert k' Hk'. apply Forall_forall.
    repeat (apply Forall_cons; split; [vm_compute; reflexivity|]).
    apply Forall_nil_2.
  - vm_compute. reflexivity.
Defined.

Section ElboCoverage.
Import Elbo.

Lemma series_set_labels (s : series) (label : string) (v : float) :
  label ∈ s.*1 → (series_set s label v).*1 = s.*1.
Proof.
  intros Hin. unfold series_set.
  destruct (filter (labelled label) s) as [|e l] eqn:Hf.
  - apply list_elem_of_fmap in Hin as ([l' v'] & -> & Hin).
    assert ((l', v') ∈ filter (labelled l') s) as Hin'.
    { apply list_elem_of_filter. by split. }
    simpl in Hf. rewrite Hf in Hin'. by apply not_elem_of_nil in Hin'.
  - rewrite <- list_fmap_compose. apply list_fmap_ext.
    intros i [l' v'] _. simpl. by case_decide.
Qed.

Lemma series_get_labelled (s : series) (label : string) (v : float) :
  series_get s label = Returns v → label ∈ s.*1.
Proof.
  unfold series_get. intros H.
  destruct (filter (labelled label) s) as [|[l' v'] rest] eqn:Hf;
    [discriminate H|].
  assert ((l', v') ∈ filter (labelled label) s) as Hin
    by (rewrite Hf; left).
  apply list_elem_of_filter in Hin as [Hl Hin]. unfold labelled in Hl.
  simpl in Hl. subst l'. apply list_elem_of_fmap. by exists (label, v').
Qed.

Lemma registry_get_inv (nodes : registry) (name : string) (n : node) :
  registry_get nodes name = Returns n → (name, n) ∈ nodes.
Proof.
  unfold registry_get. intros H.
  destruct (list_find (λ e, e.1 = name) nodes) as [[i [l nd]]|] eqn:Hfind;
    [|discriminate H].
  injection H as <-. apply list_find_Some in Hfind as (Hi & Hl & _).
  simpl in Hl. subst l. by apply list_elem_of_lookup_2 in Hi.
Qed.

(** One pass of the loop body that returns keeps the labels of the
    record, and was made for a registered node. *)
Lemma add_node_inv (nodes : registry) (elbo elbo' : series) (name : string) :
  add_node nodes elbo name = Returns elbo' →
  name ∈ elbo.*1 →
  name ∈ nodes.*1 ∧ elbo'.*1 = elbo.*1.
Proof.
  unfold add_node. intros H Hin.
  inv_bind H as n Hn. inv_bind H as total Ht. inv_bind H as v Hv.
  injection H as <-. split.
  - apply registry_get_inv in Hn. apply list_elem_of_fmap. by exists (name, n).
  - apply series_get_labelled in Ht.
    rewrite series_set_labels by exact Ht. by apply series_set_labels.
Qed.

Lemma add_nodes_inv (nodes : registry) (names : list string) :
  ∀ elbo elbo',
    add_nodes nodes elbo names = Returns elbo' →
    names ⊆ elbo.*1 →
    names ⊆ nodes.*1 ∧ elbo'.*1 = elbo.*1.
Proof.
  induction names as [|n rest IH]; intros elbo elbo' H Hsub.
  - injection H as <-. split; [apply list_subseteq_nil|reflexivity].
  - rewrite add_nodes_cons in H. inv_bind H as elbo1 H1.
    apply add_node_inv in H1 as [Hn Hl1]; [|apply Hsub; left].
    apply IH in H as [Hrest Hl].
    + split; [|congruence].
      intros x Hx. apply elem_of_cons in Hx as [->|Hx]; [exact Hn|by apply Hrest].
    + rewrite Hl1. intros x Hx. apply Hsub. by right.
Qed.

(** X11.  Whenever [calculateELBO] returns a record, every node it was
    asked for is a registered node, and the labels of the record are the
    names asked for (by default those of the variational nodes), in their
    order, followed by ["total"]. *)
Theorem calculateELBO_labels (nodes : registry) (names : list string)
    (elbo : series) :
  calculateELBO nodes names = Returns elbo →
  names ⊆ nodes.*1 ∧
  elbo.*1 = (if decide (length names = 0%nat)
             then (getVariationalNodes nodes).*1 else names) ++ ["total"].
Proof.
  unfold calculateELBO. intros H.
  set (requested := if decide (length names = 0%nat)
                    then (getVariationalNodes nodes).*1 else names) in *.
  assert (((λ name, (name, 0%float)) <$> requested ++ ["total"]).*1
          = requested ++ ["total"]) as Hlabels.
  { rewrite <- list_fmap_compose. apply list_fmap_id. }
  apply add_nodes_inv in H as [Hreg ->].
  - split; [|exact Hlabels].
    unfold requested in Hreg. case_decide; [|exact Hreg].
    destruct names; [apply list_subseteq_nil|done].
  - rewrite Hlabels. intros x Hx. apply elem_of_app. by left.
Qed.

End ElboCoverage.

(** X11 witness: the record of two nodes of the example registry. *)
Lemma calculateELBO_labels_witness :
  ["W"; "Tau"] ⊆ Elbo.demo_registry.*1 ∧
  [("W", 2.25%float); ("Tau", 0.1%float); ("total", 2.35%float)].*1
  = (if decide (length ["W"; "Tau"] = 0%nat)
     then (Elbo.getVariationalNodes Elbo.demo_registry).*1
     else ["W"; "Tau"]) ++ ["total"].
Proof.
  apply (calculateELBO_labels Elbo.demo_registry ["W"; "Tau"]
           [("W", 2.25%float); ("Tau", 0.1%float); ("total", 2.35%float)]).
  vm_compute. reflexivity.
Defined.

(** ** Mini-batches and step sizes, in general *)

Section SamplingCoverage.
Import Stochastic Sampling.

(** X12.  Whatever the arithmetic, a call of the mini-batch sampler that
    returns hands out a contiguous slice of the permutation in use, which
    is the fresh permutation or the one kept from the previous call: no
    position is handed out twice within a mini-batch.  The same mini-batch
    is passed to the nodes, and [N] is untouched. *)
Theorem sample_mini_batch_no_replace_slice {num : Type} `{!BatchArith num}
    (batch_size : num) (permutation : list Z) (self self' : sampler)
    (i epoch : Z) (ix : list Z) :
  sample_mini_batch_no_replace batch_size permutation self i
    = Returns (self', (ix, epoch)) →
  dim_N self' = dim_N self ∧ mini_batch self' = Some ix ∧
  ∃ l, shuffled_ix self' = Some l ∧
       (l = permutation ∨ shuffled_ix self = Some l) ∧
       (∃ lo n, ix = take n (drop lo l)) ∧
       (NoDup l → NoDup ix) ∧
       (∀ x, x ∈ ix → x ∈ l).
Proof.
  unfold sample_mini_batch_no_replace. intros H.
  inv_bind H as inv Hinv. inv_bind H as n_batches Hn.
  inv_bind H as batch_ix Hb. inv_bind H as q Hq. inv_bind H as ep Hep.
  inv_bind H as lo Hlo. inv_bind H as hi Hhi.
  destruct (if (batch_ix =? 0)%Z then Some permutation else shuffled_ix self)
    as [l|] eqn:Hl; [|discriminate H].
  injection H as <- <- <-. simpl.
  split; [reflexivity|]. split; [reflexivity|].
  exists l. split; [reflexivity|]. split.
  { destruct (batch_ix =? 0)%Z; [left; congruence|by right]. }
  assert (py_slice l lo (if (dim_N self <? hi)%Z then dim_N self else hi)
          `sublist_of` l) as Hsub.
  { unfold py_slice. etrans; [apply sublist_take|apply sublist_drop]. }
  split; [unfold py_slice; by eexists _, _|].
  split.
  - intros Hdup. by eapply sublist_NoDup.
  - intros x Hx. by eapply elem_of_sublist.
Qed.

(** X13.  A sampler that has not shuffled yet can only be called at the
    start of an epoch: if the call returns, its argument is one more than
    a multiple of the number of mini-batches, and the permutation drawn in
    the call is in use afterwards. *)
Theorem sample_mini_batch_no_replace_fresh {num : Type} `{!BatchArith num}
    (batch_size : num) (permutation : list Z) (self self' : sampler)
    (i epoch : Z) (ix : list Z) :
  shuffled_ix self = None →
  sample_mini_batch_no_replace batch_size permutation self i
    = Returns (self', (ix, epoch)) →
  shuffled_ix self' = Some permutation ∧
  ∃ inv n_batches,
    inverse batch_size = Returns inv ∧ ceiling inv = Returns n_batches ∧
    n_batches ≠ 0%Z ∧ ((i - 1) mod n_batches = 0)%Z.
Proof.
  unfold sample_mini_batch_no_replace. intros Hfresh H.
  inv_bind H as inv Hinv. inv_bind H as n_batches Hn.
  inv_bind H as batch_ix Hb. inv_bind H as q Hq. inv_bind H as ep Hep.
  inv_bind H as lo Hlo. inv_bind H as hi Hhi.
  unfold Training.py_mod in Hb.
  destruct (n_batches =? 0)%Z eqn:Hn0; [discriminate Hb|].
  injection Hb as <-. rewrite Hfresh in H.
  destruct ((i - 1) mod n_batches =? 0)%Z eqn:Hmod; [|discriminate H].
  injection H as <- <- <-. split; [reflexivity|].
  exists inv, n_batches. repeat split; try done; lia.
Qed.

Lemma choice_no_replace_inv (N S : Z) (permutation ix : list Z) :
  choice_no_replace N S permutation = Returns ix →
  (0 ≤ S ≤ N)%Z ∧ ix = take (Z.to_nat S) permutation.
Proof.
  unfold choice_no_replace. intros H.
  destruct (S <? 0)%Z eqn:H0; [discriminate H|].
  destruct (N <? S)%Z eqn:HN; [discriminate H|].
  injection H as <-. split; [lia|reflexivity].
Qed.

(** X14.  [sample_mini_batch] draws without replacement: given a
    permutation of [range(N)], a call that returns hands out
    [int(batch_size * N)] distinct positions of [range(N)], which is also
    what the nodes are given; it cannot return when that size is negative
    or larger than [N]. *)
Theorem sample_mini_batch_distinct {num : Type} `{!BatchArith num}
    (batch_size : num) (permutation : list Z) (self self' : sampler)
    (ix : list Z) :
  permutation ≡ₚ zrange 0 (Z.to_nat (dim_N self)) →
  sample_mini_batch batch_size permutation self = Returns (self', ix) →
  ∃ S, truncate (times batch_size (dim_N self)) = Returns S ∧
       (0 ≤ S ≤ dim_N self)%Z ∧
       length ix = Z.to_nat S ∧ NoDup ix ∧
       (∀ x, x ∈ ix → (0 ≤ x < dim_N self)%Z) ∧
       mini_batch self' = Some ix ∧ dim_N self' = dim_N self.
Proof.
  unfold sample_mini_batch. intros Hperm H.
  inv_bind H as S HS. inv_bind H as ix' Hix. injection H as <- <-.
  apply choice_no_replace_inv in Hix as [Hrange ->].
  assert (NoDup (zrange 0 (Z.to_nat (dim_N self)))) as Hdup.
  { unfold zrange. apply NoDup_fmap_2; [|apply NoDup_seq].
    intros a b Hab. lia. }
  assert (length permutation = Z.to_nat (dim_N self)) as Hlen.
  { rewrite Hperm. unfold zrange. by rewrite length_fmap, length_seq. }
  exists S. split; [exact HS|]. split; [exact Hrange|].
  split; [rewrite length_take; lia|]. split.
  - eapply sublist_NoDup; [|apply sublist_take]. by rewrite Hperm.
  - split; [|by split]. intros x Hx.
    assert (x ∈ permutation) as Hin
      by (eapply elem_of_sublist; [exact Hx|apply sublist_take]).
    rewrite Hperm in Hin. unfold zrange in Hin.
    apply list_elem_of_fmap in Hin as (k & -> & Hk).
    apply elem_of_seq in Hk. lia.
Qed.

Section DefineMiniBatchCoverage.
Context {node : Type}.
Variable node_define_mini_batch : list Z → node → node.

#[local] Abbreviation define_on := (define_on node_define_mini_batch).
#[local] Abbreviation define_if_present :=
  (define_if_present node_define_mini_batch).
#[local] Abbreviation define_mini_batch :=
  (define_mini_batch node_define_mini_batch).

Lemma define_if_present_alter (nodes : gmap string node) (name : string)
    (ix : list Z) :
  define_if_present nodes name ix
  = alter (node_define_mini_batch ix) name nodes.
Proof.
  unfold Sampling.define_if_present. apply map_eq. intros k.
  destruct (nodes !! name) as [n|] eqn:Hn.
  - destruct (decide (k = name)) as [->|Hne].
    + by rewrite lookup_insert_eq, lookup_alter_eq, Hn.
    + by rewrite lookup_insert_ne, lookup_alter_ne.
  - destruct (decide (k = name)) as [->|Hne].
    + by rewrite lookup_alter_eq, Hn.
    + by rewrite lookup_alter_ne.
Qed.

Lemma define_on_inv (nodes nodes' : gmap string node) (name : string)
    (ix : list Z) :
  define_on nodes name ix = Returns nodes' →
  is_Some (nodes !! name) ∧
  nodes' = alter (node_define_mini_batch ix) name nodes.
Proof.
  unfold Sampling.define_on. intros H.
  destruct (nodes !! name) as [n|] eqn:Hn; [|discriminate H].
  injection H as <-. split; [by eexists|].
  rewrite <- define_if_present_alter. unfold Sampling.define_if_present.
  by rewrite Hn.
Qed.

(** X15.  [define_mini_batch] needs the nodes [Y] and [Tau] and fails
    with a [KeyError] without them.  When it returns, the registry has
    the same keys; each of [Y], [Tau], [AlphaZ] and [ThetaZ] that is
    registered has been given the mini-batch once, and every other node
    is as it was. *)
Theorem define_mini_batch_frame (nodes : gmap string node) (ix : list Z) :
  (nodes !! "Y" = None ∨ nodes !! "Tau" = None →
   define_mini_batch nodes ix = Raises "KeyError") ∧
  (is_Some (nodes !! "Y") → is_Some (nodes !! "Tau") →
   ∃ nodes',
     define_mini_batch nodes ix = Returns nodes' ∧
     ∀ name,
       nodes' !! name
       = if decide (name ∈ batched_nodes)
         then node_define_mini_batch ix <$> nodes !! name
         else nodes !! name).
Proof.
  unfold Sampling.define_mini_batch, Sampling.define_on. split.
  - intros [HY|HT].
    + by rewrite HY.
    + destruct (nodes !! "Y") as [y|]; [|reflexivity]. simpl.
      by rewrite lookup_insert_ne, HT.
  - intros [y HY] [t HT]. rewrite HY. simpl.
    rewrite lookup_insert_ne, HT by done. simpl.
    eexists. split; [reflexivity|]. intros name.
    rewrite !define_if_present_alter.
    unfold batched_nodes.
    destruct (decide (name = "ThetaZ")) as [->|H1].
    { rewrite lookup_alter_eq, lookup_alter_ne, !lookup_insert_ne by done.
      rewrite decide_True; [reflexivity|].
      apply list_elem_of_In. simpl. tauto. }
    rewrite lookup_alter_ne by done.
    destruct (decide (name = "AlphaZ")) as [->|H2].
    { rewrite lookup_alter_eq, !lookup_insert_ne by done.
      rewrite decide_True; [reflexivity|].
      apply list_elem_of_In. simpl. tauto. }
    rewrite lookup_alter_ne by done.
    destruct (decide (name = "Tau")) as [->|H3].
    { rewrite lookup_insert_eq, HT.
      rewrite decide_True; [reflexivity|].
      apply list_elem_of_In. simpl. tauto. }
    rewrite lookup_insert_ne by done.
    destruct (decide (name = "Y")) as [->|H4].
    { rewrite lookup_insert_eq, HY.
      rewrite decide_True; [reflexivity|].
      apply list_elem_of_In. simpl. tauto. }
    rewrite lookup_insert_ne by done.
    rewrite decide_False; [reflexivity|].
    rewrite list_elem_of_In. simpl. intuition congruence.
Qed.

End DefineMiniBatchCoverage.

(** X16.  The step size [step_size2] for a positive learning rate and a
    non-negative forgetting rate: it is defined for every epoch from 0 on,
    equals the learning rate at epoch 0, stays positive and never exceeds
    the learning rate, does not increase with the epoch, and strictly
    decreases when the forgetting rate is positive. *)
Theorem step_size2_bounds (learning_rate forgetting_rate : R) (e1 e2 : Z) :
  (0 < learning_rate)%R → (0 <= forgetting_rate)%R → (0 ≤ e1 ≤ e2)%Z →
  step_size2 learning_rate forgetting_rate 0 = Returns learning_rate ∧
  ∃ r1 r2,
    step_size2 learning_rate forgetting_rate e1 = Returns r1 ∧
    step_size2 learning_rate forgetting_rate e2 = Returns r2 ∧
    (0 < r2 <= r1)%R ∧ (r1 <= learning_rate)%R ∧
    ((0 < forgetting_rate)%R → (e1 < e2)%Z → (r2 < r1)%R).
Proof.
  intros Hlr Hfr [H0 H12].
  assert (0 <= IZR e1)%R as Hr0 by (apply IZR_le in H0; exact H0).
  assert (IZR e1 <= IZR e2)%R as Hr12 by (by apply IZR_le).
  assert (0 <= forgetting_rate * IZR e1)%R as Hf1
    by (apply Rmult_le_pos; lra).
  assert (forgetting_rate * IZR e1 <= forgetting_rate * IZR e2)%R as Hf12
    by (apply Rmult_le_compat_l; lra).
  assert (∀ x, (1 <= x)%R → (1 <= Rpower x (3 / 4))%R) as Hge1.
  { intros x Hx. destruct (Req_dec x 1) as [->|Hne].
    - unfold Rpower. rewrite ln_1, Rmult_0_r, exp_0. lra.
    - rewrite <- (Rpower_O x) at 1 by lra.
      left. apply Rpower_lt; lra. }
  assert (∀ x y, (1 <= x)%R → (x <= y)%R →
            (Rpower x (3 / 4) <= Rpower y (3 / 4))%R) as Hmono.
  { intros x y Hx Hxy. apply Rle_Rpower_l; lra. }
  set (p1 := Rpower (1 + forgetting_rate * IZR e1) (3 / 4)).
  set (p2 := Rpower (1 + forgetting_rate * IZR e2) (3 / 4)).
  assert (1 <= p1)%R as Hp1 by (apply Hge1; lra).
  assert (p1 <= p2)%R as Hp12 by (apply Hmono; lra).
  split.
  - rewrite step_size2_positive by (simpl; lra). f_equal.
    replace (1 + forgetting_rate * 0)%R with 1%R by lra.
    unfold Rpower. rewrite ln_1, Rmult_0_r, exp_0. lra.
  - exists (learning_rate / p1)%R, (learning_rate / p2)%R.
    rewrite !step_size2_positive by lra. fold p1 p2.
    split; [reflexivity|]. split; [reflexivity|].
    assert (0 < / p2 <= / p1)%R as [Hi2 Hi12].
    { split; [apply Rinv_0_lt_compat; lra|apply Rinv_le_contravar; lra]. }
    assert (/ p1 <= 1)%R as Hi1.
    { rewrite <- Rinv_1. apply Rinv_le_contravar; lra. }
    unfold Rdiv. split; [split|split].
    + apply Rmult_lt_0_compat; lra.
    + apply Rmult_le_compat_l; lra.
    + rewrite <- (Rmult_1_r learning_rate) at 2.
      apply Rmult_le_compat_l; lra.
    + intros Hfpos Hlt. apply Rmult_lt_compat_l; [exact Hlr|].
      apply Rinv_lt_contravar; [apply Rmult_lt_0_compat; lra|].
      apply Rlt_Rpower_l; [lra|]. split; [lra|].
      apply IZR_lt in Hlt. apply Rplus_lt_compat_l.
      apply Rmult_lt_compat_l; lra.
Qed.

(** X17.  The step size [step_size] for a positive learning rate and a
    positive forgetting rate: it is defined for every iteration from 0 on,
    positive, strictly decreasing in the iteration, and at most 1 once
    [i + learning_rate] has reached 1. *)
Theorem step_size_decreasing (learning_rate forgetting_rate : R) (i j : Z) :
  (0 < learning_rate)%R → (0 < forgetting_rate)%R → (0 ≤ i < j)%Z →
  ∃ ri rj,
    step_size learning_rate forgetting_rate i = Returns ri ∧
    step_size learning_rate forgetting_rate j = Returns rj ∧
    (0 < rj < ri)%R ∧
    ((1 <= IZR i + learning_rate)%R → (ri <= 1)%R).
Proof.
  intros Hlr Hfr [H0 Hij].
  assert (0 <= IZR i)%R as Hr0 by (apply IZR_le in H0; exact H0).
  assert (IZR i < IZR j)%R as Hrij by (by apply IZR_lt).
  unfold step_size. rewrite !py_pow_positive by lra.
  do 2 eexists. split; [reflexivity|]. split; [reflexivity|].
  split; [split|].
  - unfold Rpower. apply exp_pos.
  - rewrite !Rpower_Ropp.
    apply Rinv_lt_contravar.
    + apply Rmult_lt_0_compat; unfold Rpower; apply exp_pos.
    + apply Rlt_Rpower_l; lra.
  - intros H1. rewrite Rpower_Ropp, <- Rinv_1.
    apply Rinv_le_contravar; [lra|].
    destruct (Req_dec (IZR i + learning_rate) 1) as [->|Hne].
    + unfold Rpower. rewrite ln_1, Rmult_0_r, exp_0. lra.
    + rewrite <- (Rpower_O (IZR i + learning_rate)) at 1 by lra.
      left. apply Rpower_lt; lra.
Qed.

End SamplingCoverage.

(** X12 witness: the first call on four samples with half of them per
    mini-batch. *)
Lemma sample_mini_batch_no_replace_slice_witness :
  Stochastic.dim_N
    {| Stochastic.dim_N := 4; Stochastic.shuffled_ix := Some [2; 0; 3; 1]%Z;
       Stochastic.mini_batch := Some [2; 0]%Z |}
  = Stochastic.dim_N Stochastic.demo_sampler ∧
  Stochastic.mini_batch
    {| Stochastic.dim_N := 4; Stochastic.shuffled_ix := Some [2; 0; 3; 1]%Z;
       Stochastic.mini_batch := Some [2; 0]%Z |}
  = Some [2; 0]%Z ∧
  ∃ l, Stochastic.shuffled_ix
         {| Stochastic.dim_N := 4;
            Stochastic.shuffled_ix := Some [2; 0; 3; 1]%Z;
            Stochastic.mini_batch := Some [2; 0]%Z |}
       = Some l ∧
       (l = [2; 0; 3; 1]%Z
        ∨ Stochastic.shuffled_ix Stochastic.demo_sampler = Some l) ∧
       (∃ lo n, [2; 0]%Z = take n (drop lo l)) ∧
       (NoDup l → NoDup [2; 0]%Z) ∧
       (∀ x, x ∈ [2; 0]%Z → x ∈ l).
Proof.
  apply (sample_mini_batch_no_replace_slice 0.5%float [2; 0; 3; 1]%Z
           Stochastic.demo_sampler _ 1 0 [2; 0]%Z).
  vm_compute. reflexivity.
Defined.

(** X13 witness: the same call, on the fresh sampler. *)
Lemma sample_mini_batch_no_replace_fresh_witness :
  Stochastic.shuffled_ix
    {| Stochastic.dim_N := 4; Stochastic.shuffled_ix := Some [2; 0; 3; 1]%Z;
       Stochastic.mini_batch := Some [2; 0]%Z |}
  = Some [2; 0; 3; 1]%Z ∧
  ∃ inv n_batches,
    Stochastic.inverse 0.5%float = Returns inv ∧
    Stochastic.ceiling inv = Returns n_batches ∧
    n_batches ≠ 0%Z ∧ ((1 - 1) mod n_batches = 0)%Z.
Proof.
  apply (sample_mini_batch_no_replace_fresh 0.5%float [2; 0; 3; 1]%Z
           Stochastic.demo_sampler _ 1 0 [2; 0]%Z).
  - reflexivity.
  - vm_compute. reflexivity.
Defined.

(** X14 witness: half of four samples. *)
Lemma sample_mini_batch_distinct_witness :
  ∃ S, Stochastic.truncate
         (Stochastic.times 0.5%float
            (Stochastic.dim_N Stochastic.demo_sampler)) = Returns S ∧
       (0 ≤ S ≤ Stochastic.dim_N Stochastic.demo_sampler)%Z ∧
       length [2; 0]%Z = Z.to_nat S ∧ NoDup [2; 0]%Z ∧
       (∀ x, x ∈ [2; 0]%Z →
             (0 ≤ x < Stochastic.dim_N Stochastic.demo_sampler)%Z) ∧
       Stochastic.mini_batch
         {| Stochastic.dim_N := 4; Stochastic.shuffled_ix := None;
            Stochastic.mini_batch := Some [2; 0]%Z |}
       = Some [2; 0]%Z ∧
       Stochastic.dim_N
         {| Stochastic.dim_N := 4; Stochastic.shuffled_ix := None;
            Stochastic.mini_batch := Some [2; 0]%Z |}
       = Stochastic.dim_N Stochastic.demo_sampler.
Proof.
  apply (sample_mini_batch_distinct 0.5%float [2; 0; 3; 1]%Z
           Stochastic.demo_sampler _ [2; 0]%Z).
  - change (Stochastic.zrange 0 (Z.to_nat (Stochastic.dim_N Stochastic.demo_sampler)))
      with [0; 1; 2; 3]%Z.
    etrans; [apply Permutation_swap|]. apply Permutation_skip.
    symmetry. apply (Permutation_cons_append [2; 3]%Z 1%Z).
  - vm_compute. reflexivity.
Defined.

(** X16 witness: learning rate 1, forgetting rate 0.5, epochs 0 and 1. *)
Lemma step_size2_bounds_witness :
  Stochastic.step_size2 1 0.5 0 = Returns 1%R ∧
  ∃ r1 r2,
    Stochastic.step_size2 1 0.5 0 = Returns r1 ∧
    Stochastic.step_size2 1 0.5 1 = Returns r2 ∧
    (0 < r2 <= r1)%R ∧ (r1 <= 1)%R ∧
    ((0 < 0.5)%R → (0 < 1)%Z → (r2 < r1)%R).
Proof.
  apply (step_size2_bounds 1 0.5 0 1); [lra|lra|lia].
Defined.

(** X17 witness: learning rate 1, forgetting rate 0.5, iterations 0
    and 1. *)
Lemma step_size_decreasing_witness :
  ∃ ri rj,
    Sampling.step_size 1 0.5 0 = Returns ri ∧
    Sampling.step_size 1 0.5 1 = Returns rj ∧
    (0 < rj < ri)%R ∧ ((1 <= IZR 0 + 1)%R → (ri <= 1)%R).
Proof.
  apply (step_size_decreasing 1 0.5 0 1); [lra|lra|lia].
Defined.

(** ** The noise-precision node, in general *)

Section TauCoverage.
Import Tau TauUse.

Lemma zero_masked_idem (A : rmatrix) (mask : bmatrix) :
  zero_masked (zero_masked A mask) mask = zero_masked A mask.
Proof.
  unfold zero_masked, zip2. rewrite zip_with_zip_with_l.
  revert mask. induction A as [|a A IH]; intros [|m mask]; simpl; [done..|].
  rewrite IH. f_equal. rewrite zip_with_zip_with_l.
  clear. revert m. induction a as [|x a IH]; intros [|b m]; simpl; [done..|].
  rewrite IH. by destruct b.
Qed.

(** The masked array is what a reader that honours the mask sees, with
    zero at the missing positions. *)
Lemma zero_masked_visible (A : rmatrix) (mask : bmatrix) :
  zero_masked A mask
  = (λ row : list (option R), default 0%R <$> row)
      <$> zip2 (λ x (b : bool), if b then None else Some x) A mask.
Proof.
  unfold zero_masked, zip2.
  revert mask. induction A as [|a A IH]; intros [|m mask]; simpl; [done..|].
  rewrite IH. f_equal.
  clear. revert m. induction a as [|x a IH]; intros [|b m]; simpl; [done..|].
  rewrite IH. by destruct b.
Qed.

(** X18.  The update is idempotent: with the moments of the neighbours
    unchanged, a second update returns the state the first one left. *)
Theorem updateParameters_idempotent (w w' : world) :
  updateParameters w = Returns w' → updateParameters w' = Returns w'.
Proof.
  unfold updateParameters, Y_getExpectation. intros H.
  destruct (Qa_pre w) as [a_pre|] eqn:Hpre; [|discriminate H].
  injection H as <-. simpl. unfold n_features. simpl.
  by rewrite !zero_masked_idem.
Qed.

(** X19.  The update is a function of the mask, the non-missing
    observations, the moments of the loadings and factors, the prior and
    the cached shape: the values stored at missing positions and the
    current posterior have no influence on the result. *)
Theorem updateParameters_ignores_missing (w1 w2 r1 r2 : world) :
  update_inputs w1 = update_inputs w2 →
  updateParameters w1 = Returns r1 →
  updateParameters w2 = Returns r2 →
  Q_a r1 = Q_a r2 ∧ Q_b r1 = Q_b r2 ∧ Y_data r1 = Y_data r2.
Proof.
  unfold update_inputs. intros Hin H1 H2.
  injection Hin as Hvis Hmask HW HWW HZ HZZ HPa HPb Hpre.
  assert (zero_masked (Y_data w1) (Y_mask w1)
          = zero_masked (Y_data w2) (Y_mask w2)) as HY.
  { rewrite !zero_masked_visible. unfold visible in Hvis. by rewrite Hvis. }
  unfold updateParameters, Y_getExpectation, n_features in H1, H2.
  cbv beta iota zeta in H1, H2.
  rewrite <- HY, <- Hpre, <- HW, <- HWW, <- HZ, <- HZZ, <- HPb, <- Hmask in H2.
  destruct (Qa_pre w1) as [a_pre|]; [|discriminate H1].
  injection H1 as <-. injection H2 as <-. by simpl.
Qed.

End TauCoverage.

(** X18 witness: the update of the example node, twice. *)
Lemma updateParameters_idempotent_witness :
  ∃ w', Tau.updateParameters (Tau.precompute (λ _, 0%R) Tau.demo) = Returns w' ∧
        Tau.updateParameters w' = Returns w'.
Proof.
  eexists. split; [reflexivity|].
  apply (updateParameters_idempotent (Tau.precompute (λ _, 0%R) Tau.demo)).
  reflexivity.
Defined.

(** X19 witness: the example node, and the same node with -7 stored at
    the missing position and another posterior. *)
Lemma updateParameters_ignores_missing_witness :
  ∃ r1 r2,
    Tau.updateParameters (Tau.precompute (λ _, 0%R) Tau.demo) = Returns r1 ∧
    Tau.updateParameters (Tau.precompute (λ _, 0%R) TauUse.demo_other)
      = Returns r2 ∧
    Tau.Q_a r1 = Tau.Q_a r2 ∧ Tau.Q_b r1 = Tau.Q_b r2 ∧
    Tau.Y_data r1 = Tau.Y_data r2.
Proof.
  do 2 eexists. split; [reflexivity|]. split; [reflexivity|].
  apply (updateParameters_ignores_missing
           (Tau.precompute (λ _, 0%R) Tau.demo)
           (Tau.precompute (λ _, 0%R) TauUse.demo_other));
    reflexivity.
Defined.

(** ** The convergence monitor at degenerate ELBO values *)

Section ConvergenceCoverage.
Import Convergence.
Import FloatAxioms SpecFloat.

Lemma SFltb_infinity (y : spec_float) : SFltb (S754_infinity false) y = false.
Proof. by destruct y as [| [|] | |]. Qed.

Lemma Prim2SF_zero (x : float) :
  PrimFloat.eqb x 0 = true → ∃ s, Prim2SF x = S754_zero s.
Proof.
  rewrite eqb_spec. change (Prim2SF 0) with (S754_zero false). intros H.
  destruct (Prim2SF x) as [s|s| |s m e]; [by eexists|exfalso..];
    unfold SFeqb in H; simpl in H; try destruct s; discriminate H.
Qed.

Lemma Prim2SF_nan (x : float) :
  PrimFloat.is_nan x = true → Prim2SF x = S754_nan.
Proof.
  unfold PrimFloat.is_nan. rewrite eqb_spec. intros H.
  destruct (Prim2SF x) as [s|s| |s m e]; [|exfalso|reflexivity|exfalso];
    unfold SFeqb in H; simpl in H.
  - discriminate H.
  - destruct s; discriminate H.
  - rewrite Z.compare_refl, Pos.compare_cont_refl in H.
    destruct s; discriminate H.
Qed.

(** The relative change is not below any threshold when the initial ELBO
    is zero, or when it or the change is NaN. *)
Lemma relDelta_degenerate (delta_elbo first_elbo thr : float) :
  PrimFloat.eqb first_elbo 0 = true ∨ PrimFloat.is_nan first_elbo = true
  ∨ PrimFloat.is_nan delta_elbo = true →
  PrimFloat.ltb (relDelta delta_elbo first_elbo) thr = false.
Proof.
  intros Hcase. unfold relDelta.
  rewrite ltb_spec, mul_spec, abs_spec, div_spec.
  assert (SFabs (SF64div (Prim2SF delta_elbo) (Prim2SF first_elbo))
          = S754_infinity false
          ∨ SFabs (SF64div (Prim2SF delta_elbo) (Prim2SF first_elbo))
            = S754_nan) as [-> | ->].
  { destruct Hcase as [H0|[Hn|Hn]].
    - apply Prim2SF_zero in H0 as [s ->].
      destruct (Prim2SF delta_elbo) as [sd|sd| |sd m e]; simpl; auto.
    - apply Prim2SF_nan in Hn as ->.
      destruct (Prim2SF delta_elbo) as [sd|sd| |sd m e]; simpl; auto.
    - apply Prim2SF_nan in Hn as ->. simpl. auto. }
  - change (SF64mul (Prim2SF 100) (S754_infinity false))
      with (S754_infinity false).
    apply SFltb_infinity.
  - change (SF64mul (Prim2SF 100) S754_nan) with S754_nan. reflexivity.
Qed.

(** X22.  Division by a zero initial ELBO does not raise on floats: when
    the initial ELBO is zero (of either sign) or NaN, or the ELBO change
    is NaN, the check is not counted as sub-threshold, whatever the
    recognised mode: the token is reset to 1 and convergence is not
    declared, so a run with such a baseline never converges. *)
Theorem assess_convergence_degenerate (mode : string)
    (delta_elbo first_elbo : float) (convergence_token : Z) :
  PrimFloat.eqb first_elbo 0 = true ∨ PrimFloat.is_nan first_elbo = true
  ∨ PrimFloat.is_nan delta_elbo = true →
  is_Some (convergence_threshold mode) →
  assess_convergence mode delta_elbo first_elbo convergence_token
  = Returns (1%Z, false).
Proof.
  intros Hcase [thr Hthr]. unfold assess_convergence. rewrite Hthr.
  by rewrite relDelta_degenerate.
Qed.

End ConvergenceCoverage.

(** X22 witness: an initial ELBO of zero and three sub-threshold checks
    already counted. *)
Lemma assess_convergence_degenerate_witness :
  Convergence.assess_convergence "medium" 0.5 0 4 = Returns (1%Z, false).
Proof.
  apply (assess_convergence_degenerate "medium" 0.5 0 4).
  - left. reflexivity.
  - by eexists.
Defined.

(** ** Accessors and set-up *)

Section AccessorsCoverage.
Import Accessors.
Context {node parameters moments : Type}.
Variable node_getParameters : node → option parameters.
Variable node_getExpectation : node → moments.
Variable node_getExpectations : node → moments.

#[local] Abbreviation collect_parameters :=
  (collect_parameters node_getParameters).
#[local] Abbreviation getParameters := (getParameters node_getParameters).
#[local] Abbreviation collect_expectations :=
  (collect_expectations node_getExpectation node_getExpectations).
#[local] Abbreviation getExpectations :=
  (getExpectations node_getExpectation node_getExpectations).

Lemma registered_keys (nodes : gmap string node) (name : string) :
  name ∈ (map_to_list nodes).*1 ↔ is_Some (nodes !! name).
Proof.
  rewrite list_elem_of_fmap. split.
  - intros ([k n] & -> & Hin). apply elem_of_map_to_list in Hin. by eexists.
  - intros [n Hn]. exists (name, n). split; [reflexivity|].
    by apply elem_of_map_to_list.
Qed.

Lemma collect_parameters_lookup (nodes : gmap string node)
    (names : list string) :
  ∀ acc : gmap string parameters,
    (∀ name, name ∈ names → is_Some (nodes !! name)) →
    ∃ params,
      collect_parameters nodes names acc = Returns params ∧
      ∀ name,
        params !! name
        = if decide (name ∈ names)
          then match nodes !! name ≫= node_getParameters with
               | Some v => Some v
               | None => acc !! name
               end
          else acc !! name.
Proof.
  induction names as [|n rest IH]; intros acc Hreg.
  - exists acc. split; [reflexivity|]. intros name.
    rewrite decide_False; [reflexivity|apply not_elem_of_nil].
  - simpl. destruct (Hreg n) as [nd Hnd]; [left|]. rewrite Hnd.
    destruct (IH (match node_getParameters nd with
                  | Some tmp => <[n := tmp]> acc
                  | None => acc
                  end)) as (params & Hparams & Hlookup).
    { intros name Hin. apply Hreg. by right. }
    exists params. split; [exact Hparams|]. intros name.
    rewrite Hlookup.
    destruct (decide (name = n)) as [->|Hne].
    + rewrite (decide_True (P := n ∈ n :: rest)) by left.
      rewrite Hnd. simpl.
      destruct (node_getParameters nd) as [tmp|] eqn:Htmp.
      * rewrite lookup_insert_eq. by case_decide.
      * by case_decide.
    + assert ((match node_getParameters nd with
               | Some tmp => <[n := tmp]> acc
               | None => acc
               end) !! name = acc !! name) as ->.
      { destruct (node_getParameters nd); [|reflexivity].
        by rewrite lookup_insert_ne. }
      destruct (decide (name ∈ rest)) as [Hin|Hnin].
      * by rewrite decide_True by (by right).
      * rewrite decide_False; [reflexivity|].
        rewrite not_elem_of_cons. by split.
Qed.

Lemma collect_parameters_missing (nodes : gmap string node)
    (names : list string) (name : string) :
  ∀ acc : gmap string parameters,
    name ∈ names → nodes !! name = None →
    collect_parameters nodes names acc = Raises "KeyError".
Proof.
  induction names as [|n rest IH]; intros acc Hin Hnone.
  - by apply not_elem_of_nil in Hin.
  - simpl. destruct (nodes !! n) as [nd|] eqn:Hnd; [|reflexivity].
    apply IH; [|exact Hnone].
    apply elem_of_cons in Hin as [->|Hin]; [congruence|exact Hin].
Qed.

(** X23.  [getParameters]: asked for registered nodes (all nodes when no
    name is given) it returns a dictionary that holds, for each node asked
    for, that node's parameters, and no entry for a node that has none
    (its [getParameters] returns [None]) or that was not asked for; asked
    for a name that is not registered it raises [KeyError]. *)
Theorem getParameters_lookup (nodes : gmap string node)
    (names : list string) :
  ((∀ name, name ∈ names → is_Some (nodes !! name)) →
   ∃ params,
     getParameters nodes names = Returns params ∧
     ∀ name,
       params !! name
       = if decide (names = [] ∨ name ∈ names)
         then nodes !! name ≫= node_getParameters
         else None) ∧
  (∀ name, name ∈ names → nodes !! name = None →
   getParameters nodes names = Raises "KeyError").
Proof.
  unfold Accessors.getParameters. split.
  - intros Hreg.
    set (requested := if decide (length names = 0%nat)
                      then (map_to_list nodes).*1 else names).
    destruct (collect_parameters_lookup nodes requested ∅)
      as (params & Hparams & Hlookup).
    { intros name Hin. unfold requested in Hin.
      case_decide; [by apply registered_keys|by apply Hreg]. }
    exists params. split; [exact Hparams|]. intros name.
    rewrite Hlookup, lookup_empty. unfold requested.
    destruct names as [|n rest].
    + destruct (decide (([] : list string) = [] ∨ name ∈ ([] : list string)))
        as [_|Hn]; [|exfalso; apply Hn; by left].
      rewrite (decide_True (P := length ([] : list string) = 0%nat))
        by reflexivity.
      destruct (decide (name ∈ (map_to_list nodes).*1)) as [Hin|Hnin].
      * by destruct (nodes !! name ≫= node_getParameters).
      * destruct (nodes !! name) as [nd|] eqn:Hnd; [|reflexivity].
        exfalso. apply Hnin, registered_keys. by eexists.
    + rewrite (decide_False (P := length (n :: rest) = 0%nat)) by done.
      destruct (decide (name ∈ n :: rest)) as [Hin|Hnin].
      * rewrite decide_True by (by right).
        by destruct (nodes !! name ≫= node_getParameters).
      * rewrite decide_False; [reflexivity|]. intros [?|?]; done.
  - intros name Hin Hnone.
    rewrite decide_False by (destruct names; [by apply not_elem_of_nil in Hin|done]).
    by apply (collect_parameters_missing nodes names name).
Qed.

Lemma collect_expectations_lookup (flag : bool) (nodes : gmap string node)
    (names : list string) :
  ∀ acc : gmap string moments,
    (∀ name, name ∈ names → is_Some (nodes !! name)) →
    ∃ expectations,
      collect_expectations flag nodes names acc = Returns expectations ∧
      ∀ name,
        expectations !! name
        = if decide (name ∈ names)
          then (if flag then node_getExpectation else node_getExpectations)
                 <$> nodes !! name
          else acc !! name.
Proof.
  induction names as [|n rest IH]; intros acc Hreg.
  - exists acc. split; [reflexivity|]. intros name.
    rewrite decide_False; [reflexivity|apply not_elem_of_nil].
  - simpl. destruct (Hreg n) as [nd Hnd]; [left|]. rewrite Hnd.
    destruct (IH (<[n := if flag then node_getExpectation nd
                         else node_getExpectations nd]> acc))
      as (expectations & Hexp & Hlookup).
    { intros name Hin. apply Hreg. by right. }
    exists expectations. split; [exact Hexp|]. intros name.
    rewrite Hlookup.
    destruct (decide (name = n)) as [->|Hne].
    + rewrite (decide_True (P := n ∈ n :: rest)) by left.
      rewrite Hnd, lookup_insert_eq. simpl.
      case_decide; by destruct flag.
    + rewrite lookup_insert_ne by done.
      destruct (decide (name ∈ rest)) as [Hin|Hnin].
      * by rewrite decide_True by (by right).
      * rewrite decide_False; [reflexivity|].
        rewrite not_elem_of_cons. by split.
Qed.

Lemma collect_expectations_missing (flag : bool) (nodes : gmap string node)
    (names : list string) (name : string) :
  ∀ acc : gmap string moments,
    name ∈ names → nodes !! name = None →
    collect_expectations flag nodes names acc = Raises "KeyError".
Proof.
  induction names as [|n rest IH]; intros acc Hin Hnone.
  - by apply not_elem_of_nil in Hin.
  - simpl. destruct (nodes !! n) as [nd|] eqn:Hnd; [|reflexivity].
    apply IH; [|exact Hnone].
    apply elem_of_cons in Hin as [->|Hin]; [congruence|exact Hin].
Qed.

(** X24.  [getExpectations]: asked for registered nodes (all nodes when
    no name is given) it returns a dictionary with exactly one entry per
    node asked for: the node's first moments when [only_first_moments] is
    set, and all its expectations otherwise; asked for a name that is not
    registered it raises [KeyError]. *)
Theorem getExpectations_lookup (only_first_moments : bool)
    (nodes : gmap string node) (names : list string) :
  ((∀ name, name ∈ names → is_Some (nodes !! name)) →
   ∃ expectations,
     getExpectations only_first_moments nodes names = Returns expectations ∧
     ∀ name,
       expectations !! name
       = if decide (names = [] ∨ name ∈ names)
         then (if only_first_moments then node_getExpectation
               else node_getExpectations) <$> nodes !! name
         else None) ∧
  (∀ name, name ∈ names → nodes !! name = None →
   getExpectations only_first_moments nodes names = Raises "KeyError").
Proof.
  unfold Accessors.getExpectations. split.
  - intros Hreg.
    set (requested := if decide (length names = 0%nat)
                      then (map_to_list nodes).*1 else names).
    destruct (collect_expectations_lookup only_first_moments nodes
                requested ∅) as (expectations & Hexp & Hlookup).
    { intros name Hin. unfold requested in Hin.
      case_decide; [by apply registered_keys|by apply Hreg]. }
    exists expectations. split; [exact Hexp|]. intros name.
    rewrite Hlookup, lookup_empty. unfold requested.
    destruct names as [|n rest].
    + destruct (decide (([] : list string) = [] ∨ name ∈ ([] : list string)))
        as [_|Hn]; [|exfalso; apply Hn; by left].
      rewrite (decide_True (P := length ([] : list string) = 0%nat))
        by reflexivity.
      destruct (decide (name ∈ (map_to_list nodes).*1)) as [Hin|Hnin];
        [reflexivity|].
      destruct (nodes !! name) as [nd|] eqn:Hnd; [|reflexivity].
      exfalso. apply Hnin, registered_keys. by eexists.
    + rewrite (decide_False (P := length (n :: rest) = 0%nat)) by done.
      destruct (decide (name ∈ n :: rest)) as [Hin|Hnin].
      * by rewrite decide_True by (by right).
      * rewrite decide_False; [reflexivity|]. intros [?|?]; done.
  - intros name Hin Hnone.
    rewrite decide_False by (destruct names; [by apply not_elem_of_nil in Hin|done]).
    by apply (collect_expectations_missing _ nodes names name).
Qed.

End AccessorsCoverage.

Section PrecomputeCoverage.
Import TrainOptions Precompute.
Context {world record : Type}.
Variable node_precompute : option (gmap string pyval) → world
                           → py_result world.
Variable calculateELBO : list pyval → world → py_result record.

#[local] Abbreviation precompute :=
  (Precompute.precompute node_precompute calculateELBO).

Lemma set_tau_trick_inv (options : option (gmap string pyval))
    (views views' : list pyval) :
  set_tau_trick options views = Returns views' →
  length views' = length views ∧
  (views ≠ [] →
   ∃ v, options_get options "Y_ELBO_TauTrick" = Returns v ∧
        views' = replicate (length views) v).
Proof.
  revert views'. induction views as [|x rest IH]; intros views' H.
  - injection H as <-. by split.
  - simpl in H. inv_bind H as v Hv. inv_bind H as rest' Hrest.
    injection H as <-. apply IH in Hrest as [Hlen Hall].
    split; [simpl; lia|]. intros _. exists v. split; [exact Hv|].
    simpl. f_equal. destruct rest as [|y rest].
    + by destruct rest'.
    + destruct Hall as (v' & Hv' & ->); [done|]. congruence.
Qed.

Lemma options_get_inv (options : option (gmap string pyval)) (key : string)
    (v : pyval) :
  options_get options key = Returns v →
  ∃ d, options = Some d ∧ d !! key = Some v.
Proof.
  unfold options_get. intros H. destruct options as [d|]; [|discriminate H].
  destruct (d !! key) as [v'|] eqn:Hk; [|discriminate H].
  injection H as <-. by exists d.
Qed.

(** X25.  [precompute]: a call that returns has precomputed the nodes,
    computed the returned ELBO with [TauTrick] switched off on every view
    of [Y], and then set [TauTrick] on every view to the option
    [Y_ELBO_TauTrick]; it needs a node [Y], the options set, and the keys
    [verbose] and (with at least one view) [Y_ELBO_TauTrick], the latter
    being a key that [setTrainOptions] does not ask for. *)
Theorem precompute_tau_trick (self self' : net world) (elbo : record) :
  precompute self = Returns (self', elbo) →
  ∃ inner' views d,
    node_precompute (options self) (inner self) = Returns inner' ∧
    tau_trick self = Some views ∧
    calculateELBO (replicate (length views) (PBool false)) inner'
    = Returns elbo ∧
    inner self' = inner' ∧ options self' = options self ∧
    options self = Some d ∧ is_Some (d !! "verbose") ∧
    (views = [] → tau_trick self' = Some []) ∧
    (views ≠ [] →
     ∃ v, d !! "Y_ELBO_TauTrick" = Some v ∧
          tau_trick self' = Some (replicate (length views) v)) ∧
    "Y_ELBO_TauTrick" ∉ asserted_keys.
Proof.
  unfold Precompute.precompute. intros H.
  inv_bind H as inner' Hinner. inv_bind H as views Hviews.
  destruct (tau_trick self) as [views0|] eqn:Htt; [|discriminate Hviews].
  injection Hviews as <-.
  inv_bind H as e He. inv_bind H as views' Hset.
  inv_bind H as verbose Hverbose. inv_bind H as q Hq. injection H as <- <-.
  apply options_get_inv in Hverbose as (d & Hd & Hv).
  assert ((λ _ : pyval, PBool false) <$> views0
          = replicate (length views0) (PBool false)) as Hoff.
  { clear. induction views0 as [|x rest IH]; [reflexivity|].
    simpl. by rewrite <- IH. }
  rewrite Hoff in He, Hset.
  apply set_tau_trick_inv in Hset as [Hlen Hall].
  rewrite length_replicate in Hlen, Hall.
  exists inner', views0, d. simpl.
  split; [exact Hinner|]. split; [reflexivity|]. split; [exact He|].
  split; [reflexivity|]. split; [reflexivity|]. split; [exact Hd|].
  split; [by eexists|]. split; [|split].
  - intros ->. by destruct views'.
  - intros Hne. destruct Hall as (v & Hget & ->).
    { by destruct views0. }
    apply options_get_inv in Hget as (d' & Hd' & Hk).
    exists v. split; [congruence|reflexivity].
  - apply (bool_decide_unpack _). vm_compute. exact I.
Qed.

End PrecomputeCoverage.

(** X25 witness: the example network. *)
Lemma precompute_tau_trick_witness :
  ∃ inner' views d,
    Returns (S (Precompute.inner Precompute.demo_net)) = Returns inner' ∧
    Precompute.tau_trick Precompute.demo_net = Some views ∧
    Precompute.demo_elbo
      (replicate (length views) (TrainOptions.PBool false)) inner'
    = Returns (-100)%float ∧
    1%nat = inner' ∧
    Precompute.options Precompute.demo_net
    = Precompute.options Precompute.demo_net ∧
    Precompute.options Precompute.demo_net = Some d ∧
    is_Some (d !! "verbose") ∧
    (views = [] → Some [TrainOptions.PBool true; TrainOptions.PBool true]
                  = Some []) ∧
    (views ≠ [] →
     ∃ v, d !! "Y_ELBO_TauTrick" = Some v ∧
          Some [TrainOptions.PBool true; TrainOptions.PBool true]
          = Some (replicate (length views) v)) ∧
    "Y_ELBO_TauTrick" ∉ TrainOptions.asserted_keys.
Proof.
  apply (precompute_tau_trick (λ _ w, Returns (S w)) Precompute.demo_elbo
           Precompute.demo_net
           (Precompute.mkNet (Precompute.options Precompute.demo_net)
              (Some [TrainOptions.PBool true; TrainOptions.PBool true]) 1%nat)
           (-100)%float).
  vm_compute. reflexivity.
Defined.

(** ** Edge cases of the run and of the pruning step *)

Section ZeroFrequencies.
Import Training Run.
Context {node : Type}.
Variable removeFactors : list nat → node → node.
Variable expectations_of : list (string * node) → Pruning.expectations.
Variable update : string → list (string * node)
                  → py_result (list (string * node)).
Variable precompute : list (string * node)
                      → py_result (list (string * node) * float).
Variable calculateELBO_total : list (string * node) → py_result float.
Variable rnd : Z → nat.
Variables M G : nat.
Variable o : run_options.
Variable opts : train_options.

#[local] Abbreviation prune_and_update :=
  (Run.prune_and_update removeFactors expectations_of update rnd M G o).
#[local] Abbreviation iterate :=
  (Run.iterate removeFactors expectations_of update precompute
     calculateELBO_total rnd M G o opts).

(** An iteration from [start_elbo] on evaluates [% elbofreq], and one from
    [start_drop] on evaluates [% freq_drop]. *)
Lemma iteration_divides (i : Z) (st st' : loop_state (world node))
    (c : bool) :
  iteration prune_and_update (λ w, calculateELBO_total (registry w)) opts i st
    = Returns (st', c) →
  ((start_elbo opts ≤ i)%Z → elbofreq opts ≠ 0%Z) ∧
  ((start_drop o ≤ i)%Z → freq_drop o ≠ 0%Z).
Proof.
  unfold iteration. intros H.
  inv_bind H as w Hw. inv_bind H as chk Hchk. split.
  - intros Hi. replace (start_elbo opts <=? i)%Z with true in Hchk by lia.
    inv_bind Hchk as r Hr. unfold py_mod in Hr.
    destruct (elbofreq opts =? 0)%Z eqn:Hz; [discriminate Hr|lia].
  - intros Hi. unfold Run.prune_and_update, prune in Hw.
    inv_bind Hw as w1 Hw1.
    replace (start_drop o <=? i)%Z with true in Hw1 by lia.
    inv_bind Hw1 as r Hr. unfold py_mod in Hr.
    destruct (freq_drop o =? 0)%Z eqn:Hz; [discriminate Hr|lia].
Qed.

(** X26.  The frequencies are divisors: a run with [elbofreq = 0] cannot
    return once an ELBO checkpoint is due ([start_elbo < maxiter], at
    least one iteration), and a run with [freq_drop = 0] cannot run to
    the end once a pruning step is due ([start_drop < maxiter]); the
    modulo of the test fails instead. *)
Theorem iterate_frequencies (K : nat) (nodes : list (string * node))
    (st : loop_state (world node)) (converged : option Z) :
  iterate K nodes = Returns (st, converged) →
  (2 ≤ maxiter opts)%Z →
  ((start_elbo opts < maxiter opts)%Z → elbofreq opts ≠ 0%Z) ∧
  (converged = None → (start_drop o < maxiter opts)%Z → freq_drop o ≠ 0%Z).
Proof.
  intros H Hmax.
  apply iterate_inv in H as (nodes' & col & st1 & _ & H & _).
  set (I := λ (i : nat) (s : loop_state (world node)),
         ((start_elbo opts < Z.of_nat i)%Z → elbofreq opts ≠ 0%Z) ∧
         ((start_drop o < Z.of_nat i)%Z → freq_drop o ≠ 0%Z)).
  assert (∀ i sa sb c, (1 ≤ i < 1 + Z.to_nat (maxiter opts - 1))%nat →
            I i sa →
            iteration prune_and_update
              (λ w, calculateELBO_total (registry w)) opts (Z.of_nat i) sa
            = Returns (sb, c) → I (S i) sb) as Hstep.
  { intros i sa sb c Hi [HE HD] Hit.
    apply iteration_divides in Hit as [HE' HD'].
    split; intros Hlt.
    - destruct (decide (start_elbo opts < Z.of_nat i)%Z); [by apply HE|].
      apply HE'. lia.
    - destruct (decide (start_drop o < Z.of_nat i)%Z); [by apply HD|].
      apply HD'. lia. }
  pose proof H as Hloop.
  apply (loop_invariant _ _ _ I) in Hloop; [|exact Hstep|].
  - destruct converged as [i|].
    + split; [|discriminate]. intros _.
      apply loop_converged in H as [_ (sa & sb & Hit)].
      by apply iteration_converged in Hit as (_ & _ & Hfreq & _).
    + destruct Hloop as [HE HD]. split.
      * intros Hlt. apply HE. lia.
      * intros _ Hlt. apply HD. lia.
  - split; intros Hlt.
    + destruct (decide (start_elbo opts < 1)%Z) as [Hs|Hs]; [|lia].
      (* the first iteration is already past [start_elbo] *)
      clear Hlt. destruct (iterations (maxiter opts)) as [|i rest] eqn:Hits.
      { unfold iterations in Hits.
        replace (Z.to_nat (maxiter opts - 1))
          with (S (Z.to_nat (maxiter opts - 2))) in Hits by lia.
        discriminate Hits. }
      assert (i = 1%Z) as ->.
      { unfold iterations in Hits.
        replace (Z.to_nat (maxiter opts - 1))
          with (S (Z.to_nat (maxiter opts - 2))) in Hits by lia.
        by injection Hits as <- _. }
      simpl in H. inv_bind H as r Hr. destruct r as [sb c].
      apply iteration_divides in Hr as [HE _]. apply HE. lia.
    + destruct (decide (start_drop o < 1)%Z) as [Hs|Hs]; [|lia].
      clear Hlt. destruct (iterations (maxiter opts)) as [|i rest] eqn:Hits.
      { unfold iterations in Hits.
        replace (Z.to_nat (maxiter opts - 1))
          with (S (Z.to_nat (maxiter opts - 2))) in Hits by lia.
        discriminate Hits. }
      assert (i = 1%Z) as ->.
      { unfold iterations in Hits.
        replace (Z.to_nat (maxiter opts - 1))
          with (S (Z.to_nat (maxiter opts - 2))) in Hits by lia.
        by injection Hits as <- _. }
      simpl in H. inv_bind H as r Hr. destruct r as [sb c].
      apply iteration_divides in Hr as [_ HD]. apply HD. lia.
Qed.

End ZeroFrequencies.

(** X26 witness: the example run, with a checkpoint at every iteration
    and a pruning step at every third. *)
Lemma iterate_frequencies_witness :
  ((Training.start_elbo Run.demo_train_options
    < Training.maxiter Run.demo_train_options)%Z →
   Training.elbofreq Run.demo_train_options ≠ 0%Z) ∧
  (@None Z = None →
   (Run.start_drop Run.demo_options
    < Training.maxiter Run.demo_train_options)%Z →
   Run.freq_drop Run.demo_options ≠ 0%Z).
Proof.
  apply (iterate_frequencies Pruning.delete_positions
           (λ _, Pruning.two_groups)
           (λ _ nodes, Returns nodes) (λ nodes, Returns (nodes, (-10)%float))
           (λ _, Returns (-10)%float) (λ _, 0%nat) 1 2 Run.demo_options
           Run.demo_train_options 2
           [("Z", [0; 1]%nat); ("W", [0; 1]%nat)] Run.demo_final None).
  - vm_compute. reflexivity.
  - vm_compute. discriminate.
Defined.

Section PruningEdges.
Import Pruning.
Context {node : Type}.
Variable removeFactors : list nat → node → node.

(** X27.  Edge cases of [removeInactiveFactors]: called without a
    threshold (the default [min_r2=None]) it raises [ValueError], there
    being nothing to concatenate; with no group ([G = 0]) it raises
    [TypeError], the intersection having no argument; and when the one
    factor left is not above the threshold in any view of the last group,
    the program exits. *)
Theorem removeInactiveFactors_edges (M K G : nat) (e : expectations)
    (nodes : list (string * node)) (rnd : nat) (min_r2 : float) :
  removeInactiveFactors removeFactors M K G e nodes rnd None
  = Raises "ValueError: need at least one array to concatenate" ∧
  (G = 0%nat →
   removeInactiveFactors removeFactors M K G e nodes rnd (Some min_r2)
   = Raises "TypeError: descriptor 'intersection' of 'set' object needs an argument") ∧
  ((0 < G)%nat → K = 1%nat →
   (∀ m, (m < M)%nat →
      PrimFloat.ltb min_r2 (r2_per_group e (G - 1) m 0) = false) →
   removeInactiveFactors removeFactors M K G e nodes rnd (Some min_r2)
   = Exits).
Proof.
  split; [reflexivity|]. split.
  - intros ->. reflexivity.
  - intros HG -> Hinactive. unfold removeInactiveFactors.
    destruct (calculate_variance_explained_table M 1 G e)
      as (A & HA & Hshape & Hentries).
    pose proof (inactive_columns_of_table M 1 G e min_r2 A 0 HA Hshape
                  Hentries HG ltac:(lia) Hinactive) as Hin.
    rewrite HA. destruct G as [|G']; [lia|].
    rewrite <- cons_seq, fmap_cons.
    cbn [intersection]. rewrite bind_ret.
    set (candidates := filter _ _).
    assert (0%nat ∈ candidates) as Hcand.
    { apply list_elem_of_filter. split; [|exact Hin].
      apply Forall_fmap, Forall_forall. intros g Hg. simpl.
      apply elem_of_seq in Hg. unfold r2_get. simpl.
      change (0%nat :: replicate G' 0%nat) with (replicate (S G') 0%nat).
      rewrite lookup_replicate_2 by lia. exact Hin. }
    destruct (decide (0 < length candidates)%nat) as [_|Hn].
    + rewrite bind_ret.
      change (length [candidates !!! (rnd `mod` length candidates)%nat])
        with 1%nat.
      reflexivity.
    + destruct candidates; [by apply not_elem_of_nil in Hcand|simpl in Hn; lia].
Qed.

End PruningEdges.

(** ** A run with a degenerate initial ELBO *)

Section DegenerateBaseline.
Import Training.
Context {world : Type}.
Variable precompute : world → py_result (world * float).
Variable prune_and_update : Z → world → py_result world.
Variable calculateELBO_total : world → py_result float.
Variable opts : train_options.

#[local] Abbreviation iteration :=
  (iteration prune_and_update calculateELBO_total opts).
#[local] Abbreviation loop := (loop prune_and_update calculateELBO_total opts).
#[local] Abbreviation iterate :=
  (iterate precompute prune_and_update calculateELBO_total opts).

(** An iteration that declares convergence has assessed the ELBO change
    against row 0 of the ledger. *)
Lemma iteration_assesses (i : nat) (st st' : loop_state world)
    (elbo_0 : float) :
  iteration (Z.of_nat i) st = Returns (st', true) →
  (1 ≤ i)%nat → elbo st !! 0%nat = Some elbo_0 →
  ∃ delta_elbo token,
    Convergence.assess_convergence (convergence_mode opts) delta_elbo elbo_0
      (convergence_token st)
    = Returns (token, true).
Proof.
  unfold Training.iteration. intros H Hi H0.
  inv_bind H as w Hw. inv_bind H as chk Hchk.
  destruct chk; [|discriminate H].
  inv_bind H as total_i Ht. inv_bind H as col Hcol.
  apply iloc_set_inv in Hcol as [Hlt ->]; [|lia]. rewrite Nat2Z.id in *.
  inv_bind H as elbo_i Hei. inv_bind H as e0 He0.
  assert (e0 = elbo_0) as ->.
  { unfold iloc_get, iloc_pos in He0. rewrite length_insert in He0.
    replace ((0 <=? 0)%Z && (0 <? Z.of_nat (length (elbo st)))%Z)
      with true in He0 by lia.
    rewrite bind_ret in He0. change (Z.to_nat 0) with 0%nat in He0.
    rewrite list_lookup_insert_ne, H0 in He0 by lia. by injection He0. }
  inv_bind H as delta Hd.
  destruct ((start_elbo opts <? Z.of_nat i)%Z && negb (forceiter opts));
    [|discriminate H].
  inv_bind H as tc Htc. destruct tc as [token conv]. injection H as _ ->.
  by exists delta, token.
Qed.

Lemma loop_degenerate (total_0 : float) (n : nat) :
  PrimFloat.eqb total_0 0 = true ∨ PrimFloat.is_nan total_0 = true →
  ∀ (s : nat) (st st' : loop_state world) (converged : option Z),
    (1 ≤ s)%nat → elbo st !! 0%nat = Some total_0 →
    loop (Z.of_nat <$> seq s n) st = Returns (st', converged) →
    converged = None ∧ elbo st' !! 0%nat = Some total_0.
Proof.
  intros Hdeg. induction n as [|n IH]; intros s st st' converged Hs H0 H.
  - by injection H as <- <-.
  - rewrite <- cons_seq, fmap_cons in H. simpl in H.
    inv_bind H as r Hr. destruct r as [st1 c]. destruct c.
    + exfalso.
      destruct (iteration_assesses s st st1 total_0 Hr Hs H0)
        as (delta & token & Ha).
      unfold Convergence.assess_convergence in Ha.
      destruct (Convergence.convergence_threshold _); [|discriminate Ha].
      rewrite relDelta_degenerate in Ha; [discriminate Ha|].
      destruct Hdeg as [?|?]; auto.
    + apply (IH (S s) st1 st'); [lia| |exact H].
      apply iteration_inv in Hr as (_ & _ & Hother & _).
      rewrite Hother by lia. exact H0.
Qed.

(** X28.  When the total of the ELBO record that [precompute] returns,
    which is row 0 of the ledger and the baseline of every convergence
    check, is zero or NaN, a run never declares convergence: if it
    returns, it has made all its iterations, with that value in row 0. *)
Theorem iterate_degenerate_baseline (w0 w : world) (total_0 : float)
    (st : loop_state world) (converged : option Z) :
  precompute w0 = Returns (w, total_0) →
  PrimFloat.eqb total_0 0 = true ∨ PrimFloat.is_nan total_0 = true →
  iterate w0 = Returns (st, converged) →
  converged = None ∧ elbo st !! 0%nat = Some total_0.
Proof.
  unfold Training.iterate. intros Hw Hdeg H.
  destruct (maxiter opts + 1 <? 0)%Z; [discriminate H|].
  rewrite Hw, bind_ret in H.
  inv_bind H as col Hcol.
  apply iloc_set_inv in Hcol as [Hlen ->]; [|lia].
  change (Z.to_nat 0) with 0%nat in *.
  apply (loop_degenerate total_0 _ Hdeg) in H; [exact H|lia|].
  by apply list_lookup_insert_eq.
Qed.

End DegenerateBaseline.

(** X28 witness: the run whose ELBO record before training has a total
    of zero makes all its iterations, although its ELBO is constant from
    the first pass on. *)
Lemma iterate_degenerate_baseline_witness :
  ∃ st converged,
    Run.flat_run = Returns (st, converged) ∧
    converged = None ∧ Training.elbo st !! 0%nat = Some 0%float.
Proof.
  do 2 eexists. split; [vm_compute; reflexivity|].
  apply (iterate_degenerate_baseline (λ w, Returns (w, 0%float))
           (λ _ w, Returns (S w)) (λ _, Returns (-5)%float)
           Training.demo_opts 0%nat 0%nat 0%float).
  - reflexivity.
  - left. reflexivity.
  - vm_compute. reflexivity.
Defined.

(** ** What the ledger records *)

Section LedgerContents.
Import Training.
Context {world : Type}.
Variable precompute : world → py_result (world * float).
Variable prune_and_update : Z → world → py_result world.
Variable calculateELBO_total : world → py_result float.
Variable opts : train_options.

#[local] Abbreviation iteration :=
  (iteration prune_and_update calculateELBO_total opts).
#[local] Abbreviation loop := (loop prune_and_update calculateELBO_total opts).
#[local] Abbreviation iterate :=
  (iterate precompute prune_and_update calculateELBO_total opts).
#[local] Abbreviation checkpoint := (λ j : nat,
  (start_elbo opts ≤ Z.of_nat j)%Z ∧ elbofreq opts ≠ 0%Z ∧
  ((Z.of_nat j - start_elbo opts) mod elbofreq opts = 0)%Z).
#[local] Abbreviation passes_to := (λ (j : nat) (w : world),
  Run.passes prune_and_update (iterations (Z.of_nat j + 1)) w).

(** At a checkpoint the row of the iteration is set to the ELBO of the
    nodes as the pass has left them. *)
Lemma iteration_checkpoint (i : nat) (st st' : loop_state world) (c : bool) :
  iteration (Z.of_nat i) st = Returns (st', c) → checkpoint i →
  ∃ total_i, calculateELBO_total (nodes st') = Returns total_i ∧
             elbo st' !! i = Some total_i.
Proof.
  unfold Training.iteration. intros H (Hge & Hfreq & Hmod).
  inv_bind H as w Hw. inv_bind H as chk Hchk.
  replace (start_elbo opts <=? Z.of_nat i)%Z with true in Hchk by lia.
  unfold py_mod in Hchk.
  replace (elbofreq opts =? 0)%Z with false in Hchk by lia.
  rewrite bind_ret, Hmod in Hchk. injection Hchk as <-.
  change (0 =? 0)%Z with true in H. cbv iota in H.
  inv_bind H as total_i Ht. inv_bind H as col Hcol.
  apply iloc_set_inv in Hcol as [Hlt ->]; [|lia]. rewrite Nat2Z.id in *.
  inv_bind H as elbo_i Hei. inv_bind H as elbo_0 He0.
  inv_bind H as delta Hd.
  assert (nodes st' = w ∧ elbo st' = <[i := total_i]> (elbo st)) as [-> ->].
  { destruct ((start_elbo opts <? Z.of_nat i)%Z && negb (forceiter opts)).
    - inv_bind H as tc Htc. destruct tc as [token conv].
      by injection H as <- <-.
    - by injection H as <- <-. }
  exists total_i. split; [exact Ht|]. by apply list_lookup_insert_eq.
Qed.

(** X29.  What the rows of the ledger hold: in a run that returns, the
    row of every checkpoint iteration that is kept is the ELBO of the
    nodes as they were after the passes 1 to that iteration. *)
Theorem iterate_ledger_rows (w0 w : world) (total_0 : float)
    (st : loop_state world) (converged : option Z) (j : nat) :
  precompute w0 = Returns (w, total_0) →
  iterate w0 = Returns (st, converged) →
  (1 ≤ j < length (elbo st))%nat → (Z.of_nat j < maxiter opts)%Z →
  checkpoint j →
  ∃ w_j total_j,
    passes_to j w = Returns w_j ∧
    calculateELBO_total w_j = Returns total_j ∧
    elbo st !! j = Some total_j.
Proof.
  unfold Training.iterate. intros Hw H Hj Hjm Hcp.
  destruct (maxiter opts + 1 <? 0)%Z; [discriminate H|].
  rewrite Hw, bind_ret in H.
  inv_bind H as col Hcol.
  apply iloc_set_inv in Hcol as [Hlen ->]; [|lia].
  rewrite length_replicate in Hlen. change (Z.to_nat 0) with 0%nat in *.
  set (L := Z.to_nat (maxiter opts + 1)) in *.
  set (I := λ (i : nat) (s : loop_state world),
         length (elbo s) = L ∧
         Run.passes prune_and_update (Z.of_nat <$> seq 1 (i - 1)) w
         = Returns (nodes s) ∧
         ∀ k, (1 ≤ k < i)%nat → checkpoint k →
           ∃ w_k total_k,
             passes_to k w = Returns w_k ∧
             calculateELBO_total w_k = Returns total_k ∧
             elbo s !! k = Some total_k).
  apply (loop_invariant _ _ _ I) in H.
  - destruct converged as [i|].
    + destruct H as (i' & st1 & -> & Hi' & (HL & _ & Hrows) & ->).
      simpl in *. rewrite length_take, HL in Hj.
      destruct (Hrows j ltac:(lia) Hcp) as (w_j & total_j & Hp & Hc & Hr).
      exists w_j, total_j. split; [exact Hp|]. split; [exact Hc|].
      by rewrite lookup_take_lt by lia.
    + destruct H as (HL & _ & Hrows).
      apply Hrows; [lia|exact Hcp].
  - intros i sa sb c Hi (HL & Hpass & Hrows) Hit.
    pose proof Hit as Hit'.
    apply iteration_inv in Hit as (Hw' & Hlen' & Hother & _).
    assert (Run.passes prune_and_update (Z.of_nat <$> seq 1 (S i - 1)) w
            = Returns (nodes sb)) as Hpass'.
    { replace (S i - 1)%nat with (S (i - 1)) by lia.
      rewrite seq_S, fmap_app. simpl.
      rewrite (passes_snoc _ _ _ _ _ Hpass).
      by replace (S (i - 1)) with i by lia. }
    split; [lia|]. split; [exact Hpass'|].
    intros k Hk Hcpk. destruct (decide (k = i)) as [->|Hne].
    + destruct (iteration_checkpoint i sa sb c Hit' Hcpk)
        as (total_i & Hc & Hr).
      exists (nodes sb), total_i. split; [|by split].
      unfold iterations.
      by replace (Z.to_nat (Z.of_nat i + 1 - 1)) with (S i - 1)%nat by lia.
    + destruct (Hrows k ltac:(lia) Hcpk) as (w_k & total_k & Hp & Hc & Hr).
      exists w_k, total_k. split; [exact Hp|]. split; [exact Hc|].
      by rewrite Hother by exact Hne.
  - unfold I. simpl. split; [by rewrite length_insert, length_replicate|].
    split; [reflexivity|]. intros k Hk. lia.
Qed.

End LedgerContents.

(** X29 witness: row 2 of the run that converges at iteration 6 is the
    ELBO after two passes. *)
Lemma iterate_ledger_rows_witness :
  ∃ w_j total_j,
    Run.passes (λ _ w, Returns (S w)) (Training.iterations (Z.of_nat 2 + 1))
      0%nat = Returns w_j ∧
    Returns (match w_j with
             | 0%nat => (-100)%float
             | 1%nat => (-50)%float
             | _ => (-40)%float
             end) = Returns total_j ∧
    [-100; -50; -40; -40; -40; -40]%float !! 2%nat = Some total_j.
Proof.
  apply (iterate_ledger_rows (λ w, Returns (w, (-100)%float))
           (λ _ w, Returns (S w))
           (λ w, Returns (match w with
                          | 0%nat => (-100)%float
                          | 1%nat => (-50)%float
                          | _ => (-40)%float
                          end))
           Training.plateau_opts 0%nat 0%nat (-100)%float
           (Training.mkState 6%nat [-100; -50; -40; -40; -40; -40]%float 5%Z)
           (Some 6%Z) 2%nat).
  - reflexivity.
  - vm_compute. reflexivity.
  - simpl. lia.
  - vm_compute. reflexivity.
  - split; [vm_compute; discriminate|]. split; [discriminate|reflexivity].
Defined.

(** ** numpy's summation order *)

Section Summation.
Import Pruning.

(** The fuel given by [np_sum] is enough: more of it changes nothing. *)
Lemma pairwise_sum_fuel (fuel : nat) :
  ∀ (fuel' : nat) (a : list float),
    (length a ≤ fuel)%nat → (length a ≤ fuel')%nat →
    pairwise_sum fuel a = pairwise_sum fuel' a.
Proof.
  induction fuel as [|fuel IH]; intros fuel' a Hf Hf'.
  - destruct a; [|simpl in Hf; lia]. by destruct fuel'.
  - destruct fuel' as [|fuel'].
    { destruct a; [reflexivity|simpl in Hf'; lia]. }
    cbn [pairwise_sum]. destruct (length a <? 8)%nat; [reflexivity|].
    destruct (length a <=? 128)%nat eqn:Hlen; [reflexivity|].
    apply Nat.leb_gt in Hlen.
    set (n2 := (length a / 2 - (length a / 2) mod 8)%nat).
    assert (1 ≤ n2 < length a)%nat as Hn2.
    { unfold n2.
      pose proof (Nat.mod_upper_bound (length a / 2) 8 ltac:(lia)).
      pose proof (Nat.Div0.mod_le (length a / 2) 8).
      pose proof (Nat.div_lt (length a) 2 ltac:(lia) ltac:(lia)).
      assert (64 ≤ length a / 2)%nat
        by (apply Nat.div_le_lower_bound; lia).
      lia. }
    fold n2. f_equal; apply IH; rewrite ?length_take, ?length_drop; lia.
Qed.

(** Fewer than eight entries are added from left to right. *)
Lemma np_sum_short (a : list float) :
  (length a < 8)%nat →
  np_sum a = (0 + fold_left PrimFloat.add a 0)%float.
Proof.
  intros Hlen. apply Nat.ltb_lt in Hlen. unfold np_sum.
  destruct (length a) as [|fuel] at 1; cbn [pairwise_sum]; by rewrite Hlen.
Qed.

End Summation.
